(** * Covasim framework: parameter store, results and ensemble runner

    A shallow embedding of [covasim/framework/model.py]: the [ParsObj]
    parameter store, the [Result] container, the [Sim] engine shell and the
    two runners [single_run] and [multi_run].

    Conventions of the embedding.
    - Python values that parameters take are the type [pyval]; integers
      are [Z], and a float stored in a parameter or a series is carried as
      the exact rational ([Q]) it denotes.  Where the sign of a float
      result is at stake (the noise factor of [single_run]) the arithmetic
      is also given on binary64 numbers ([float]), with their rounding,
      infinities and NaN.
    - A Python [dict] is an association list in insertion order, because
      the error messages of the source enumerate keys in that order.
    - Exceptions are the constructors of [exn]; the constructor records the
      raise site and the data interpolated into the message.
    - Objects live in a store ([World]); [sc.dcp] allocates a fresh object.
    - What the source takes from other modules ([sc.suggest],
      [cov_ut.set_seed], [np.random.normal], the concrete [run] method of a
      disease model) is a section variable. *)

From Stdlib Require Import Floats.
From Stdlib Require Import ZArith QArith Lia List String Bool.
From stdpp Require Import base list strings.
Import ListNotations.

Local Open Scope Z_scope.
Local Open Scope string_scope.
Local Open Scope list_scope.

(** ** Values and exceptions *)

Inductive pyval : Type :=
| VNone
| VInt (z : Z)
| VFloat (q : Q)
| VStr (s : string).

(** One constructor per raise site of the source (and per Python built-in
    failure the modelled statements can hit). *)
Inductive exn : Type :=
| KeyError_lookup (key : pyval)
    (* [self.pars[key]] on an absent key: the message is the key alone *)
| KeyError_suggest (key suggestion : string)
    (* 'Key {key} not found; did you mean "{suggestion}"?' *)
| KeyError_available (key : string) (all_keys : list string)
    (* 'Key {key} not found; available keys:\n{all_keys}' *)
| KeyError_mismatch (mismatches available_keys : list string)
    (* 'Key(s) {mismatches} not found; available keys are {available_keys}' *)
| KeyError_noguess (guesses found : list string)
    (* 'Cound not guess noise parameter since out of {guesses}, {found} were found' *)
| KeyError_notvalid (key : string)
    (* 'Could not set key {key}: not a valid parameter name' *)
| ValueError_seed_randomize
    (* 'You can supply a seed or set randomize=True, but not both' *)
| ValueError_iterlen (n new_n : Z)
    (* 'Each entry in iterpars must have the same length, not {n} and {len(val)}' *)
| ValueError_broadcast (lhs rhs : nat)
    (* numpy: operands could not be broadcast together *)
| TypeError_notdict
    (* 'The pars object must be a dict; you supplied a {type(pars)}' *)
| TypeError_operand (op : string) (l r : pyval)
    (* unsupported operand type(s) for {op} *)
| TypeError_result_operand (op : string)
    (* unsupported operand type(s) for {op}: a Result is involved *)
| TypeError_subscript
    (* the object is not subscriptable *)
| TypeError_arange
    (* np.arange(None) *)
| AttributeError (attr : string)
| NotImplementedError
| IndexError
    (* list index out of range *)
| ModelError (msg : string)
    (* whatever a concrete disease model raises inside [run] *)
| BadReference.
    (* not a Python error: a reference to an object outside the store *)

Inductive pyclass : Type :=
| KeyError | ValueError | TypeError | AttributeErrorClass
| NotImplementedErrorClass | IndexErrorClass | OtherError.

Definition exn_class (e : exn) : pyclass :=
  match e with
  | KeyError_lookup _ | KeyError_suggest _ _ | KeyError_available _ _
  | KeyError_mismatch _ _ | KeyError_noguess _ _ | KeyError_notvalid _ => KeyError
  | ValueError_seed_randomize | ValueError_iterlen _ _
  | ValueError_broadcast _ _ => ValueError
  | TypeError_notdict | TypeError_operand _ _ _ | TypeError_result_operand _
  | TypeError_subscript | TypeError_arange => TypeError
  | AttributeError _ => AttributeErrorClass
  | NotImplementedError => NotImplementedErrorClass
  | IndexError => IndexErrorClass
  | ModelError _ | BadReference => OtherError
  end.

(** The error taxonomy of the specification, read off the raise sites. *)
Definition UnknownParameter (e : exn) : Prop :=
  match e with
  | KeyError_lookup _ | KeyError_suggest _ _ | KeyError_available _ _
  | KeyError_mismatch _ _ | KeyError_notvalid _ => True
  | _ => False
  end.

Definition AmbiguousNoiseParameter (e : exn) : Prop :=
  match e with KeyError_noguess _ _ => True | _ => False end.

Definition InconsistentIterationLength (e : exn) : Prop :=
  match e with ValueError_iterlen _ _ => True | _ => False end.

Inductive result (A : Type) : Type :=
| Ok (a : A)
| Raise (e : exn).
Arguments Ok {A} a.
Arguments Raise {A} e.

(** ** Arithmetic of the dynamically typed operands *)

Fixpoint str_repeat (s : string) (n : nat) : string :=
  match n with O => "" | S n' => s ++ str_repeat s n' end.

(** [a + b] *)
Definition py_add (a b : pyval) : result pyval :=
  match a, b with
  | VInt x, VInt y => Ok (VInt (x + y))
  | VInt x, VFloat y => Ok (VFloat (inject_Z x + y))
  | VFloat x, VInt y => Ok (VFloat (x + inject_Z y))
  | VFloat x, VFloat y => Ok (VFloat (x + y))
  | VStr x, VStr y => Ok (VStr (x ++ y))
  | _, _ => Raise (TypeError_operand "+" a b)
  end.

(** [a * x] for a float [x]; the product is a float. *)
Definition py_mul_float (a : pyval) (x : Q) : result Q :=
  match a with
  | VInt z => Ok (inject_Z z * x)%Q
  | VFloat q => Ok (q * x)%Q
  | _ => Raise (TypeError_operand "*" a (VFloat x))
  end.

(** [a * n] for an integer [n]; a string is repeated. *)
Definition py_mul_int (a : pyval) (n : Z) : result pyval :=
  match a with
  | VInt z => Ok (VInt (z * n))
  | VFloat q => Ok (VFloat (q * inject_Z n))
  | VStr s => Ok (VStr (str_repeat s (Z.to_nat n)))
  | VNone => Raise (TypeError_operand "*" a (VInt n))
  end.

(** [a >= n] for an integer literal [n]. *)
Definition py_ge_int (a : pyval) (n : Z) : result bool :=
  match a with
  | VInt z => Ok (n <=? z)%Z
  | VFloat q => Ok (Qle_bool (inject_Z n) q)
  | _ => Raise (TypeError_operand ">=" a (VInt n))
  end.

(** ** Dictionaries *)

Definition dict : Type := list (string * pyval).

Definition keys {V} (d : list (string * V)) : list string := map fst d.

Fixpoint dict_get {V} (k : string) (d : list (string * V)) : option V :=
  match d with
  | [] => None
  | (k', v) :: d' => if String.eqb k k' then Some v else dict_get k d'
  end.

(** [k in d] *)
Definition dict_mem {V} (k : string) (d : list (string * V)) : bool :=
  match dict_get k d with Some _ => true | None => false end.

(** [d[k] = v]: an existing key keeps its position, a new key is appended. *)
Fixpoint dict_set {V} (k : string) (v : V) (d : list (string * V))
  : list (string * V) :=
  match d with
  | [] => [(k, v)]
  | (k', v') :: d' =>
      if String.eqb k k' then (k, v) :: d' else (k', v') :: dict_set k v d'
  end.

(** [d.update(m)] *)
Definition dict_update {V} (d m : list (string * V)) : list (string * V) :=
  fold_left (fun acc kv => dict_set (fst kv) (snd kv) acc) m d.

(** [key in available_keys] for a list of keys *)
Definition key_in (k : string) (ks : list string) : bool :=
  existsb (String.eqb k) ks.

(** ** ParsObj *)

Section ParsObj.

(** [sc.suggest(key, valid_keys)]: the nearest valid key within the
    edit-distance threshold, or [None]. *)
Variable suggest : string -> list string -> option string.

(** [ParsObj.__getitem__]: [return self.pars[key]].  Keys of the store
    are strings, so any other key is absent. *)
Definition ParsObj_getitem (pars : dict) (key : pyval) : result pyval :=
  match key with
  | VStr k =>
      match dict_get k pars with
      | Some v => Ok v
      | None => Raise (KeyError_lookup key)
      end
  | _ => Raise (KeyError_lookup key)
  end.

(** Truth value of what [sc.suggest] returns, as [if suggestion:] tests
    it: [None] and the empty string are false. *)
Definition truthy (suggestion : option string) : bool :=
  match suggestion with
  | Some near => negb (String.eqb near "")
  | None => false
  end.

(** The error that [__setitem__] builds for an absent key. *)
Definition setitem_error (pars : dict) (key : string) : exn :=
  let suggestion := suggest key (keys pars) in
  if truthy suggestion then
    match suggestion with
    | Some near => KeyError_suggest key near
    | None => KeyError_available key (keys pars)
    end
  else KeyError_available key (keys pars).

(** [ParsObj.__setitem__] *)
Definition ParsObj_setitem (pars : dict) (key : string) (value : pyval)
  : result dict :=
  if dict_mem key pars then Ok (dict_set key value pars)
  else Raise (setitem_error pars key).

(** The argument of [update_pars]: a dict or something else. *)
Inductive pyarg : Type :=
| ADict (d : dict)
| ANotDict (v : pyval).

(** [ParsObj.update_pars].  [self_pars] is [None] while the object has no
    [pars] attribute yet (inside [__init__]); the result is the [pars]
    attribute after the call. *)
Definition update_pars (self_pars : option dict) (pars : pyarg)
           (create : bool) : result dict :=
  match pars with
  | ANotDict _ => Raise TypeError_notdict
  | ADict pars =>
      match self_pars with
      | None => Ok pars
      | Some self_pars =>
          if negb create then
            let available_keys := keys self_pars in
            let mismatches :=
              List.filter (fun key => negb (key_in key available_keys))
                          (keys pars) in
            if negb (Nat.eqb (length mismatches) 0)
            then Raise (KeyError_mismatch mismatches available_keys)
            else Ok (dict_update self_pars pars)
          else Ok (dict_update self_pars pars)
      end
  end.

(** [ParsObj.__init__] *)
Definition ParsObj_init (pars : pyarg) : result dict :=
  update_pars None pars true.

End ParsObj.

(** ** Result *)

Record Result : Type := mkResult {
  name : option string;
  values : list Q;
  scale : bool;
  ispercentage : bool
}.

(** [Result.__init__]: explicit values, or zeros when only [npts] is given,
    or empty. *)
Definition Result_init (name : option string) (values : option (list Q))
           (npts : option nat) (scale ispercentage : bool) : Result :=
  let values :=
    match values with
    | Some vs => vs
    | None =>
        match npts with
        | Some n => repeat 0%Q n
        | None => []
        end
    end in
  mkResult name values scale ispercentage.

(** [Result.npts] *)
Definition npts (r : Result) : nat := length (values r).

(** An entry of [sim.results]: a [Result] object or a bare numeric array
    (the source's [_make_resdict] allows for both). *)
Inductive resval : Type :=
| RResult (r : Result)
| RArray (a : list Q).

Fixpoint zip_add (a b : list Q) : list Q :=
  match a, b with
  | x :: a', y :: b' => (x + y)%Q :: zip_add a' b'
  | _, _ => []
  end.

(** [lhs += rhs] on two result entries.  [Result] defines neither
    [__iadd__] nor [__add__], so it supports no addition; two arrays are
    added in place under numpy's broadcasting rule for an in-place
    operand. *)
Definition res_iadd (lhs rhs : resval) : result resval :=
  match lhs, rhs with
  | RArray a, RArray b =>
      if Nat.eqb (length a) (length b) then Ok (RArray (zip_add a b))
      else match b with
           | [y] => Ok (RArray (map (fun x => (x + y)%Q) a))
           | _ => Raise (ValueError_broadcast (length a) (length b))
           end
  | _, _ => Raise (TypeError_result_operand "+=")
  end.

(** ** The engine and the store of objects *)

Definition loc : Type := nat.

(** What may be bound to the formal parameter [sim] of [single_run]. *)
Inductive pyref : Type :=
| RSim (l : loc)
| RVal (v : pyval).

(** Lines written to standard output. *)
Inductive line : Type :=
| LRunning (seed : pyval) (noisefactor : Q)
| LProcessing (key : string) (val : pyval)
| LSetting (key : string) (old new : pyval)
| LWarnNotTested
| LModel (msg : string).

Section Engine.

(** The agents of a concrete disease model, and the state of the global
    random number stream. *)
Context {Person rng_state : Type}.

(** A [Sim] object.  [people], [results] and [results_keys] are attributes
    that a concrete model creates; [None] is an attribute that does not
    exist (yet). *)
Record Sim : Type := mkSim {
  pars : dict;
  people : option (list (Z * Person));
  results : option (list (string * resval));
  results_keys : option (list string)
}.

Definition set_pars (s : Sim) (d : dict) : Sim :=
  mkSim d (people s) (results s) (results_keys s).
Definition set_people (s : Sim) (p : list (Z * Person)) : Sim :=
  mkSim (pars s) (Some p) (results s) (results_keys s).
Definition set_results (s : Sim) (r : list (string * resval)) : Sim :=
  mkSim (pars s) (people s) (Some r) (results_keys s).

(** The process state: the objects, the random stream, standard output. *)
Record World : Type := mkWorld {
  heap : list Sim;
  rng : rng_state;
  out : list line
}.

Definition set_heap (w : World) (h : list Sim) : World :=
  mkWorld h (rng w) (out w).
Definition set_rng (w : World) (r : rng_state) : World :=
  mkWorld (heap w) r (out w).
Definition set_out (w : World) (o : list line) : World :=
  mkWorld (heap w) (rng w) o.

(** Computations: they may raise, and the state they reached survives. *)
Definition M (A : Type) : Type := World -> result A * World.

Definition ret {A} (a : A) : M A := fun w => (Ok a, w).
Definition raise {A} (e : exn) : M A := fun w => (Raise e, w).
Definition bind {A B} (m : M A) (f : A -> M B) : M B :=
  fun w => match m w with
           | (Ok a, w') => f a w'
           | (Raise e, w') => (Raise e, w')
           end.
Definition lift {A} (r : result A) : M A := fun w => (r, w).

End Engine.

Arguments Sim : clear implicits.
Arguments World : clear implicits.
Arguments M : clear implicits.

Notation "'let*' x := m 'in' k" := (bind m (fun x => k))
  (at level 10, x name, m at level 100, k at level 200).
Notation "m ;; k" := (bind m (fun _ => k))
  (at level 100, k at level 200, right associativity).

Section Runner.

Context {Person rng_state : Type}.

Abbreviation Sim := (Sim Person).
Abbreviation World := (World Person rng_state).
Abbreviation M := (M Person rng_state).

(** [sc.suggest] *)
Variable suggest : string -> list string -> option string.

(** [cov_ut.set_seed(seed)]: the state of the random stream after it is
    reset from [seed] ([VNone] stands for a reset from fresh entropy). *)
Variable seed_rng : pyval -> rng_state.

(** [np.random.normal()]: the value drawn and the advanced stream. *)
Variable normal : rng_state -> Q * rng_state.

(** What the [run] method of the concrete disease model does to its own
    object: the base class only declares it. *)
Record RunOutcome : Type := mkRunOutcome {
  ro_sim : Sim;
  ro_rng : rng_state;
  ro_out : list line;
  ro_exn : option exn
}.

Variable run : Sim -> pyval -> rng_state -> RunOutcome.

(** *** Access to objects of the store *)

Definition sim_read (l : loc) : M Sim :=
  fun w => match heap w !! l with
           | Some s => (Ok s, w)
           | None => (Raise BadReference, w)
           end.

Definition sim_write (l : loc) (s : Sim) : M unit :=
  fun w => (Ok tt, set_heap w (<[l := s]> (heap w))).

(** [sc.dcp(obj)]: a deep copy is a new object that shares nothing. *)
Definition dcp (l : loc) : M loc :=
  let* s := sim_read l in
  fun w => (Ok (length (heap w)), set_heap w (heap w ++ [s])).

Definition print (ln : line) : M unit :=
  fun w => (Ok tt, set_out w (out w ++ [ln])).

(** [sim[key]] *)
Definition Sim_getitem (l : loc) (key : pyval) : M pyval :=
  let* s := sim_read l in
  lift (ParsObj_getitem (pars s) key).

(** [sim[key] = value] *)
Definition Sim_setitem (l : loc) (key : string) (value : pyval) : M unit :=
  let* s := sim_read l in
  let* d := lift (ParsObj_setitem suggest (pars s) key value) in
  sim_write l (set_pars s d).

(** [sim.update_pars(pars, create)] on a constructed engine *)
Definition Sim_update_pars (l : loc) (p : pyarg) (create : bool) : M unit :=
  let* s := sim_read l in
  let* d := lift (update_pars (Some (pars s)) p create) in
  sim_write l (set_pars s d).

(** [Sim.set_seed]; [seed = VNone] is the omitted argument. *)
Definition set_seed (l : loc) (seed : pyval) (randomize : bool) : M unit :=
  let* seed :=
    (if randomize then
       match seed with
       | VNone => ret VNone
       | _ => raise ValueError_seed_randomize
       end
     else
       match seed with
       | VNone => Sim_getitem l (VStr "seed")
       | _ => (Sim_setitem l "seed" seed ;; ret seed)
       end) in
  fun w => (Ok tt, set_rng w (seed_rng seed)).

(** [np.random.normal()] *)
Definition np_random_normal : M Q :=
  fun w => let (x, r) := normal (rng w) in (Ok x, set_rng w r).

(** [sim.run(verbose=verbose)]: the model's method acts on its own object
    and on the global stream. *)
Definition Sim_run (l : loc) (verbose : pyval) : M unit :=
  let* s := sim_read l in
  fun w =>
    let o := run s verbose (rng w) in
    let w' := mkWorld (<[l := ro_sim o]> (heap w)) (ro_rng o)
                      (out w ++ ro_out o) in
    match ro_exn o with
    | Some e => (Raise e, w')
    | None => (Ok tt, w')
    end.

(** *** single_run *)

Definition guesses : list string := ["r_contact"; "r0"; "beta"].

(** The multiplier computed from the perturbation [noiseval], as an exact
    number: the value that the store of the embedding carries. *)
Definition noisefactor (noiseval : Q) : Q :=
  if negb (Qle_bool noiseval 0) then (1 + noiseval)%Q
  else (1 / (1 - noiseval))%Q.

(** Line 325 on binary64 numbers: [noise * np.random.normal()]. *)
Definition noiseval_double (noise draw : float) : float :=
  (noise * draw)%float.

(** Lines 326-329 on binary64 numbers.  A Python float division by zero
    raises ZeroDivisionError: that outcome is [None]. *)
Definition noisefactor_double (noiseval : float) : option float :=
  if (0 <? noiseval)%float then Some (1 + noiseval)%float
  else if (1 - noiseval =? 0)%float then None
  else Some (1 / (1 - noiseval))%float.

(** [new_sim[noisepar] *= noisefactor] *)
Definition Sim_imul_float (l : loc) (key : pyval) (x : Q) : M unit :=
  let* old := Sim_getitem l key in
  let* new := lift (py_mul_float old x) in
  match key with
  | VStr k => Sim_setitem l k (VFloat new)
  | _ => raise (KeyError_lookup key)
  end.

(** The loop over the extra keyword arguments. *)
Fixpoint apply_kwargs (new_sim : loc) (verbose : pyval) (kwargs : dict)
  : M unit :=
  match kwargs with
  | [] => ret tt
  | (key, val) :: rest =>
      print (LProcessing key val) ;;
      let* s := sim_read new_sim in
      (if dict_mem key (pars s) then
         let* loud := lift (py_ge_int verbose 1) in
         if (loud : bool) then
           let* old := Sim_getitem new_sim (VStr key) in
           print (LSetting key old val) ;;
           Sim_setitem new_sim key val
         else ret tt
       else raise (KeyError_notvalid key)) ;;
      apply_kwargs new_sim verbose rest
  end.

(** Lines 307-313: copy the engine, settle the verbosity, shift the seed
    by the run index and reset the random stream. *)
Definition clone_and_seed (sim : loc) (ind verbose : pyval)
  : M (loc * pyval) :=
  let* new_sim := dcp sim in
  let* verbose :=
    match verbose with
    | VNone => Sim_getitem new_sim (VStr "verbose")
    | _ => ret verbose
    end in
  let* seed := Sim_getitem new_sim (VStr "seed") in
  let* seed := lift (py_add seed ind) in
  Sim_setitem new_sim "seed" seed ;;
  set_seed new_sim VNone false ;;
  ret (new_sim, verbose).

(** [guess for guess in guesses if guess in sim.pars.keys()] *)
Definition found_guesses (pars : dict) : list string :=
  List.filter (fun guess => dict_mem guess pars) guesses.

(** Lines 315-322: the noise parameter, guessed when it is not given. *)
Definition guess_noisepar (sim : loc) (noisepar : pyval) : M pyval :=
  match noisepar with
  | VNone =>
      let* s := sim_read sim in
      let found := found_guesses (pars s) in
      if negb (Nat.eqb (length found) 1)
      then raise (KeyError_noguess guesses found)
      else match found with
           | g :: _ => ret (VStr g)
           | [] => raise IndexError
           end
  | _ => ret noisepar
  end.

(** Lines 324-330: draw the perturbation and scale the noise parameter;
    the result is the factor. *)
Definition apply_noise (new_sim : loc) (noise noisepar : pyval) : M Q :=
  let* draw := np_random_normal in
  let* noiseval := lift (py_mul_float noise draw) in
  let factor := noisefactor noiseval in
  Sim_imul_float new_sim noisepar factor ;;
  ret factor.

(** The statements of [single_run] up to the call of [run]: the result is
    the private copy and the verbosity in force. *)
Definition single_run_setup (sim : pyref) (ind noise noisepar verbose : pyval)
           (kwargs : dict) : M (loc * pyval) :=
  match sim with
  | RVal _ =>
      (* a copy of a plain value; the first subscript on it fails *)
      raise TypeError_subscript
  | RSim sim =>
      let* cloned := clone_and_seed sim ind verbose in
      let new_sim := fst cloned in
      let verbose := snd cloned in
      let* noisepar := guess_noisepar sim noisepar in
      let* factor := apply_noise new_sim noise noisepar in
      let* loud := lift (py_ge_int verbose 1) in
      (if (loud : bool) then
         let* seed := Sim_getitem new_sim (VStr "seed") in
         print (LRunning seed factor)
       else ret tt) ;;
      apply_kwargs new_sim verbose kwargs ;;
      ret (new_sim, verbose)
  end.

Definition single_run (sim : pyref) (ind noise noisepar verbose : pyval)
           (kwargs : dict) : M loc :=
  let* ready := single_run_setup sim ind noise noisepar verbose kwargs in
  Sim_run (fst ready) (snd ready) ;;
  ret (fst ready).

(** Lines 324-344 on their own: the noise step, the banner and the
    overrides, once the copy is seeded and the noise parameter settled;
    the result is what [run] is called on. *)
Definition perturb_and_override (new_sim : loc)
           (noise noisepar verbose : pyval) (kwargs : dict)
  : M (loc * pyval) :=
  let* factor := apply_noise new_sim noise noisepar in
  let* loud := lift (py_ge_int verbose 1) in
  (if (loud : bool) then
     let* seed := Sim_getitem new_sim (VStr "seed") in
     print (LRunning seed factor)
   else ret tt) ;;
  apply_kwargs new_sim verbose kwargs ;;
  ret (new_sim, verbose).

(** *** multi_run *)

(** The loop over [iterpars.items()] that derives [n]. *)
Fixpoint iterpars_loop (n : option Z) (items : list (string * list pyval))
  : result (option Z) :=
  match items with
  | [] => Ok n
  | (key, val) :: rest =>
      let new_n := Z.of_nat (length val) in
      match n with
      | Some n0 =>
          if negb (Z.eqb new_n n0) then Raise (ValueError_iterlen n0 new_n)
          else iterpars_loop (Some new_n) rest
      | None => iterpars_loop (Some new_n) rest
      end
  end.

(** [np.arange(n)] *)
Definition np_arange (n : option Z) : result (list pyval) :=
  match n with
  | Some n => Ok (map (fun i => VInt (Z.of_nat i)) (seq 0 (Z.to_nat n)))
  | None => Raise TypeError_arange
  end.

(** The formal parameters of [single_run]. *)
Definition formals : list string :=
  ["sim"; "ind"; "noise"; "noisepar"; "verbose"; "sim_args"].

(** The keyword arguments of run [i]: entry [i] of every sequence. *)
Definition iterdict (iterkwargs : list (string * list pyval)) (i : nat)
  : dict :=
  map (fun kv => (fst kv, nth i (snd kv) VNone)) iterkwargs.

(** The call of [single_run] with the fixed keyword arguments of
    [multi_run] overridden by the per-run ones: Python binds the formal
    parameters by name and hands the remaining keywords to [kwargs]. *)
Definition call_single_run (sim : loc) (noise noisepar verbose : pyval)
           (per_run : dict) : M loc :=
  single_run
    (match dict_get "sim" per_run with Some v => RVal v | None => RSim sim end)
    (match dict_get "ind" per_run with Some v => v | None => VInt 0 end)
    (match dict_get "noise" per_run with Some v => v | None => noise end)
    (match dict_get "noisepar" per_run with Some v => v | None => noisepar end)
    (match dict_get "verbose" per_run with Some v => v | None => verbose end)
    (List.filter (fun kv => negb (key_in (fst kv) formals)) per_run).

(** One job of [sc.parallelize]: the worker process starts from a copy of
    the parent's state and sends back the engine it produced (or the
    exception) and what it printed. *)
Definition run_job (w : World) (job : M loc) : result Sim * list line :=
  match job (set_out w []) with
  | (Ok l, w') =>
      (match heap w' !! l with
       | Some s => Ok s
       | None => Raise BadReference
       end, out w')
  | (Raise e, w') => (Raise e, out w')
  end.

Fixpoint collect {A} (rs : list (result A)) : result (list A) :=
  match rs with
  | [] => Ok []
  | Ok a :: rest =>
      match collect rest with
      | Ok l => Ok (a :: l)
      | Raise e => Raise e
      end
  | Raise e :: _ => Raise e
  end.

(** [sc.parallelize]: the results arrive in the order of the jobs as new
    objects of the parent; the parent's random stream is untouched; the
    first failing job (in job order) fails the whole call.  The output of
    the workers is shown in job order. *)
Definition parallelize (jobs : list (M loc)) : M (list loc) :=
  fun w =>
    let done := map (run_job w) jobs in
    let w1 := set_out w (out w ++ concat (map snd done)) in
    match collect (map fst done) with
    | Raise e => (Raise e, w1)
    | Ok sims =>
        (Ok (seq (length (heap w)) (length sims)),
         set_heap w1 (heap w ++ sims))
    end.

(** An attribute that may not exist. *)
Definition attr {A} (name : string) (a : option A) : M A :=
  match a with
  | Some x => ret x
  | None => raise (AttributeError name)
  end.

(** [d[key]] on a plain dict *)
Definition lookup_or_raise {V} (key : string) (d : list (string * V)) : M V :=
  match dict_get key d with
  | Some v => ret v
  | None => raise (KeyError_lookup (VStr key))
  end.

Fixpoint people_set (k : Z) (v : Person) (d : list (Z * Person))
  : list (Z * Person) :=
  match d with
  | [] => [(k, v)]
  | (k', v') :: d' =>
      if Z.eqb k k' then (k, v) :: d' else (k', v') :: people_set k v d'
  end.

(** [people.update(other)] *)
Definition people_update (d m : list (Z * Person)) : list (Z * Person) :=
  fold_left (fun acc kv => people_set (fst kv) (snd kv) acc) m d.

(** [for key in sim.results_keys: output_sim.results[key] += sim.results[key]] *)
Fixpoint merge_results (output_sim sim : loc) (ks : list string) : M unit :=
  match ks with
  | [] => ret tt
  | key :: rest =>
      let* o := sim_read output_sim in
      let* ores := attr "results" (results o) in
      let* lhs := lookup_or_raise key ores in
      let* s := sim_read sim in
      let* sres := attr "results" (results s) in
      let* rhs := lookup_or_raise key sres in
      let* total := lift (res_iadd lhs rhs) in
      sim_write output_sim (set_results o (dict_set key total ores)) ;;
      merge_results output_sim sim rest
  end.

(** [for sim in sims[1:]: ...] *)
Fixpoint merge_sims (output_sim : loc) (sims : list loc) : M unit :=
  match sims with
  | [] => ret tt
  | sim :: rest =>
      let* o := sim_read output_sim in
      let* opeople := attr "people" (people o) in
      let* s := sim_read sim in
      let* speople := attr "people" (people s) in
      sim_write output_sim (set_people o (people_update opeople speople)) ;;
      let* ks := attr "results_keys" (results_keys s) in
      merge_results output_sim sim ks ;;
      merge_sims output_sim rest
  end.

(** The [combine] branch. *)
Definition combine_sims (sims : list loc) (n : Z) : M loc :=
  print LWarnNotTested ;;
  match sims with
  | [] => raise IndexError
  | first :: others =>
      let* output_sim := dcp first in
      let* o := sim_read output_sim in
      sim_write output_sim
                (set_pars o (dict_set "parallelized" (VInt n) (pars o))) ;;
      let* o := sim_read output_sim in
      let* old := lookup_or_raise "n" (pars o) in
      let* new := lift (py_mul_int old n) in
      sim_write output_sim (set_pars o (dict_set "n" new (pars o))) ;;
      merge_sims output_sim others ;;
      ret output_sim
  end.

(** What [multi_run] returns: the list of engines, or the merged one. *)
Inductive multi_out : Type :=
| OutSims (sims : list loc)
| OutSim (sim : loc).

Definition multi_run (sim : loc) (n : Z) (noise noisepar : pyval)
           (iterpars : option (list (string * list pyval)))
           (verbose : pyval) (combine : bool) : M multi_out :=
  let* n :=
    lift (match iterpars with
          | None => Ok (Some n)
          | Some items => iterpars_loop None items
          end) in
  let iterpars := match iterpars with None => [] | Some items => items end in
  let* inds := lift (np_arange n) in
  let iterkwargs := dict_update [("ind", inds)] iterpars in
  let* sims :=
    parallelize
      (map (fun i => call_single_run sim noise noisepar verbose
                                     (iterdict iterkwargs i))
           (seq 0 (length inds))) in
  if negb combine then ret (OutSims sims)
  else
    let* output_sim :=
      combine_sims sims (match n with Some n => n | None => 0 end) in
    ret (OutSim output_sim).

End Runner.

(** ** A concrete instance, used by the examples

    A toy disease model with no agents' dynamics: [run] records one
    series of eleven points whose total depends on the seed. *)

Module Demo.

Definition demo_suggest (key : string) (valid : list string) : option string :=
  List.find (fun k => Nat.leb (Nat.max (String.length key) (String.length k)
                              - Nat.min (String.length key) (String.length k)) 1
                      && String.prefix (String.substring 0 1 key) k) valid.

Definition demo_seed_rng (seed : pyval) : Z :=
  match seed with
  | VInt z => 7 * z
  | VFloat q => (Qnum q / Zpos (Qden q))
  | _ => 0
  end.

Definition demo_normal (r : Z) : Q * Z :=
  ((inject_Z (r mod 5 - 2) / 10)%Q, r + 1).

Definition demo_series (seed : pyval) : list Q :=
  match seed with
  | VInt z => inject_Z (20 * z - 60) :: repeat 1%Q 10
  | _ => repeat 0%Q 11
  end.

Definition demo_run (s : Sim unit) (verbose : pyval) (r : Z)
  : @RunOutcome unit Z :=
  let seed := match dict_get "seed" (pars s) with Some v => v | None => VNone end in
  mkRunOutcome
    (mkSim (pars s) (Some [(0, tt); (1, tt)])
           (Some [("new_infections",
                   RResult (mkResult (Some "new_infections") (demo_series seed)
                                     true false))])
           (Some ["new_infections"]))
    (r + 1) [] None.

Definition demo_pars : dict :=
  [("n", VInt 2); ("n_days", VInt 10); ("seed", VInt 5); ("verbose", VInt 0);
   ("beta", VFloat (3 # 100))].

Definition demo_sim : Sim unit := mkSim demo_pars None None None.

Definition demo_world : World unit Z := mkWorld [demo_sim] 0 [].

(** An engine with a verbosity, without a 'seed' and without any of the
    candidate noise parameters. *)
Definition demo_unseeded_sim : Sim unit :=
  mkSim [("n", VInt 2); ("verbose", VInt 0)] None None None.

Definition demo_unseeded_world : World unit Z :=
  mkWorld [demo_unseeded_sim] 0 [].

(** An engine without a 'seed' and without a 'verbose' parameter. *)
Definition demo_bare_sim : Sim unit :=
  mkSim [("n", VInt 2); ("beta", VFloat (3 # 100))] None None None.

Definition demo_bare_world : World unit Z := mkWorld [demo_bare_sim] 0 [].

(** A population of three named agents and the list of their
    identifiers. *)
Definition demo_crowd : Sim string :=
  mkSim demo_pars (Some [(7, "ann"); (3, "bob"); (5, "cyd")]) None None.



(** An engine of eleven points with one full series and one short one. *)
Definition demo_report_results : list (string * resval) :=
  [("new_infections",
    RResult (mkResult (Some "new_infections") (demo_series (VInt 5)) true false));
   ("doubling_time", RArray [3; 4]%Q)].

Definition demo_report : Sim unit :=
  mkSim demo_pars None (Some demo_report_results) None.

End Demo.

(** ** Further operations of the module *)

Definition result_bind {A B} (r : result A) (f : A -> result B) : result B :=
  match r with
  | Ok a => f a
  | Raise e => Raise e
  end.

(** The position that an integer index denotes in a sequence of [n]
    elements: a negative index counts from the end. *)
Definition norm_index (n : nat) (i : Z) : option nat :=
  if (0 <=? i)%Z then
    if (i <? Z.of_nat n)%Z then Some (Z.to_nat i) else None
  else
    if (- Z.of_nat n <=? i)%Z then Some (Z.to_nat (i + Z.of_nat n)) else None.

(** [Result.__getitem__] at an integer position: the array's own. *)
Definition Result_getitem (r : Result) (i : Z) : result Q :=
  match norm_index (npts r) i with
  | Some j =>
      match values r !! j with
      | Some x => Ok x
      | None => Raise IndexError
      end
  | None => Raise IndexError
  end.

(** [Result.__setitem__] at an integer position. *)
Definition Result_setitem (r : Result) (i : Z) (x : Q) : result Result :=
  match norm_index (npts r) i with
  | Some j =>
      Ok (mkResult (name r) (<[j := x]> (values r)) (scale r) (ispercentage r))
  | None => Raise IndexError
  end.

(** A bound of a slice [start:stop] over [n] elements; [default] is the
    bound that an omitted one stands for. *)
Definition slice_bound (n : nat) (default : nat) (b : option Z) : nat :=
  match b with
  | None => default
  | Some z =>
      if (z <? 0)%Z then Z.to_nat (Z.max (z + Z.of_nat n) 0)
      else Nat.min (Z.to_nat z) n
  end.

(** [r[start:stop] = x] for a number [x], as in the example [r1[:5] = 20]
    of the class's docstring. *)
Definition Result_setslice (r : Result) (start stop : option Z) (x : Q)
  : Result :=
  let n := npts r in
  let lo := slice_bound n 0 start in
  let hi := slice_bound n n stop in
  mkResult (name r)
           (take lo (values r) ++ repeat x (hi - lo)
                 ++ drop (Nat.max lo hi) (values r))
           (scale r) (ispercentage r).

(** [int(x)] of a number: a float is truncated towards zero. *)
Definition py_int (v : pyval) : result Z :=
  match v with
  | VInt z => Ok z
  | VFloat q => Ok (Z.quot (Qnum q) (Zpos (Qden q)))
  | _ => Raise (TypeError_operand "int" v VNone)
  end.

(** The least integer not below [q]. *)
Definition Qceiling (q : Q) : Z := (- ((- Qnum q) / Zpos (Qden q)))%Z.

(** [np.arange(x)] of a number: integers for an integer, floats for a
    float; empty when [x] is not positive. *)
Definition np_arange_val (v : pyval) : result (list pyval) :=
  match v with
  | VInt z => Ok (map (fun i => VInt (Z.of_nat i)) (seq 0 (Z.to_nat z)))
  | VFloat q =>
      Ok (map (fun i => VFloat (inject_Z (Z.of_nat i)))
              (seq 0 (Z.to_nat (Qceiling q))))
  | _ => Raise TypeError_arange
  end.

(** [Sim.npts]: [int(self['n_days'] + 1)].  For a float 'n_days' the sum
    is taken on the exact rational, without the rounding of the source
    to a double; the statements that compute [npts] or [tvec] take an
    integer 'n_days', where nothing is rounded. *)
Definition Sim_npts (pars : dict) : result Z :=
  result_bind (ParsObj_getitem pars (VStr "n_days")) (fun n_days =>
  result_bind (py_add n_days (VInt 1)) py_int).

(** [Sim.tvec]: [np.arange(self['n_days'] + 1)] *)
Definition Sim_tvec (pars : dict) : result (list pyval) :=
  result_bind (ParsObj_getitem pars (VStr "n_days")) (fun n_days =>
  result_bind (py_add n_days (VInt 1)) np_arange_val).

(** What [_make_resdict] stores under a key. *)
Inductive resdict_val : Type :=
| DKeys (ks : list string)
| DArray (a : list Q).

(** The loop of [_make_resdict] over [self.results.items()]. *)
Fixpoint resdict_loop (pars : dict) (for_json : bool)
         (items : list (string * resval))
         (resdict : list (string * resdict_val))
  : result (list (string * resdict_val)) :=
  match items with
  | [] => Ok resdict
  | (key, res) :: rest =>
      let res := match res with RResult r => values r | RArray a => a end in
      result_bind
        (if for_json then Ok true
         else result_bind (Sim_npts pars)
                          (fun n => Ok (Z.eqb (Z.of_nat (length res)) n)))
        (fun keep =>
           resdict_loop pars for_json rest
                        (if (keep : bool) then dict_set key (DArray res) resdict
                         else resdict))
  end.

Section Accessors.

Context {Person : Type}.

(** [Sim.n]: [len(self.people)] *)
Definition Sim_n (s : Sim Person) : result nat :=
  match people s with
  | Some p => Ok (length p)
  | None => Raise (AttributeError "people")
  end.

Fixpoint people_get (k : Z) (d : list (Z * Person)) : option Person :=
  match d with
  | [] => None
  | (k', v) :: d' => if Z.eqb k k' then Some v else people_get k d'
  end.

(** [Sim.get_person]: [self.people[self.uids[ind]]]; [uids] is the
    attribute of that name, which a concrete model creates. *)
Definition get_person (s : Sim Person) (uids : option (list Z)) (ind : Z)
  : result Person :=
  match people s with
  | None => Raise (AttributeError "people")
  | Some p =>
      match uids with
      | None => Raise (AttributeError "uids")
      | Some us =>
          match norm_index (length us) ind with
          | None => Raise IndexError
          | Some j =>
              match us !! j with
              | None => Raise IndexError
              | Some uid =>
                  match people_get uid p with
                  | Some person => Ok person
                  | None => Raise (KeyError_lookup (VInt uid))
                  end
              end
          end
      end
  end.

(** [Sim._make_resdict]; [reskeys] is the attribute of that name. *)
Definition make_resdict (s : Sim Person) (reskeys : option (list string))
           (for_json : bool) : result (list (string * resdict_val)) :=
  result_bind
    (if for_json then
       match reskeys with
       | Some ks => Ok [("timeseries_keys", DKeys ks)]
       | None => Raise (AttributeError "reskeys")
       end
     else Ok [])
    (fun resdict =>
       match results s with
       | Some items => resdict_loop (pars s) for_json items resdict
       | None => Raise (AttributeError "results")
       end).

End Accessors.

(** The numbers of an entry of [sim.results]. *)
Definition series_values (res : resval) : list Q :=
  match res with
  | RResult r => values r
  | RArray a => a
  end.

(** [s'] has the parameter names of [s], in the same order, and its
    population and results. *)
Definition same_shape {Person : Type} (s s' : Sim Person) : Prop :=
  keys (pars s') = keys (pars s)
  /\ people s' = people s
  /\ results s' = results s
  /\ results_keys s' = results_keys s.

(** The object at [l] has the shape of [s]. *)
Definition shaped {Person rng_state : Type} (l : loc) (s : Sim Person)
           (w : World Person rng_state) : Prop :=
  exists s', heap w !! l = Some s' /\ same_shape s s'.

(** A computation keeps the shape of the object at [l]. *)
Definition keeps_shape {Person rng_state A : Type} (l : loc) (s : Sim Person)
           (m : M Person rng_state A) : Prop :=
  forall w, shaped l s w -> shaped l s (snd (m w)).

(** The total of a series. *)
Definition total (a : list Q) : Q := fold_right Qplus 0%Q a.

(** ** Vocabulary of the statements *)

(** The wording of the specification for [get] on an absent key: the
    error is the one with the near-match suggestion or the list of keys. *)
Definition get_reports_suggestion
           (suggest : string -> list string -> option string)
           (pars : dict) (key : string) : Prop :=
  dict_get key pars = None ->
  ParsObj_getitem pars (VStr key) = Raise (setitem_error suggest pars key).

(** The wording of the specification for the noise factor: a factor is
    computed and it is strictly positive. *)
Definition strictly_positive_factor (noiseval : float) : Prop :=
  exists f, noisefactor_double noiseval = Some f /\ (0 <? f)%float = true.

(** A binary64 number of sign [s] that is not zero and not NaN: a finite
    number other than zero, or the infinity of that sign. *)
Definition signed (s : bool) (x : spec_float) : Prop :=
  x = S754_infinity s \/ exists m e, x = S754_finite s m e.

(** A computation keeps the objects [h0] that exist when it starts, and
    its result satisfies [Q]. *)
Definition keeps {Person rng_state A : Type} (h0 : list (Sim Person))
           (m : M Person rng_state A) (Q : A -> Prop) : Prop :=
  forall w, take (length h0) (heap w) = h0 ->
            take (length h0) (heap (snd (m w))) = h0
            /\ forall a, fst (m w) = Ok a -> Q a.

(** A computation leaves the random stream where it was. *)
Definition same_rng {Person rng_state A : Type}
           (m : M Person rng_state A) : Prop :=
  forall w, rng (snd (m w)) = rng w.

(** The verbosity that [single_run] settles on: the argument, or the
    stored parameter when the argument is omitted. *)
Definition verbosity_in_force (verbose : pyval) (pars : dict) : option pyval :=
  match verbose with
  | VNone => dict_get "verbose" pars
  | _ => Some verbose
  end.

(** Every result that a computation returns satisfies [P]. *)
Definition returns {Person rng_state A : Type}
           (m : M Person rng_state A) (P : A -> Prop) : Prop :=
  forall w a, fst (m w) = Ok a -> P a.

(** The value of parameter [key] of the engine at [l]. *)
Definition param {Person rng_state : Type} (w : World Person rng_state)
           (l : loc) (key : string) : option pyval :=
  match heap w !! l with
  | Some s => dict_get key (pars s)
  | None => None
  end.

(** A computation leaves parameter [key] of the engine at [l] with the
    value [x]. *)
Definition keeps_param {Person rng_state A : Type} (l : loc) (key : string)
           (x : pyval) (m : M Person rng_state A) : Prop :=
  forall w, param w l key = Some x -> param (snd (m w)) l key = Some x.

(** The wording of the specification for a call without a noise
    parameter on a template that holds none or several of the
    candidates: the call fails with AmbiguousNoiseParameter. *)
Definition ambiguity_reported {Person rng_state : Type}
           (suggest : string -> list string -> option string)
           (seed_rng : pyval -> rng_state)
           (normal : rng_state -> Q * rng_state)
           (run : Sim Person -> pyval -> rng_state
                  -> @RunOutcome Person rng_state)
           (w : World Person rng_state) (sim : loc)
           (ind noise verbose : pyval) (kwargs : dict) : Prop :=
  forall s, heap w !! sim = Some s ->
            length (found_guesses (pars s)) <> 1%nat ->
            exists e w',
              single_run suggest seed_rng normal run (RSim sim) ind noise
                         VNone verbose kwargs w = (Raise e, w')
              /\ AmbiguousNoiseParameter e.

(** The total of the series [key] of the engine at [l], when that series
    is stored as a [Result]. *)
Definition series_total {Person rng_state : Type} (w : World Person rng_state)
           (l : loc) (key : string) : option Q :=
  match heap w !! l with
  | Some s =>
      match results s with
      | Some res =>
          match dict_get key res with
          | Some (RResult r) => Some (fold_left Qplus (values r) 0%Q)
          | _ => None
          end
      | None => None
      end
  | None => None
  end.


(** * Properties *)

Local Open Scope nat_scope.

(** ** Dictionaries *)

Section DictFacts.

Context {V : Type}.
Implicit Types (d m : list (string * V)) (k : string) (v : V).

Lemma dict_mem_true k d : dict_mem k d = true <-> exists v, dict_get k d = Some v.
Proof.
  unfold dict_mem. destruct (dict_get k d) as [v|]; split.
  - intros _. now exists v.
  - reflexivity.
  - discriminate.
  - intros [v Hv]. discriminate.
Qed.

Lemma dict_mem_false k d : dict_mem k d = false <-> dict_get k d = None.
Proof.
  unfold dict_mem. destruct (dict_get k d); split; congruence.
Qed.

Lemma dict_mem_key_in k d : dict_mem k d = key_in k (keys d).
Proof.
  unfold dict_mem, key_in, keys.
  induction d as [|[k' v'] d IH]; simpl; [reflexivity|].
  destruct (String.eqb k k'); simpl; [reflexivity | exact IH].
Qed.

Lemma key_in_In k (ks : list string) : key_in k ks = true <-> In k ks.
Proof.
  unfold key_in. rewrite existsb_exists. split.
  - intros [x [Hin Heq]]. apply String.eqb_eq in Heq. now subst.
  - intros Hin. exists k. split; [exact Hin | apply String.eqb_refl].
Qed.

Lemma dict_get_set_eq k v d : dict_get k (dict_set k v d) = Some v.
Proof.
  induction d as [|[k' v'] d IH]; simpl.
  - now rewrite String.eqb_refl.
  - destruct (String.eqb k k') eqn:E; simpl.
    + now rewrite String.eqb_refl.
    + now rewrite E.
Qed.

Lemma dict_get_set_ne k k' v d :
  k <> k' -> dict_get k' (dict_set k v d) = dict_get k' d.
Proof.
  intros Hne. induction d as [|[k0 v0] d IH]; simpl.
  - destruct (String.eqb k' k) eqn:E; [|reflexivity].
    apply String.eqb_eq in E. congruence.
  - destruct (String.eqb k k0) eqn:E; simpl.
    + apply String.eqb_eq in E. subst k0.
      destruct (String.eqb k' k) eqn:E'; [|reflexivity].
      apply String.eqb_eq in E'. congruence.
    + now rewrite IH.
Qed.

Lemma keys_set_present k v d :
  dict_mem k d = true -> keys (dict_set k v d) = keys d.
Proof.
  unfold dict_mem, keys. induction d as [|[k' v'] d IH]; simpl.
  - discriminate.
  - destruct (String.eqb k k') eqn:E; simpl.
    + intros _. apply String.eqb_eq in E. now subst.
    + intros H. now rewrite IH.
Qed.

Lemma dict_mem_set k k' v d :
  dict_mem k' (dict_set k v d) = String.eqb k' k || dict_mem k' d.
Proof.
  unfold dict_mem. destruct (String.eqb k' k) eqn:E; simpl.
  - apply String.eqb_eq in E. subst. now rewrite dict_get_set_eq.
  - rewrite dict_get_set_ne; [reflexivity|].
    intros ->. now rewrite String.eqb_refl in E.
Qed.

Lemma dict_get_In k v d : dict_get k d = Some v -> In (k, v) d.
Proof.
  induction d as [|[k' v'] d IH]; simpl; [discriminate|].
  destruct (String.eqb k k') eqn:E.
  - intros [= ->]. apply String.eqb_eq in E. subst. now left.
  - intros H. right. now apply IH.
Qed.

Lemma dict_get_None_keys k d : dict_get k d = None <-> ~ In k (keys d).
Proof.
  rewrite <- dict_mem_false, dict_mem_key_in, <- key_in_In.
  destruct (key_in k (keys d)); split; congruence.
Qed.


(** [d.update(m)] binds every key of [m] to its value in [m] and leaves
    the other keys alone. *)
Lemma dict_update_get_other k d m :
  ~ In k (keys m) -> dict_get k (dict_update d m) = dict_get k d.
Proof.
  unfold dict_update, keys. revert d.
  induction m as [|[k' v'] m IH]; simpl; intros d Hnotin; [reflexivity|].
  rewrite IH by tauto.
  apply dict_get_set_ne. intros ->. tauto.
Qed.

Lemma dict_update_get_in k v d m :
  NoDup (keys m) -> In (k, v) m -> dict_get k (dict_update d m) = Some v.
Proof.
  unfold dict_update, keys. revert d.
  induction m as [|[k' v'] m IH]; simpl; intros d Hnd Hin; [tauto|].
  apply NoDup_cons in Hnd as [Hnotin Hnd].
  destruct Hin as [Heq | Hin].
  - injection Heq as -> ->.
    change (dict_get k (dict_update (dict_set k v d) m) = Some v).
    rewrite dict_update_get_other; [apply dict_get_set_eq|].
    intros Hin. apply Hnotin. now apply list_elem_of_In.
  - now apply IH.
Qed.

End DictFacts.

(** ** The noise factor on binary64 numbers

    The binary64 operations are the primitive floats; [Prim2SF] maps a
    float to its sign, mantissa and exponent, and [FloatAxioms] states
    that each primitive operation is the correctly rounded operation
    ([SFadd], [SFsub], [SFdiv], ...) of the IEEE 754 specification.  The
    lemmas follow the rounding of that specification to show that
    [1 + v], [1 - v] and [1 / (1 - v)] never round to zero and that
    [1 - v] does not overflow for a finite [v]. *)

Section Binary64.

Local Open Scope Z_scope.

(** *** Digits, shifts and rounding of the format *)

Lemma Zdigits2_log2 (p : positive) :
  Zpos (digits2_pos p) = Z.log2 (Zpos p) + 1.
Proof.
  induction p as [p IH|p IH|]; simpl digits2_pos.
  - rewrite Pos2Z.inj_succ, IH.
    change (Z.log2 (Zpos p~1)) with (Zpos (Pos.size p)).
    destruct p; simpl in *; lia.
  - rewrite Pos2Z.inj_succ, IH.
    change (Z.log2 (Zpos p~0)) with (Zpos (Pos.size p)).
    destruct p; simpl in *; lia.
  - reflexivity.
Qed.

Lemma Zdigits2_bounds (m : Z) :
  0 < m -> 2 ^ (Zdigits2 m - 1) <= m < 2 ^ Zdigits2 m.
Proof.
  intros Hm. destruct m as [|p|p]; try lia.
  unfold Zdigits2. rewrite Zdigits2_log2.
  replace (Z.log2 (Zpos p) + 1 - 1) with (Z.log2 (Zpos p)) by lia.
  pose proof (Z.log2_spec (Zpos p) Hm). unfold Z.succ in *. lia.
Qed.

Lemma Zdigits2_pos (m : Z) : 0 < m -> 0 < Zdigits2 m.
Proof. intros Hm. destruct m; simpl; lia. Qed.

Lemma Zdigits2_le (m k : Z) : 0 < m -> m < 2 ^ k -> Zdigits2 m <= k.
Proof.
  intros Hm Hk.
  destruct (Z_le_gt_dec (Zdigits2 m) k) as [|Hgt]; [assumption|].
  pose proof (Zdigits2_bounds m Hm) as [Hlo _].
  assert (0 <= k).
  { destruct (Z_le_gt_dec 0 k); [assumption|].
    rewrite Z.pow_neg_r in Hk by lia. lia. }
  assert (2 ^ k <= 2 ^ (Zdigits2 m - 1)) by (apply Z.pow_le_mono_r; lia).
  lia.
Qed.

Lemma shr_1_m (mrs : shr_record) :
  0 <= shr_m mrs -> shr_m (shr_1 mrs) = shr_m mrs / 2.
Proof.
  destruct mrs as [m r s]. simpl. intros Hm.
  rewrite <- Z.div2_div.
  destruct m as [|[p|p|]|p]; try reflexivity; lia.
Qed.

Lemma pow2_xO (n : positive) : 2 ^ Zpos n~0 = 2 ^ Zpos n * 2 ^ Zpos n.
Proof. rewrite <- Z.pow_add_r by lia. f_equal. lia. Qed.

Lemma pow2_xI (n : positive) : 2 ^ Zpos n~1 = 2 * (2 ^ Zpos n * 2 ^ Zpos n).
Proof.
  rewrite <- Z.pow_add_r by lia. rewrite <- Z.pow_succ_r by lia.
  f_equal. lia.
Qed.

Lemma iter_pos_shr_m (n : positive) :
  forall mrs, 0 <= shr_m mrs ->
              0 <= shr_m (SpecFloat.iter_pos shr_1 n mrs)
              /\ shr_m (SpecFloat.iter_pos shr_1 n mrs) = shr_m mrs / 2 ^ Zpos n.
Proof.
  assert (Hp : forall k, 0 < 2 ^ Zpos k) by (intros; apply Z.pow_pos_nonneg; lia).
  induction n as [n IH|n IH|]; intros mrs Hm; simpl SpecFloat.iter_pos.
  - assert (H1 : 0 <= shr_m (shr_1 mrs))
      by (rewrite shr_1_m by assumption; apply Z.div_pos; lia).
    destruct (IH _ H1) as [H2 E2]. destruct (IH _ H2) as [H3 E3].
    split; [assumption|].
    rewrite E3, E2, shr_1_m by assumption.
    rewrite !Z.div_div by (pose proof (Hp n); lia).
    now rewrite pow2_xI.
  - destruct (IH _ Hm) as [H2 E2]. destruct (IH _ H2) as [H3 E3].
    split; [assumption|].
    rewrite E3, E2. rewrite !Z.div_div by (pose proof (Hp n); lia).
    now rewrite pow2_xO.
  - rewrite shr_1_m by assumption. split; [apply Z.div_pos; lia|reflexivity].
Qed.

Ltac fexp_lia := unfold fexp, SpecFloat.emin, prec, emax in *; lia.

Lemma round_nearest_even_bounds (m : Z) (l : location) :
  m <= round_nearest_even m l <= m + 1.
Proof.
  destruct l as [|[| |]]; simpl; try lia.
  destruct (Z.even m); lia.
Qed.

(** What [shr_fexp] leaves of a positive mantissa that is not below the
    least exponent. *)
Lemma shr_fexp_pos (m e : Z) (l : location) :
  0 < m -> emin < Zdigits2 m + e ->
  0 < shr_m (fst (shr_fexp prec emax m e l))
  /\ emin <= snd (shr_fexp prec emax m e l).
Proof.
  intros Hm He. unfold shr_fexp, shr.
  pose proof (Zdigits2_bounds m Hm) as [Hlo Hhi].
  pose proof (Zdigits2_pos m Hm) as Hd.
  assert (Hrec : shr_m (shr_record_of_loc m l) = m)
    by (now destruct l as [|[| |]]).
  destruct (fexp prec emax (Zdigits2 m + e) - e) as [|n|n] eqn:En.
  - simpl. rewrite Hrec. split; [lia|fexp_lia].
  - simpl.
    rewrite (proj2 (iter_pos_shr_m n _ ltac:(rewrite Hrec; lia))).
    rewrite Hrec. split.
    + apply Z.div_str_pos. split; [apply Z.pow_pos_nonneg; lia|].
      apply Z.le_trans with (2 ^ (Zdigits2 m - 1)); [|assumption].
      apply Z.pow_le_mono_r; [lia|]. fexp_lia.
    + fexp_lia.
  - simpl. rewrite Hrec. split; [lia|fexp_lia].
Qed.

Lemma binary_round_aux_signed (sx : bool) (mx ex : Z) (lx : location) :
  0 < mx -> emin < Zdigits2 mx + ex ->
  signed sx (binary_round_aux prec emax sx mx ex lx).
Proof.
  intros Hm He. unfold binary_round_aux.
  pose proof (shr_fexp_pos mx ex lx Hm He) as [H1 H1'].
  destruct (shr_fexp prec emax mx ex lx) as [mrs' e'] eqn:E1. simpl in H1, H1'.
  set (m1 := round_nearest_even (shr_m mrs') (loc_of_shr_record mrs')).
  pose proof (round_nearest_even_bounds (shr_m mrs') (loc_of_shr_record mrs')) as Hr.
  fold m1 in Hr.
  assert (Hm1 : 0 < m1) by lia.
  pose proof (Zdigits2_pos m1 Hm1).
  pose proof (shr_fexp_pos m1 e' loc_Exact Hm1 ltac:(lia)) as [H2 _].
  destruct (shr_fexp prec emax m1 e' loc_Exact) as [mrs'' e''] eqn:E2.
  simpl in H2.
  destruct (shr_m mrs'') as [|m|m]; try lia.
  destruct (e'' <=? emax - prec); [right; eauto | left; reflexivity].
Qed.

Lemma binary_round_signed (sx : bool) (m : positive) (e : Z) :
  emin <= e -> signed sx (binary_round prec emax sx m e).
Proof.
  intros He. unfold binary_round, shl_align.
  destruct (fexp prec emax (Zpos (digits2_pos m) + e) - e) as [|d|d] eqn:Ed;
    apply binary_round_aux_signed; try lia.
  - change (Zdigits2 (Zpos m)) with (Zpos (digits2_pos m)). lia.
  - change (Zdigits2 (Zpos m)) with (Zpos (digits2_pos m)). lia.
  - pose proof (Zdigits2_pos (Zpos (Pos.iter xO m d)) ltac:(lia)). fexp_lia.
Qed.

Lemma bounded_emin (m : positive) (e : Z) :
  bounded prec emax m e = true ->
  emin <= e <= 971 /\ Zpos (digits2_pos m) <= 53
  /\ e = Z.max (Zpos (digits2_pos m) + e - 53) (-1074).
Proof.
  unfold bounded, canonical_mantissa. intros H.
  apply andb_prop in H as [H1 H2].
  apply Z.eqb_eq in H1. apply Z.leb_le in H2. fexp_lia.
Qed.

(** The sign of the comparisons with zero *)
Lemma ltb_zero_signed (x : float) :
  signed false (Prim2SF x) -> (0 <? x)%float = true.
Proof.
  intros H. rewrite FloatAxioms.ltb_spec. change (Prim2SF 0) with (S754_zero false).
  now destruct H as [->|(m & e & ->)].
Qed.

Lemma ltb_zero_cases (x : float) :
  (0 <? x)%float = true -> signed false (Prim2SF x).
Proof.
  rewrite FloatAxioms.ltb_spec. change (Prim2SF 0) with (S754_zero false).
  destruct (Prim2SF x) as [s|[|]| |[|] m e]; try discriminate.
  - now left.
  - right. eauto.
Qed.

Lemma is_finite_cases (x : float) :
  is_finite x = true ->
  (exists s, Prim2SF x = S754_zero s)
  \/ exists s m e, Prim2SF x = S754_finite s m e.
Proof.
  unfold is_finite, is_nan, is_infinity.
  rewrite !FloatAxioms.eqb_spec, FloatAxioms.abs_spec.
  change (Prim2SF infinity) with (S754_infinity false).
  destruct (Prim2SF x) as [s|[|]| |s m e]; try discriminate; eauto.
Qed.

Lemma SFadd_signed (m1 m2 : positive) (e1 e2 : Z) :
  emin <= e1 -> emin <= e2 ->
  signed false (SFadd prec emax (S754_finite false m1 e1)
                      (S754_finite false m2 e2)).
Proof.
  intros H1 H2. unfold SFadd, cond_Zopp, binary_normalize.
  cbn [Z.add]. apply binary_round_signed. lia.
Qed.

Lemma SFsub_signed (m1 m2 : positive) (e1 e2 : Z) :
  emin <= e1 -> emin <= e2 ->
  signed false (SFsub prec emax (S754_finite false m1 e1)
                      (S754_finite true m2 e2)).
Proof.
  intros H1 H2. unfold SFsub, cond_Zopp, binary_normalize.
  cbn [Z.sub Z.opp Z.add]. apply binary_round_signed. lia.
Qed.

Lemma div_eucl_div (a b : Z) : fst (Z.div_eucl a b) = a / b.
Proof. unfold Z.div. now destruct (Z.div_eucl a b). Qed.

Lemma SFdiv_one_signed (m : positive) (e : Z) :
  bounded prec emax m e = true ->
  signed false (SFdiv prec emax (Prim2SF 1) (S754_finite false m e)).
Proof.
  intros Hb. apply bounded_emin in Hb as (He & Hd & _).
  change (Prim2SF 1) with (S754_finite false 4503599627370496 (-52)).
  unfold SFdiv, SFdiv_core_binary.
  change (Zdigits2 (Zpos 4503599627370496)) with 53.
  change (Zdigits2 (Zpos m)) with (Zpos (digits2_pos m)).
  set (d := Zpos (digits2_pos m)) in *.
  assert (0 < d) by (unfold d; lia).
  set (e' := Z.min (fexp prec emax (53 + -52 - (d + e))) (-52 - e)).
  assert (He' : emin <= e') by (unfold e'; fexp_lia).
  assert (Hs : 0 < -52 - e - e' /\ d <= 52 + (-52 - e - e'))
    by (unfold e'; fexp_lia).
  destruct (-52 - e - e') as [|s|s] eqn:Es; try lia.
  rewrite Z.shiftl_mul_pow2 by lia.
  change (Zpos 4503599627370496) with (2 ^ 52).
  rewrite <- Z.pow_add_r by lia.
  remember (52 + Zpos s) as k eqn:Ek.
  pose proof (div_eucl_div (2 ^ k) (Zpos m)) as Hq.
  destruct (Z.div_eucl (2 ^ k) (Zpos m)) as [q r]. cbn [fst] in Hq.
  assert (0 < q).
  { subst q. apply Z.div_str_pos. split; [lia|].
    pose proof (Zdigits2_bounds (Zpos m) ltac:(lia)) as [_ Hhi].
    change (Zdigits2 (Zpos m)) with d in Hhi.
    apply Z.le_trans with (2 ^ d); [lia|].
    apply Z.pow_le_mono_r; lia. }
  pose proof (Zdigits2_pos q ltac:(lia)).
  apply binary_round_aux_signed; lia.
Qed.

(** *** No overflow in [1 - v] *)

Lemma shr_1_r (mrs : shr_record) :
  0 <= shr_m mrs -> shr_r (shr_1 mrs) = Z.odd (shr_m mrs).
Proof.
  destruct mrs as [m r s]. simpl. intros Hm.
  destruct m as [|[p|p|]|p]; try reflexivity; lia.
Qed.

Lemma iter_pos_shr_r (n : positive) :
  forall mrs, 0 <= shr_m mrs ->
              shr_r (SpecFloat.iter_pos shr_1 n mrs)
              = Z.odd (shr_m mrs / 2 ^ (Zpos n - 1)).
Proof.
  assert (Hp : forall k, 0 <= k -> 0 < 2 ^ k)
    by (intros; apply Z.pow_pos_nonneg; lia).
  induction n as [n IH|n IH|]; intros mrs Hm; simpl SpecFloat.iter_pos.
  - assert (H1 : 0 <= shr_m (shr_1 mrs))
      by (rewrite shr_1_m by assumption; apply Z.div_pos; lia).
    destruct (iter_pos_shr_m n _ H1) as [H2 E2].
    rewrite IH, E2, shr_1_m by assumption.
    pose proof (Hp (Zpos n) ltac:(lia)). pose proof (Hp (Zpos n - 1) ltac:(lia)).
    rewrite !Z.div_div by lia.
    do 2 f_equal. rewrite <- Z.pow_add_r, <- Z.pow_succ_r by lia.
    f_equal. lia.
  - destruct (iter_pos_shr_m n _ Hm) as [H2 E2].
    rewrite IH, E2 by assumption.
    pose proof (Hp (Zpos n) ltac:(lia)). pose proof (Hp (Zpos n - 1) ltac:(lia)).
    rewrite !Z.div_div by lia.
    do 2 f_equal. rewrite <- Z.pow_add_r by lia. f_equal. lia.
  - rewrite shr_1_r by assumption. now rewrite Z.div_1_r.
Qed.

Lemma shr_fexp_exponent (m e : Z) (l : location) :
  snd (shr_fexp prec emax m e l)
  = Z.max e (fexp prec emax (Zdigits2 m + e)).
Proof.
  unfold shr_fexp, shr.
  destruct (fexp prec emax (Zdigits2 m + e) - e) eqn:E; simpl; lia.
Qed.

Lemma shr_fexp_mantissa (m e : Z) (l : location) :
  0 <= m ->
  shr_m (fst (shr_fexp prec emax m e l))
  = m / 2 ^ Z.max 0 (fexp prec emax (Zdigits2 m + e) - e).
Proof.
  intros Hm. unfold shr_fexp, shr.
  assert (Hrec : shr_m (shr_record_of_loc m l) = m)
    by (now destruct l as [|[| |]]).
  destruct (fexp prec emax (Zdigits2 m + e) - e) as [|n|n] eqn:E; simpl fst.
  - now rewrite Hrec, Z.div_1_r.
  - rewrite (proj2 (iter_pos_shr_m n _ ltac:(rewrite Hrec; lia))).
    now rewrite Hrec.
  - now rewrite Hrec, Z.div_1_r.
Qed.

(** The rounding of an exact number never goes up when the bit below the
    last kept one is clear. *)
Lemma shr_fexp_round_down (m e : Z) :
  0 <= m ->
  (0 < fexp prec emax (Zdigits2 m + e) - e ->
   Z.odd (m / 2 ^ (fexp prec emax (Zdigits2 m + e) - e - 1)) = false) ->
  let mrs := fst (shr_fexp prec emax m e loc_Exact) in
  round_nearest_even (shr_m mrs) (loc_of_shr_record mrs) = shr_m mrs.
Proof.
  intros Hm Hbit. unfold shr_fexp, shr.
  destruct (fexp prec emax (Zdigits2 m + e) - e) as [|n|n] eqn:E;
    cbn [fst shr_record_of_loc]; try reflexivity.
  pose proof (iter_pos_shr_r n (Build_shr_record m false false) Hm) as Hr.
  cbn [shr_m] in Hr. rewrite Hbit in Hr by lia.
  destruct (SpecFloat.iter_pos shr_1 n _) as [m' r' s']. cbn in Hr. subst r'.
  now destruct s'.
Qed.

Lemma shl_align_value (m : positive) (e e' : Z) :
  e' <= e -> Zpos (fst (shl_align m e e')) = Zpos m * 2 ^ (e - e').
Proof.
  intros He. unfold shl_align.
  destruct (e' - e) as [|d|d] eqn:Ed; cbn [fst]; try lia.
  - replace (e - e') with 0 by lia. lia.
  - replace (e - e') with (Zpos d) by lia.
    rewrite <- Z.shiftl_mul_pow2 by lia.
    unfold Z.shiftl. clear.
    induction d as [|d IH] using Pos.peano_ind.
    + reflexivity.
    + rewrite !Pos.iter_succ. rewrite <- IH. reflexivity.
Qed.

Lemma Zdigits2_ge (m k : Z) : 0 < m -> 2 ^ (k - 1) <= m -> k <= Zdigits2 m.
Proof.
  intros Hm Hk.
  pose proof (Zdigits2_bounds m Hm) as [_ Hhi].
  pose proof (Zdigits2_pos m Hm).
  destruct (Z_le_gt_dec k (Zdigits2 m)) as [|Hgt]; [assumption|].
  assert (2 ^ Zdigits2 m <= 2 ^ (k - 1)) by (apply Z.pow_le_mono_r; lia).
  lia.
Qed.

(** A number of at least [prec] digits whose rounding stays below
    [2 ^ emax] rounds to a finite number. *)
Lemma binary_round_aux_finite (sx : bool) (mx ex : Z) :
  0 < mx -> emin <= ex -> 53 <= Zdigits2 mx ->
  Zdigits2 mx + ex <= 1023
  \/ (Zdigits2 mx + ex = 1024
      /\ (53 < Zdigits2 mx -> Z.odd (mx / 2 ^ (Zdigits2 mx - 54)) = false)) ->
  exists m e, binary_round_aux prec emax sx mx ex loc_Exact
              = S754_finite sx m e.
Proof.
  intros Hm He Hd Hcase. unfold binary_round_aux.
  pose proof (Zdigits2_bounds mx Hm) as [Hlo Hhi].
  assert (Hn : fexp prec emax (Zdigits2 mx + ex) - ex = Zdigits2 mx - 53)
    by fexp_lia.
  pose proof (shr_fexp_pos mx ex loc_Exact Hm ltac:(lia)) as [P1 _].
  pose proof (shr_fexp_exponent mx ex loc_Exact) as E1.
  pose proof (shr_fexp_mantissa mx ex loc_Exact ltac:(lia)) as M1.
  pose proof (shr_fexp_round_down mx ex ltac:(lia)) as R1.
  rewrite Hn in M1, R1. cbv zeta in R1.
  destruct (shr_fexp prec emax mx ex loc_Exact) as [mrs' e'].
  cbn [fst snd] in P1, E1, M1, R1.
  set (m1 := round_nearest_even (shr_m mrs') (loc_of_shr_record mrs')) in *.
  pose proof (round_nearest_even_bounds (shr_m mrs') (loc_of_shr_record mrs'))
    as Hr.
  fold m1 in Hr.
  assert (He' : e' = Zdigits2 mx + ex - 53) by fexp_lia.
  assert (Hm' : shr_m mrs' < 2 ^ 53).
  { rewrite M1. replace (Z.max 0 (Zdigits2 mx - 53)) with (Zdigits2 mx - 53) by lia.
    apply Z.div_lt_upper_bound; [apply Z.pow_pos_nonneg; lia|].
    rewrite <- Z.pow_add_r by lia.
    now replace (Zdigits2 mx - 53 + 53) with (Zdigits2 mx) by lia. }
  assert (Hm1 : 0 < m1) by lia.
  assert (Hd1 : Zdigits2 m1 + e' <= 1024).
  { destruct Hcase as [Hc|[Hc Hbit]].
    - assert (Zdigits2 m1 <= 54); [|lia].
      apply Zdigits2_le; [assumption|].
      change (2 ^ 54) with (2 * 2 ^ 53). lia.
    - assert (Zdigits2 m1 <= 53); [|lia].
      apply Zdigits2_le; [assumption|].
      rewrite R1; [assumption|].
      intros Hpos. replace (Zdigits2 mx - 53 - 1) with (Zdigits2 mx - 54) by lia.
      apply Hbit. lia. }
  pose proof (Zdigits2_pos m1 Hm1).
  pose proof (shr_fexp_pos m1 e' loc_Exact Hm1 ltac:(fexp_lia)) as [P2 _].
  pose proof (shr_fexp_exponent m1 e' loc_Exact) as E2.
  destruct (shr_fexp prec emax m1 e' loc_Exact) as [mrs'' e''].
  cbn [fst snd] in P2, E2.
  destruct (shr_m mrs'') as [|m|m]; try lia.
  assert (Hle : (e'' <=? emax - prec) = true) by (apply Z.leb_le; fexp_lia).
  rewrite Hle. eauto.
Qed.

Lemma pow2_pos (k : Z) : 0 <= k -> 0 < 2 ^ k.
Proof. intros. apply Z.pow_pos_nonneg; lia. Qed.

(** [1 + |v|] is finite for every finite [v]. *)
Lemma one_plus_finite (m : positive) (e : Z) :
  bounded prec emax m e = true ->
  let ez := Z.min (-52) e in
  exists m' e',
    binary_round prec emax false
                 (fst (shl_align 4503599627370496 (-52) ez)
                  + fst (shl_align m e ez)) ez
    = S754_finite false m' e'.
Proof.
  intros Hb ez. apply bounded_emin in Hb as (He & Hd & Hcan).
  set (p := (fst (shl_align 4503599627370496 (-52) ez)
             + fst (shl_align m e ez))%positive).
  assert (Hp : Zpos p = 2 ^ (- ez) + Zpos m * 2 ^ (e - ez)).
  { unfold p. rewrite Pos2Z.inj_add, !shl_align_value by (unfold ez; lia).
    change (Zpos 4503599627370496) with (2 ^ 52).
    rewrite <- Z.pow_add_r by (unfold ez; lia).
    do 2 f_equal. lia. }
  pose proof (Zdigits2_bounds (Zpos m) ltac:(lia)) as [Hmlo Hmhi].
  change (Zdigits2 (Zpos m)) with (Zpos (digits2_pos m)) in *.
  set (dm := Zpos (digits2_pos m)) in *.
  assert (Hm53 : Zpos m < 2 ^ 53).
  { apply Z.lt_le_trans with (2 ^ dm); [assumption|].
    apply Z.pow_le_mono_r; lia. }
  assert (Hez : ez <= -52 /\ ez <= e /\ emin <= ez) by (unfold ez; fexp_lia).
  pose proof (pow2_pos (- ez) ltac:(lia)) as Hpa.
  pose proof (pow2_pos (e - ez) ltac:(lia)) as Hpb.
  assert (Hdp : 53 <= Zdigits2 (Zpos p)).
  { apply Zdigits2_ge; [lia|].
    apply Z.le_trans with (2 ^ (- ez)); [apply Z.pow_le_mono_r; lia|].
    rewrite Hp. nia. }
  assert (Hshl : shl_align p ez (fexp prec emax (Zpos (digits2_pos p) + ez))
                 = (p, ez)).
  { unfold shl_align.
    change (Zpos (digits2_pos p)) with (Zdigits2 (Zpos p)).
    destruct (fexp prec emax (Zdigits2 (Zpos p) + ez) - ez) eqn:E;
      try reflexivity.
    fexp_lia. }
  unfold binary_round. rewrite Hshl.
  apply binary_round_aux_finite; try lia.
  destruct (Z_lt_le_dec e 971) as [Hlt|Hge].
  - (* the exponent of [v] is below the largest one *)
    left.
    assert (Zdigits2 (Zpos p) <= 1023 - ez); [|lia].
    apply Zdigits2_le; [lia|]. rewrite Hp.
    destruct (Z_lt_le_dec e 970) as [Hneg|Hnn].
    + assert (2 ^ (- ez) <= 2 ^ (1022 - ez))
        by (apply Z.pow_le_mono_r; lia).
      assert (Zpos m * 2 ^ (e - ez) < 2 ^ (1022 - ez)).
      { apply Z.lt_le_trans with (2 ^ 53 * 2 ^ (e - ez)); [nia|].
        rewrite <- Z.pow_add_r by lia. apply Z.pow_le_mono_r; lia. }
      replace (1023 - ez) with (Z.succ (1022 - ez)) by lia.
      rewrite Z.pow_succ_r by lia. lia.
    + assert (Eez : ez = -52) by (unfold ez; lia).
      rewrite Eez in *. change (- -52) with 52.
      assert (2 ^ 52 < 2 ^ (e - -52)) by (apply Z.pow_lt_mono_r; lia).
      assert (2 ^ 53 * 2 ^ (e - -52) <= 2 ^ (1023 - -52)).
      { rewrite <- Z.pow_add_r by lia. apply Z.pow_le_mono_r; lia. }
      nia.
  - (* the largest exponent: the sum keeps the mantissa of [v] *)
    assert (Ee : e = 971) by lia. subst e.
    assert (Eez : ez = -52) by (unfold ez; lia).
    rewrite Eez in *. change (971 - -52) with 1023 in *.
    change (- -52) with 52 in *.
    assert (Edm : dm = 53) by lia. rewrite Edm in *.
    change (53 - 1) with 52 in Hmlo.
    assert (H52 : 2 ^ 52 < 2 ^ 1022) by (apply Z.pow_lt_mono_r; lia).
    assert (H1023 : 2 ^ 1023 = 2 * 2 ^ 1022)
      by (change 1023 with (Z.succ 1022); now rewrite Z.pow_succ_r by lia).
    assert (H1075 : 2 ^ 1075 = 2 ^ 52 * 2 ^ 1023)
      by (now rewrite <- Z.pow_add_r by lia).
    assert (H1076 : 2 ^ 1076 = 2 ^ 53 * 2 ^ 1023)
      by (now rewrite <- Z.pow_add_r by lia).
    pose proof (pow2_pos 1022 ltac:(lia)) as K.
    assert (Edp : Zdigits2 (Zpos p) = 1076).
    { apply Z.le_antisymm.
      - apply Zdigits2_le; [lia|]. rewrite Hp, H1076. nia.
      - apply Zdigits2_ge; [lia|]. change (1076 - 1) with 1075.
        rewrite Hp, H1075. nia. }
    right. split; [lia|]. intros _. rewrite Edp.
    change (1076 - 54) with 1022.
    assert (Ediv : Zpos p / 2 ^ 1022 = 2 * Zpos m).
    { symmetry. apply Z.div_unique with (2 ^ 52); [lia|].
      rewrite Hp, H1023. ring. }
    rewrite Ediv. now rewrite Z.odd_mul.
Qed.

(** *** The factor of lines 325-329 *)

Lemma valid_emin (x : float) (s : bool) (m : positive) (e : Z) :
  Prim2SF x = S754_finite s m e -> bounded prec emax m e = true.
Proof.
  intros H. pose proof (Prim2SF_valid x) as Hv. now rewrite H in Hv.
Qed.

Lemma one_plus_signed (v : float) :
  (0 <? v)%float = true -> signed false (Prim2SF (1 + v)%float).
Proof.
  intros Hv. apply ltb_zero_cases in Hv. rewrite FloatAxioms.add_spec.
  change (Prim2SF 1) with (S754_finite false 4503599627370496 (-52)).
  destruct Hv as [->|(m & e & Hm)].
  - now left.
  - rewrite Hm. apply valid_emin, bounded_emin in Hm.
    apply SFadd_signed; [fexp_lia | lia].
Qed.

Lemma signed_not_zero (s : bool) (x : float) :
  signed s (Prim2SF x) -> (x =? 0)%float = false.
Proof.
  intros H. rewrite FloatAxioms.eqb_spec. change (Prim2SF 0) with (S754_zero false).
  destruct H as [->|(m & e & ->)]; now destruct s.
Qed.

Lemma one_minus_cases (v : float) :
  (0 <? v)%float = false ->
  Prim2SF (1 - v)%float = S754_nan /\ Prim2SF v = S754_nan
  \/ signed false (Prim2SF (1 - v)%float).
Proof.
  intros Hv. rewrite FloatAxioms.ltb_spec in Hv.
  change (Prim2SF 0) with (S754_zero false) in Hv. rewrite FloatAxioms.sub_spec.
  change (Prim2SF 1) with (S754_finite false 4503599627370496 (-52)).
  destruct (Prim2SF v) as [s|[|]| |[|] m e] eqn:E; try discriminate.
  - right. right. cbn. eauto.
  - right. now left.
  - now left.
  - right. apply valid_emin, bounded_emin in E.
    apply SFsub_signed; [fexp_lia | lia].
Qed.

Lemma one_minus_finite (v : float) :
  (0 <? v)%float = false -> is_finite v = true ->
  exists m e, Prim2SF (1 - v)%float = S754_finite false m e.
Proof.
  intros Hv Hf. rewrite FloatAxioms.ltb_spec in Hv.
  change (Prim2SF 0) with (S754_zero false) in Hv. rewrite FloatAxioms.sub_spec.
  change (Prim2SF 1) with (S754_finite false 4503599627370496 (-52)).
  destruct (is_finite_cases v Hf) as [(s & E)|(s & m & e & E)]; rewrite E in *.
  - cbn. eauto.
  - destruct s; [|discriminate].
    apply valid_emin in E.
    unfold SF64sub, SFsub, cond_Zopp, binary_normalize.
    cbn [Z.sub Z.opp Z.add]. now apply one_plus_finite.
Qed.

Lemma reciprocal_signed (x : float) (m : positive) (e : Z) :
  Prim2SF x = S754_finite false m e ->
  signed false (Prim2SF (1 / x)%float).
Proof.
  intros E. rewrite FloatAxioms.div_spec, E. apply valid_emin in E.
  now apply SFdiv_one_signed.
Qed.

Lemma not_finite_cases (v : float) :
  is_finite v = false -> v = nan \/ v = infinity \/ v = neg_infinity.
Proof.
  unfold is_finite, is_nan, is_infinity.
  rewrite !FloatAxioms.eqb_spec, FloatAxioms.abs_spec.
  change (Prim2SF infinity) with (S754_infinity false).
  destruct (Prim2SF v) as [s|s| |s m e] eqn:E.
  - now destruct s.
  - intros _. right.
    destruct s; [right | left]; apply Prim2SF_inj; now rewrite E.
  - intros _. left. apply Prim2SF_inj. now rewrite E.
  - unfold SFeqb, SFcompare, SFabs.
    rewrite Z.compare_refl, Pos.compare_cont_refl.
    now destruct s.
Qed.

(** C5 (amended).  On binary64 numbers the factor of lines 326-329 is
    [1 + v] when [v > 0] and [1 / (1 - v)] otherwise, the division never
    being one by zero.  The factor is strictly positive exactly when [v]
    is finite or positive: for every finite [v] and for plus infinity.
    For minus infinity, which [noise * draw] reaches by overflow, the
    factor is [0.0], and for NaN it is NaN. *)
Theorem c5_noisefactor_double (v : float) :
  ((0 <? v)%float = true ->
   noisefactor_double v = Some (1 + v)%float
   /\ (0 <? 1 + v)%float = true)
  /\ ((0 <? v)%float = false ->
      noisefactor_double v = Some (1 / (1 - v))%float)
  /\ (strictly_positive_factor v
      <-> is_finite v = true \/ (0 <? v)%float = true)
  /\ noisefactor_double neg_infinity = Some 0%float
  /\ noisefactor_double nan = Some nan.
Proof.
  assert (Hneg : (0 <? v)%float = false ->
                 noisefactor_double v = Some (1 / (1 - v))%float).
  { intros Hv. unfold noisefactor_double. rewrite Hv.
    destruct (one_minus_cases v Hv) as [[E _]|Hs].
    - rewrite FloatAxioms.eqb_spec, E. reflexivity.
    - now rewrite (signed_not_zero _ _ Hs). }
  assert (Hpos : (0 <? v)%float = true ->
                 noisefactor_double v = Some (1 + v)%float
                 /\ (0 <? 1 + v)%float = true).
  { intros Hv. unfold noisefactor_double. rewrite Hv.
    split; [reflexivity|]. now apply ltb_zero_signed, one_plus_signed. }
  split; [exact Hpos|]. split; [exact Hneg|].
  split; [|split; reflexivity].
  unfold strictly_positive_factor. split.
  - intros (f & Hf & Hlt).
    destruct (is_finite v) eqn:Hfin; [now left|]. right.
    destruct (not_finite_cases v Hfin) as [->|[->| ->]];
      try reflexivity; vm_compute in Hf; injection Hf as <-;
      discriminate Hlt.
  - intros Hv. destruct (0 <? v)%float eqn:Hlt.
    + exists (1 + v)%float. now apply Hpos.
    + destruct Hv as [Hfin|Hv]; [|discriminate].
      exists (1 / (1 - v))%float. split; [now apply Hneg|].
      destruct (one_minus_finite v Hlt Hfin) as (m & e & E).
      apply ltb_zero_signed. eapply reciprocal_signed, E.
Qed.

(** C5 as the specification words it fails: with [noise = 1e308] and a
    draw of [-2.0] the perturbation overflows to minus infinity and the
    factor is [0.0], which is not strictly positive. *)
Lemma c5_counterexample :
  ~ strictly_positive_factor
      (noiseval_double 0x1.1ccf385ebc8ap+1023%float (-2)%float).
Proof.
  intros (f & Hf & Hpos). vm_compute in Hf. injection Hf as <-.
  discriminate Hpos.
Qed.

End Binary64.

(** ** The store and the computations on it *)

Section StoreFacts.

Context {Person rng_state : Type}.

Abbreviation Sim' := (Sim Person).
Abbreviation World' := (World Person rng_state).
Abbreviation M' := (M Person rng_state).

Variable suggest : string -> list string -> option string.
Variable seed_rng : pyval -> rng_state.
Variable normal : rng_state -> Q * rng_state.
Variable run : Sim' -> pyval -> rng_state -> @RunOutcome Person rng_state.

Lemma bind_Ok {A B} (m : M' A) (f : A -> M' B) (w w' : World') (a : A) :
  m w = (Ok a, w') -> bind m f w = f a w'.
Proof. unfold bind. now intros ->. Qed.

Lemma bind_Raise {A B} (m : M' A) (f : A -> M' B) (w w' : World') (e : exn) :
  m w = (Raise e, w') -> bind m f w = (Raise e, w').
Proof. unfold bind. now intros ->. Qed.

Lemma bind_assoc {A B C} (m : M' A) (f : A -> M' B) (g : B -> M' C) (w : World') :
  bind (bind m f) g w = bind m (fun a => bind (f a) g) w.
Proof. unfold bind. now destruct (m w) as [[a|e] w1]. Qed.

Lemma sim_read_Some (l : loc) (s : Sim') (w : World') :
  heap w !! l = Some s -> sim_read l w = (Ok s, w).
Proof. unfold sim_read. now intros ->. Qed.

Lemma Sim_getitem_present (l : loc) (s : Sim') (w : World') k v :
  heap w !! l = Some s -> dict_get k (pars s) = Some v ->
  Sim_getitem l (VStr k) w = (Ok v, w).
Proof.
  intros Hl Hk. unfold Sim_getitem.
  rewrite (bind_Ok _ _ _ _ _ (sim_read_Some _ _ _ Hl)).
  unfold lift, ParsObj_getitem. now rewrite Hk.
Qed.

Lemma Sim_getitem_absent (l : loc) (s : Sim') (w : World') k :
  heap w !! l = Some s -> dict_get k (pars s) = None ->
  Sim_getitem l (VStr k) w = (Raise (KeyError_lookup (VStr k)), w).
Proof.
  intros Hl Hk. unfold Sim_getitem.
  rewrite (bind_Ok _ _ _ _ _ (sim_read_Some _ _ _ Hl)).
  unfold lift, ParsObj_getitem. now rewrite Hk.
Qed.

Lemma Sim_setitem_present (l : loc) (s : Sim') (w : World') k v :
  heap w !! l = Some s -> dict_mem k (pars s) = true ->
  Sim_setitem suggest l k v w =
  (Ok tt, set_heap w (<[l := set_pars s (dict_set k v (pars s))]> (heap w))).
Proof.
  intros Hl Hk. unfold Sim_setitem.
  rewrite (bind_Ok _ _ _ _ _ (sim_read_Some _ _ _ Hl)).
  unfold lift, ParsObj_setitem, bind. now rewrite Hk.
Qed.

Lemma Sim_setitem_absent (l : loc) (s : Sim') (w : World') k v :
  heap w !! l = Some s -> dict_mem k (pars s) = false ->
  Sim_setitem suggest l k v w = (Raise (setitem_error suggest (pars s) k), w).
Proof.
  intros Hl Hk. unfold Sim_setitem.
  rewrite (bind_Ok _ _ _ _ _ (sim_read_Some _ _ _ Hl)).
  unfold lift, ParsObj_setitem, bind. now rewrite Hk.
Qed.

Lemma lookup_written (l : loc) (s s' : Sim') (h : list Sim') :
  h !! l = Some s -> <[l := s']> h !! l = Some s'.
Proof.
  intros Hl. apply list_lookup_insert_eq. eapply lookup_lt_Some, Hl.
Qed.

Lemma setitem_error_class (d : dict) k :
  exn_class (setitem_error suggest d k) = KeyError.
Proof.
  unfold setitem_error. destruct (suggest k (keys d)) as [near|]; simpl.
  - now destruct (negb (String.eqb near "")).
  - reflexivity.
Qed.

Lemma setitem_error_unknown (d : dict) k :
  UnknownParameter (setitem_error suggest d k).
Proof.
  unfold setitem_error. destruct (suggest k (keys d)) as [near|]; simpl.
  - now destruct (negb (String.eqb near "")).
  - exact I.
Qed.

(** C7.  On a store that holds [key], [set(key, v)] succeeds and a
    following [get(key)] returns [v]; on a store that does not hold [key],
    [set(key, v)] fails with UnknownParameter and the whole state, the
    store included, is what it was before the call. *)
Theorem c7_set_get_roundtrip
        (w : World') (l : loc) (s : Sim') (key : string) (v : pyval) :
  heap w !! l = Some s ->
  (dict_mem key (pars s) = true ->
   exists w', Sim_setitem suggest l key v w = (Ok tt, w')
              /\ Sim_getitem l (VStr key) w' = (Ok v, w'))
  /\ (dict_mem key (pars s) = false ->
      exists e, Sim_setitem suggest l key v w = (Raise e, w)
                /\ UnknownParameter e).
Proof.
  intros Hl. split; intros Hk.
  - eexists. split; [eapply Sim_setitem_present; eassumption|].
    eapply Sim_getitem_present.
    + simpl. eapply lookup_written, Hl.
    + simpl. apply dict_get_set_eq.
  - eexists. split; [eapply Sim_setitem_absent; eassumption|].
    apply setitem_error_unknown.
Qed.

(** C8 (amended).  [get(key)] returns the stored value when [key] is
    present; when it is absent it fails with UnknownParameter and the
    error carries the missing key alone.  The message with a near-match
    suggestion, or else with the full list of valid keys, is the one that
    [set(key, v)] raises on an absent key: the suggestion when
    [sc.suggest] returns a non-empty string, the list of valid keys when
    it returns [None] or the empty string. *)
Theorem c8_get_plain_lookup (pars : dict) (key : string) :
  (forall v, dict_get key pars = Some v ->
             ParsObj_getitem pars (VStr key) = Ok v)
  /\ (dict_get key pars = None ->
      ParsObj_getitem pars (VStr key) = Raise (KeyError_lookup (VStr key))
      /\ UnknownParameter (KeyError_lookup (VStr key))
      /\ (forall v, ParsObj_setitem suggest pars key v =
                    Raise (setitem_error suggest pars key))
      /\ (forall near, suggest key (keys pars) = Some near -> near <> "" ->
                       setitem_error suggest pars key = KeyError_suggest key near)
      /\ (suggest key (keys pars) = None
          \/ suggest key (keys pars) = Some "" ->
          setitem_error suggest pars key = KeyError_available key (keys pars))).
Proof.
  split.
  - intros v Hv. unfold ParsObj_getitem. now rewrite Hv.
  - intros Hk. repeat split.
    + unfold ParsObj_getitem. now rewrite Hk.
    + intros v. unfold ParsObj_setitem.
      apply dict_mem_false in Hk. now rewrite Hk.
    + intros near Hs Hne. unfold setitem_error. rewrite Hs. simpl.
      apply String.eqb_neq in Hne. now rewrite Hne.
    + intros [Hs|Hs]; unfold setitem_error; now rewrite Hs.
Qed.

Lemma Sim_update_pars_unfold (l : loc) (s : Sim') (w : World') p create :
  heap w !! l = Some s ->
  Sim_update_pars l p create w =
  match update_pars (Some (pars s)) p create with
  | Ok d => (Ok tt, set_heap w (<[l := set_pars s d]> (heap w)))
  | Raise e => (Raise e, w)
  end.
Proof.
  intros Hl. unfold Sim_update_pars.
  rewrite (bind_Ok _ _ _ _ _ (sim_read_Some _ _ _ Hl)).
  unfold lift, bind. now destruct (update_pars _ p create).
Qed.

Lemma mismatches_nonempty (d m : dict) k :
  In k (keys m) -> dict_get k d = None ->
  List.filter (fun key => negb (key_in key (keys d))) (keys m) <> [].
Proof.
  intros Hin Hnone Hnil.
  assert (Hk : In k (List.filter (fun key => negb (key_in key (keys d))) (keys m))).
  { apply filter_In. split; [exact Hin|].
    rewrite <- dict_mem_key_in. apply dict_mem_false in Hnone. now rewrite Hnone. }
  rewrite Hnil in Hk. exact Hk.
Qed.

Lemma mismatches_empty (d m : dict) :
  (forall k, In k (keys m) -> dict_mem k d = true) ->
  List.filter (fun key => negb (key_in key (keys d))) (keys m) = [].
Proof.
  intros Hall. induction (keys m) as [|k ks IH]; simpl; [reflexivity|].
  rewrite <- dict_mem_key_in, (Hall k) by now left. simpl.
  apply IH. intros k' Hk'. apply Hall. now right.
Qed.

(** C9.  On a constructed store, [update(m, create=False)] with a key
    that the store lacks fails with UnknownParameter and leaves the whole
    state as it was (the keys are checked before anything is written);
    [update(m, create=True)] binds every key of [m] to its value in [m]
    and leaves every other key alone, and so does [create=False] when all
    keys of [m] are known. *)
Theorem c9_update_validates_first
        (w : World') (l : loc) (s : Sim') (m : dict) :
  heap w !! l = Some s ->
  ((exists k, In k (keys m) /\ dict_get k (pars s) = None) ->
   exists e, Sim_update_pars l (ADict m) false w = (Raise e, w)
             /\ UnknownParameter e)
  /\ (forall create : bool,
        NoDup (keys m) ->
        create = true \/ (forall k, In k (keys m) -> dict_mem k (pars s) = true) ->
        exists s',
          Sim_update_pars l (ADict m) create w =
          (Ok tt, set_heap w (<[l := s']> (heap w)))
          /\ (forall k v, In (k, v) m -> dict_get k (pars s') = Some v)
          /\ (forall k, ~ In k (keys m) ->
                        dict_get k (pars s') = dict_get k (pars s))).
Proof.
  intros Hl. split.
  - intros [k [Hin Hnone]].
    rewrite (Sim_update_pars_unfold _ _ _ _ _ Hl). simpl.
    pose proof (mismatches_nonempty _ _ _ Hin Hnone) as Hne.
    destruct (List.filter _ (keys m)) as [|k0 ks]; [congruence|]. simpl.
    eexists. split; [reflexivity | exact I].
  - intros create Hnd Hok.
    exists (set_pars s (dict_update (pars s) m)).
    rewrite (Sim_update_pars_unfold _ _ _ _ _ Hl).
    assert (Hupd : update_pars (Some (pars s)) (ADict m) create
                   = Ok (dict_update (pars s) m)).
    { simpl. destruct create; simpl; [reflexivity|].
      destruct Hok as [Hc | Hall]; [discriminate|].
      now rewrite (mismatches_empty _ _ Hall). }
    rewrite Hupd. repeat split.
    + intros k v Hin. simpl. now apply dict_update_get_in.
    + intros k Hnotin. simpl. now apply dict_update_get_other.
Qed.

(** *** The noise step *)

Lemma np_random_normal_eq (w : World') :
  np_random_normal normal w =
  (Ok (fst (normal (rng w))), set_rng w (snd (normal (rng w)))).
Proof. unfold np_random_normal. now destruct (normal (rng w)). Qed.


(** *** Frame rules *)

Section Keeps.

Variable h0 : list Sim'.

Lemma keeps_length (w : World') :
  take (length h0) (heap w) = h0 -> length h0 <= length (heap w).
Proof.
  intros H. apply (f_equal length) in H. rewrite length_take in H. lia.
Qed.

Lemma keeps_ret {A} (a : A) (Post : A -> Prop) : Post a -> keeps h0 (ret a : M' A) Post.
Proof. intros Ha w Hw. split; [exact Hw|]. now intros a' [= <-]. Qed.

Lemma keeps_raise {A} (e : exn) (Post : A -> Prop) : keeps h0 (raise e : M' A) Post.
Proof. intros w Hw. split; [exact Hw|]. discriminate. Qed.

Lemma keeps_lift {A} (r : result A) : keeps h0 (lift r : M' A) (fun _ => True).
Proof. intros w Hw. split; [exact Hw|]. easy. Qed.

Lemma keeps_weaken {A} (m : M' A) (P Post : A -> Prop) :
  keeps h0 m P -> (forall a, P a -> Post a) -> keeps h0 m Post.
Proof.
  intros Hm HPQ w Hw. destruct (Hm w Hw) as [H1 H2]. split; [exact H1|].
  intros a Ha. apply HPQ, H2, Ha.
Qed.

Lemma keeps_bind {A B} (m : M' A) (f : A -> M' B) (P : A -> Prop) (Post : B -> Prop) :
  keeps h0 m P -> (forall a, P a -> keeps h0 (f a) Post) ->
  keeps h0 (bind m f) Post.
Proof.
  intros Hm Hf w Hw. destruct (Hm w Hw) as [H1 H2]. unfold bind.
  destruct (m w) as [[a|e] w1]; simpl in *.
  - apply Hf; [now apply H2 | exact H1].
  - split; [exact H1 | discriminate].
Qed.

Lemma keeps_seq {A B} (m : M' A) (k : M' B) (Post : B -> Prop) :
  keeps h0 m (fun _ => True) -> keeps h0 k Post ->
  keeps h0 (bind m (fun _ => k)) Post.
Proof. intros Hm Hk. eapply keeps_bind; [exact Hm | intros _ _; exact Hk]. Qed.

Lemma keeps_sim_read (l : loc) : keeps h0 (sim_read l : M' Sim') (fun _ => True).
Proof.
  intros w Hw. unfold sim_read. destruct (heap w !! l); simpl; auto.
Qed.

Lemma keeps_sim_write (l : loc) (s : Sim') :
  length h0 <= l -> keeps h0 (sim_write l s : M' unit) (fun _ => True).
Proof.
  intros Hl w Hw. unfold sim_write. simpl. split; [|easy].
  now rewrite take_insert_ge.
Qed.

Lemma keeps_dcp (l : loc) : keeps h0 (dcp l : M' loc) (fun a => length h0 <= a).
Proof.
  intros w Hw. unfold dcp, bind, sim_read.
  pose proof (keeps_length w Hw) as Hlen.
  destruct (heap w !! l); simpl.
  - split; [now rewrite take_app_le | now intros a [= <-]].
  - split; [exact Hw | discriminate].
Qed.

Lemma keeps_print (ln : line) : keeps h0 (print ln : M' unit) (fun _ => True).
Proof. intros w Hw. unfold print. simpl. auto. Qed.

Lemma keeps_np_random_normal : keeps h0 (np_random_normal normal) (fun _ => True).
Proof.
  intros w Hw. rewrite np_random_normal_eq. simpl. auto.
Qed.

Lemma keeps_Sim_getitem (l : loc) (key : pyval) :
  keeps h0 (Sim_getitem l key : M' pyval) (fun _ => True).
Proof.
  unfold Sim_getitem. eapply keeps_bind; [apply keeps_sim_read|].
  intros s _. apply keeps_lift.
Qed.

Lemma keeps_Sim_setitem (l : loc) (key : string) (v : pyval) :
  length h0 <= l -> keeps h0 (Sim_setitem suggest l key v : M' unit) (fun _ => True).
Proof.
  intros Hl. unfold Sim_setitem.
  eapply keeps_bind; [apply keeps_sim_read|]. intros s _.
  eapply keeps_bind; [apply keeps_lift|]. intros d _.
  now apply keeps_sim_write.
Qed.

Lemma keeps_set_seed (l : loc) (seed : pyval) (randomize : bool) :
  length h0 <= l ->
  keeps h0 (set_seed suggest seed_rng l seed randomize) (fun _ => True).
Proof.
  intros Hl. unfold set_seed.
  eapply keeps_bind with (P := fun _ => True).
  - destruct randomize, seed;
      try apply keeps_raise; try (now apply keeps_ret);
      try apply keeps_Sim_getitem;
      (apply keeps_seq; [now apply keeps_Sim_setitem | now apply keeps_ret]).
  - intros sd _ w Hw. simpl. auto.
Qed.

Lemma keeps_Sim_imul_float (l : loc) (key : pyval) (x : Q) :
  length h0 <= l ->
  keeps h0 (Sim_imul_float suggest l key x : M' unit) (fun _ => True).
Proof.
  intros Hl. unfold Sim_imul_float.
  eapply keeps_bind; [apply keeps_Sim_getitem|]. intros old _.
  eapply keeps_bind; [apply keeps_lift|]. intros new _.
  destruct key; try apply keeps_raise. now apply keeps_Sim_setitem.
Qed.

Lemma keeps_apply_kwargs (l : loc) (verbose : pyval) (kwargs : dict) :
  length h0 <= l ->
  keeps h0 (apply_kwargs suggest l verbose kwargs : M' unit) (fun _ => True).
Proof.
  intros Hl. induction kwargs as [|[key val] rest IH]; simpl.
  - now apply keeps_ret.
  - apply keeps_seq; [apply keeps_print|].
    eapply keeps_bind; [apply keeps_sim_read|]. intros s _.
    apply keeps_seq; [|exact IH].
    destruct (dict_mem key (pars s)); [|apply keeps_raise].
    eapply keeps_bind; [apply keeps_lift|]. intros loud _.
    destruct loud; [|now apply keeps_ret].
    eapply keeps_bind; [apply keeps_Sim_getitem|]. intros old _.
    apply keeps_seq; [apply keeps_print | now apply keeps_Sim_setitem].
Qed.

Lemma keeps_Sim_run (l : loc) (verbose : pyval) :
  length h0 <= l -> keeps h0 (Sim_run run l verbose) (fun _ => True).
Proof.
  intros Hl. unfold Sim_run.
  eapply keeps_bind; [apply keeps_sim_read|]. intros s _ w Hw.
  destruct (ro_exn (run s verbose (rng w))); simpl;
    (split; [now rewrite take_insert_ge | easy]).
Qed.

Lemma keeps_clone_and_seed (sim : loc) (ind verbose : pyval) :
  keeps h0 (clone_and_seed suggest seed_rng sim ind verbose)
        (fun p => length h0 <= fst p).
Proof.
  unfold clone_and_seed.
  eapply keeps_bind; [apply keeps_dcp|]. intros new_sim Hnew.
  eapply keeps_bind with (P := fun _ => True).
  { destruct verbose; try (now apply keeps_ret). apply keeps_Sim_getitem. }
  intros v _.
  eapply keeps_bind; [apply keeps_Sim_getitem|]. intros seed _.
  eapply keeps_bind; [apply keeps_lift|]. intros seed' _.
  apply keeps_seq; [now apply keeps_Sim_setitem|].
  apply keeps_seq; [now apply keeps_set_seed|].
  now apply keeps_ret.
Qed.

Lemma keeps_guess_noisepar (sim : loc) (noisepar : pyval) :
  keeps h0 (guess_noisepar sim noisepar : M' pyval) (fun _ => True).
Proof.
  unfold guess_noisepar.
  destruct noisepar; try (now apply keeps_ret).
  eapply keeps_bind; [apply keeps_sim_read|]. intros s _.
  destruct (negb _); [apply keeps_raise|].
  destruct (found_guesses (pars s)); [apply keeps_raise | now apply keeps_ret].
Qed.

Lemma keeps_apply_noise (l : loc) (noise noisepar : pyval) :
  length h0 <= l ->
  keeps h0 (apply_noise suggest normal l noise noisepar) (fun _ => True).
Proof.
  intros Hl. unfold apply_noise.
  eapply keeps_bind; [apply keeps_np_random_normal|]. intros draw _.
  eapply keeps_bind; [apply keeps_lift|]. intros noiseval _.
  apply keeps_seq; [now apply keeps_Sim_imul_float | now apply keeps_ret].
Qed.

Lemma keeps_single_run_setup sim ind noise noisepar verbose kwargs :
  keeps h0 (single_run_setup suggest seed_rng normal sim ind noise noisepar
                             verbose kwargs)
        (fun p => length h0 <= fst p).
Proof.
  unfold single_run_setup. destruct sim as [sim|v]; [|apply keeps_raise].
  eapply keeps_bind; [apply keeps_clone_and_seed|]. intros [new_sim vb] Hnew.
  simpl in Hnew. simpl fst. simpl snd.
  eapply keeps_bind; [apply keeps_guess_noisepar|]. intros np _.
  eapply keeps_bind; [now apply keeps_apply_noise|]. intros factor _.
  eapply keeps_bind; [apply keeps_lift|]. intros loud _.
  apply keeps_seq.
  { destruct loud; [|now apply keeps_ret].
    eapply keeps_bind; [apply keeps_Sim_getitem|]. intros sd _.
    apply keeps_print. }
  apply keeps_seq; [now apply keeps_apply_kwargs|].
  now apply keeps_ret.
Qed.

Lemma keeps_single_run sim ind noise noisepar verbose kwargs :
  keeps h0 (single_run suggest seed_rng normal run sim ind noise noisepar
                       verbose kwargs)
        (fun new => length h0 <= new).
Proof.
  unfold single_run.
  eapply keeps_bind; [apply keeps_single_run_setup|]. intros [new_sim vb] Hnew.
  simpl in *.
  apply keeps_seq; [now apply keeps_Sim_run | now apply keeps_ret].
Qed.

End Keeps.

(** *** Computations that do not touch the random stream *)

Lemma same_rng_bind {A B} (m : M' A) (f : A -> M' B) :
  same_rng m -> (forall a, same_rng (f a)) -> same_rng (bind m f).
Proof.
  intros Hm Hf w. unfold bind. specialize (Hm w).
  destruct (m w) as [[a|e] w1]; simpl in *; [|exact Hm].
  now rewrite Hf.
Qed.

Lemma same_rng_ret {A} (a : A) : same_rng (ret a : M' A).
Proof. now intros w. Qed.

Lemma same_rng_raise {A} (e : exn) : same_rng (raise e : M' A).
Proof. now intros w. Qed.

Lemma same_rng_lift {A} (r : result A) : same_rng (lift r : M' A).
Proof. now intros w. Qed.

Lemma same_rng_sim_read (l : loc) : same_rng (sim_read l : M' Sim').
Proof. intros w. unfold sim_read. now destruct (heap w !! l). Qed.

Lemma same_rng_sim_write (l : loc) (s : Sim') :
  same_rng (sim_write l s : M' unit).
Proof. now intros w. Qed.

Lemma same_rng_print (ln : line) : same_rng (print ln : M' unit).
Proof. now intros w. Qed.

Lemma same_rng_Sim_getitem (l : loc) (key : pyval) :
  same_rng (Sim_getitem l key : M' pyval).
Proof.
  unfold Sim_getitem. apply same_rng_bind; [apply same_rng_sim_read|].
  intros s. apply same_rng_lift.
Qed.

Lemma same_rng_Sim_setitem (l : loc) (key : string) (v : pyval) :
  same_rng (Sim_setitem suggest l key v : M' unit).
Proof.
  unfold Sim_setitem. apply same_rng_bind; [apply same_rng_sim_read|].
  intros s. apply same_rng_bind; [apply same_rng_lift|].
  intros d. apply same_rng_sim_write.
Qed.

Lemma same_rng_Sim_imul_float (l : loc) (key : pyval) (x : Q) :
  same_rng (Sim_imul_float suggest l key x : M' unit).
Proof.
  unfold Sim_imul_float. apply same_rng_bind; [apply same_rng_Sim_getitem|].
  intros old. apply same_rng_bind; [apply same_rng_lift|].
  intros new. destruct key; try apply same_rng_raise.
  apply same_rng_Sim_setitem.
Qed.

Lemma same_rng_apply_kwargs (l : loc) (verbose : pyval) (kwargs : dict) :
  same_rng (apply_kwargs suggest l verbose kwargs : M' unit).
Proof.
  induction kwargs as [|[key val] rest IH]; simpl; [apply same_rng_ret|].
  apply same_rng_bind; [apply same_rng_print|]. intros _.
  apply same_rng_bind; [apply same_rng_sim_read|]. intros s.
  apply same_rng_bind; [|intros _; exact IH].
  destruct (dict_mem key (pars s)); [|apply same_rng_raise].
  apply same_rng_bind; [apply same_rng_lift|]. intros loud.
  destruct loud; [|apply same_rng_ret].
  apply same_rng_bind; [apply same_rng_Sim_getitem|]. intros old.
  apply same_rng_bind; [apply same_rng_print|]. intros _.
  apply same_rng_Sim_setitem.
Qed.

Lemma same_rng_guess_noisepar (sim : loc) (noisepar : pyval) :
  same_rng (guess_noisepar sim noisepar : M' pyval).
Proof.
  unfold guess_noisepar. destruct noisepar; try apply same_rng_ret.
  apply same_rng_bind; [apply same_rng_sim_read|]. intros s.
  destruct (negb _); [apply same_rng_raise|].
  destruct (found_guesses (pars s)); [apply same_rng_raise | apply same_rng_ret].
Qed.

(** [apply_noise] advances the stream by exactly one draw, whether or not
    the statements after the draw succeed. *)
Lemma apply_noise_rng (l : loc) (noise noisepar : pyval) (w : World') :
  rng (snd (apply_noise suggest normal l noise noisepar w))
  = snd (normal (rng w)).
Proof.
  unfold apply_noise.
  rewrite (bind_Ok _ _ _ _ _ (np_random_normal_eq w)).
  match goal with
  | |- rng (snd (?m _)) = _ =>
      assert (Hs : same_rng m); [|now rewrite Hs]
  end.
  apply same_rng_bind; [apply same_rng_lift|]. intros noiseval.
  apply same_rng_bind; [apply same_rng_Sim_imul_float|]. intros _.
  apply same_rng_ret.
Qed.

(** *** The effect of the first statements of [single_run] *)

Lemma dcp_eq (l : loc) (s : Sim') (w : World') :
  heap w !! l = Some s ->
  dcp l w = (Ok (length (heap w)), set_heap w (heap w ++ [s])).
Proof.
  intros Hl. unfold dcp.
  now rewrite (bind_Ok _ _ _ _ _ (sim_read_Some _ _ _ Hl)).
Qed.

Lemma lookup_fresh (h : list Sim') (s : Sim') : (h ++ [s]) !! length h = Some s.
Proof. now apply list_lookup_middle. Qed.

Lemma insert_fresh (h : list Sim') (s s' : Sim') :
  <[length h := s']> (h ++ [s]) = h ++ [s'].
Proof.
  rewrite insert_app_r_alt by lia. now rewrite Nat.sub_diag.
Qed.

Lemma clone_and_seed_eq (w : World') (sim : loc) (s : Sim')
      (ind verbose v sd sd' : pyval) :
  heap w !! sim = Some s ->
  verbosity_in_force verbose (pars s) = Some v ->
  dict_get "seed" (pars s) = Some sd ->
  py_add sd ind = Ok sd' ->
  clone_and_seed suggest seed_rng sim ind verbose w =
  (Ok (length (heap w), v),
   mkWorld (heap w ++ [set_pars s (dict_set "seed" sd' (pars s))])
           (seed_rng sd') (out w)).
Proof.
  intros Hl Hv Hsd Hadd. unfold clone_and_seed.
  rewrite (bind_Ok _ _ _ _ _ (dcp_eq _ _ _ Hl)).
  set (w1 := set_heap w (heap w ++ [s])).
  assert (H1 : heap w1 !! length (heap w) = Some s) by apply lookup_fresh.
  assert (Hverb : (match verbose with
                   | VNone => Sim_getitem (length (heap w)) (VStr "verbose")
                   | _ => ret verbose
                   end) w1 = (Ok v, w1)).
  { destruct verbose; simpl in Hv; try (injection Hv as <-; reflexivity).
    now apply (Sim_getitem_present _ s). }
  rewrite (bind_Ok _ _ _ _ _ Hverb).
  rewrite (bind_Ok _ _ _ _ _ (Sim_getitem_present _ _ _ _ _ H1 Hsd)).
  unfold lift at 1. unfold bind at 1. rewrite Hadd.
  assert (Hmem : dict_mem "seed" (pars s) = true).
  { apply dict_mem_true. now exists sd. }
  rewrite (bind_Ok _ _ _ _ _ (Sim_setitem_present _ _ _ _ sd' H1 Hmem)).
  simpl heap. rewrite insert_fresh.
  set (s2 := set_pars s (dict_set "seed" sd' (pars s))).
  set (w2 := set_heap w1 (heap w ++ [s2])).
  assert (H2 : heap w2 !! length (heap w) = Some s2) by apply lookup_fresh.
  assert (Hseed : set_seed suggest seed_rng (length (heap w)) VNone false w2
                  = (Ok tt, set_rng w2 (seed_rng sd'))).
  { unfold set_seed.
    assert (Hget : dict_get "seed" (pars s2) = Some sd')
      by apply dict_get_set_eq.
    now rewrite (bind_Ok _ _ _ _ _ (Sim_getitem_present _ _ _ _ _ H2 Hget)). }
  rewrite (bind_Ok _ _ _ _ _ Hseed). reflexivity.
Qed.

(** *** Guessing the noise parameter *)

Lemma found_guesses_exactly_one (d : dict) (g : string) :
  In g guesses -> dict_mem g d = true ->
  (forall g', In g' guesses -> dict_mem g' d = true -> g' = g) ->
  found_guesses d = [g].
Proof.
  unfold found_guesses, guesses. simpl.
  intros Hin Hg Huniq.
  assert (H1 := Huniq "r_contact"). assert (H2 := Huniq "r0").
  assert (H3 := Huniq "beta"). simpl in H1, H2, H3.
  destruct (dict_mem "r_contact" d) eqn:E1, (dict_mem "r0" d) eqn:E2,
           (dict_mem "beta" d) eqn:E3;
    repeat match goal with
           | H : _ \/ _ |- _ => destruct H
           | H : False |- _ => destruct H
           end; subst; try congruence;
    try (specialize (H1 ltac:(tauto) eq_refl));
    try (specialize (H2 ltac:(tauto) eq_refl));
    try (specialize (H3 ltac:(tauto) eq_refl));
    try discriminate; reflexivity.
Qed.

Lemma found_guesses_none (d : dict) :
  (forall g, In g guesses -> dict_mem g d = false) -> found_guesses d = [].
Proof.
  unfold found_guesses, guesses. simpl. intros H.
  rewrite (H "r_contact"), (H "r0"), (H "beta") by tauto. reflexivity.
Qed.

Lemma found_guesses_several (d : dict) (g1 g2 : string) :
  g1 <> g2 -> In g1 guesses -> In g2 guesses ->
  dict_mem g1 d = true -> dict_mem g2 d = true ->
  2 <= length (found_guesses d).
Proof.
  unfold found_guesses, guesses. simpl. intros Hne H1 H2 M1 M2.
  repeat match goal with
         | H : _ \/ _ |- _ => destruct H
         | H : False |- _ => destruct H
         end; subst; try congruence;
    rewrite ?M1, ?M2; simpl;
    repeat match goal with
           | |- context [dict_mem ?k d] => destruct (dict_mem k d)
           end; simpl; lia.
Qed.

Lemma guess_noisepar_found (w : World') (sim : loc) (s : Sim') (g : string) :
  heap w !! sim = Some s -> found_guesses (pars s) = [g] ->
  guess_noisepar sim VNone w = (Ok (VStr g), w).
Proof.
  intros Hl Hf. unfold guess_noisepar.
  rewrite (bind_Ok _ _ _ _ _ (sim_read_Some _ _ _ Hl)). now rewrite Hf.
Qed.

Lemma guess_noisepar_ambiguous (w : World') (sim : loc) (s : Sim') :
  heap w !! sim = Some s -> length (found_guesses (pars s)) <> 1 ->
  guess_noisepar sim VNone w =
  (Raise (KeyError_noguess guesses (found_guesses (pars s))), w).
Proof.
  intros Hl Hf. unfold guess_noisepar.
  rewrite (bind_Ok _ _ _ _ _ (sim_read_Some _ _ _ Hl)).
  apply Nat.eqb_neq in Hf. now rewrite Hf.
Qed.

Lemma single_run_setup_steps (sim : loc) (ind noise noisepar verbose : pyval)
      (kwargs : dict) (w : World') :
  single_run_setup suggest seed_rng normal (RSim sim) ind noise noisepar
                   verbose kwargs w
  = (let* cloned := clone_and_seed suggest seed_rng sim ind verbose in
     let* np := guess_noisepar sim noisepar in
     perturb_and_override suggest normal (fst cloned) noise np (snd cloned)
                          kwargs) w.
Proof. reflexivity. Qed.

(** C4 (amended).  A call of [single_run] without a noise parameter on
    a template from which lines 307-313 succeed (a verbosity is in
    force, 'seed' is a parameter and can be added to the run index)
    reaches the detection with the seeded copy in place.  If exactly one
    of 'r_contact', 'r0', 'beta' is a parameter of the template, the
    detection returns it and the call goes on with the noise step on
    that parameter: it is the call with that parameter given explicitly.
    If none or more than one is, the detection and the call fail with
    AmbiguousNoiseParameter, the seeded copy being the only effect. *)
Theorem c4_noise_parameter_detection
        (w : World') (sim : loc) (s : Sim')
        (ind noise verbose v sd sd' : pyval) (kwargs : dict) :
  heap w !! sim = Some s ->
  verbosity_in_force verbose (pars s) = Some v ->
  dict_get "seed" (pars s) = Some sd ->
  py_add sd ind = Ok sd' ->
  let seeded :=
    mkWorld (heap w ++ [set_pars s (dict_set "seed" sd' (pars s))])
            (seed_rng sd') (out w) in
  (forall g,
      In g guesses -> dict_mem g (pars s) = true ->
      (forall g', In g' guesses -> dict_mem g' (pars s) = true -> g' = g) ->
      guess_noisepar sim VNone seeded = (Ok (VStr g), seeded)
      /\ single_run_setup suggest seed_rng normal (RSim sim) ind noise VNone
                          verbose kwargs w
         = perturb_and_override suggest normal (length (heap w)) noise
                                (VStr g) v kwargs seeded
      /\ single_run suggest seed_rng normal run (RSim sim) ind noise VNone
                    verbose kwargs w
         = single_run suggest seed_rng normal run (RSim sim) ind noise
                      (VStr g) verbose kwargs w)
  /\ ((forall g, In g guesses -> dict_mem g (pars s) = false)
      \/ (exists g1 g2, g1 <> g2 /\ In g1 guesses /\ In g2 guesses
                        /\ dict_mem g1 (pars s) = true
                        /\ dict_mem g2 (pars s) = true) ->
      guess_noisepar sim VNone seeded
      = (Raise (KeyError_noguess guesses (found_guesses (pars s))), seeded)
      /\ exists e,
          single_run suggest seed_rng normal run (RSim sim) ind noise VNone
                     verbose kwargs w = (Raise e, seeded)
          /\ AmbiguousNoiseParameter e
          /\ e = KeyError_noguess guesses (found_guesses (pars s))).
Proof.
  intros Hl Hv Hseed Hadd w1.
  assert (Hclone := clone_and_seed_eq w sim s ind verbose v sd sd'
                                      Hl Hv Hseed Hadd).
  fold w1 in Hclone.
  assert (Hl1 : heap w1 !! sim = Some s).
  { simpl. rewrite lookup_app_l; [exact Hl|]. eapply lookup_lt_Some, Hl. }
  split.
  - intros g Hin Hg Huniq.
    pose proof (found_guesses_exactly_one _ _ Hin Hg Huniq) as Hf.
    pose proof (guess_noisepar_found _ _ _ _ Hl1 Hf) as Hguess.
    assert (Hexplicit : guess_noisepar sim (VStr g) w1 = (Ok (VStr g), w1))
      by reflexivity.
    split; [exact Hguess|]. split.
    + rewrite single_run_setup_steps.
      rewrite (bind_Ok _ _ _ _ _ Hclone).
      now rewrite (bind_Ok _ _ _ _ _ Hguess).
    + unfold single_run, single_run_setup.
      rewrite !bind_assoc, !(bind_Ok _ _ _ _ _ Hclone).
      cbv beta zeta. rewrite !bind_assoc.
      rewrite (bind_Ok _ _ _ _ _ Hguess).
      now rewrite (bind_Ok _ _ _ _ _ Hexplicit).
  - intros Hamb.
    assert (Hlen : length (found_guesses (pars s)) <> 1).
    { destruct Hamb as [Hnone | (g1 & g2 & Hne & H1 & H2 & M1 & M2)].
      - now rewrite (found_guesses_none _ Hnone).
      - pose proof (found_guesses_several _ _ _ Hne H1 H2 M1 M2). lia. }
    pose proof (guess_noisepar_ambiguous _ _ _ Hl1 Hlen) as Hguess.
    split; [exact Hguess|].
    exists (KeyError_noguess guesses (found_guesses (pars s))).
    split; [|split; [exact I | reflexivity]].
    unfold single_run, single_run_setup.
    apply bind_Raise. rewrite (bind_Ok _ _ _ _ _ Hclone).
    now apply bind_Raise.
Qed.

(** *** What [single_run] returns and what it leaves alone *)

Lemma returns_bind {A B} (m : M' A) (f : A -> M' B) (P : B -> Prop) :
  (forall a, returns (f a) P) -> returns (bind m f) P.
Proof.
  intros Hf w b. unfold bind.
  destruct (m w) as [[a|e] w1]; [apply Hf | discriminate].
Qed.

Lemma returns_ret {A} (a : A) (P : A -> Prop) : P a -> returns (ret a : M' A) P.
Proof. intros Ha w a' [= <-]. exact Ha. Qed.

Ltac returns_tail :=
  repeat (apply returns_bind; intro); apply returns_ret; reflexivity.

Lemma clone_and_seed_returns (w : World') (sim : loc) (ind verbose : pyval) p :
  fst (clone_and_seed suggest seed_rng sim ind verbose w) = Ok p ->
  fst p = length (heap w) /\ sim < length (heap w).
Proof.
  unfold clone_and_seed. destruct (heap w !! sim) as [s|] eqn:Hl.
  - rewrite (bind_Ok _ _ _ _ _ (dcp_eq _ _ _ Hl)). intros Hp. split.
    + match type of Hp with
      | fst (?m ?w1) = Ok _ =>
          assert (R : returns m (fun p => fst p = length (heap w)))
            by returns_tail;
          exact (R w1 _ Hp)
      end.
    + eapply lookup_lt_Some, Hl.
  - assert (Hd : dcp sim w = (Raise BadReference, w)).
    { unfold dcp, bind, sim_read. now rewrite Hl. }
    rewrite (bind_Raise _ _ _ _ _ Hd). discriminate.
Qed.

Lemma single_run_setup_returns (w : World') (sim : loc)
      (ind noise noisepar verbose : pyval) (kwargs : dict) p :
  fst (single_run_setup suggest seed_rng normal (RSim sim) ind noise noisepar
                        verbose kwargs w) = Ok p ->
  fst p = length (heap w) /\ sim < length (heap w).
Proof.
  unfold single_run_setup. unfold bind at 1.
  pose proof (clone_and_seed_returns w sim ind verbose) as Hc.
  destruct (clone_and_seed suggest seed_rng sim ind verbose w)
    as [[c|e] w1]; [|discriminate].
  destruct (Hc c eq_refl) as [Hfst Hlt]. rewrite <- Hfst.
  intros Hp. split; [|now rewrite Hfst].
  match type of Hp with
  | fst (?m ?w1) = Ok _ =>
      assert (R : returns m (fun p => fst p = fst c)) by returns_tail;
      exact (R w1 _ Hp)
  end.
Qed.

Lemma single_run_returns (w : World') (sim : loc)
      (ind noise noisepar verbose : pyval) (kwargs : dict) new :
  fst (single_run suggest seed_rng normal run (RSim sim) ind noise noisepar
                  verbose kwargs w) = Ok new ->
  new = length (heap w) /\ sim < length (heap w).
Proof.
  unfold single_run. unfold bind at 1.
  pose proof (single_run_setup_returns w sim ind noise noisepar verbose kwargs)
    as Hs.
  destruct (single_run_setup suggest seed_rng normal (RSim sim) ind noise
                             noisepar verbose kwargs w)
    as [[ready|e] w1]; [|discriminate].
  destruct (Hs ready eq_refl) as [Hfst Hlt]. rewrite <- Hfst.
  intros Hp. split; [|now rewrite Hfst].
  match type of Hp with
  | fst (?m ?w1) = Ok _ =>
      assert (R : returns m (fun new => new = fst ready)) by returns_tail;
      exact (R w1 _ Hp)
  end.
Qed.

(** *** The seed that [run] receives *)

Lemma keeps_param_bind {A B} (l : loc) (key : string) (x : pyval)
      (m : M' A) (f : A -> M' B) :
  keeps_param l key x m -> (forall a, keeps_param l key x (f a)) ->
  keeps_param l key x (bind m f).
Proof.
  intros Hm Hf w Hw. specialize (Hm w Hw). unfold bind.
  destruct (m w) as [[a|e] w1]; simpl in *; [now apply Hf | exact Hm].
Qed.

Lemma keeps_param_lift_bind {A B} (l : loc) (key : string) (x : pyval)
      (r : result A) (f : A -> M' B) :
  (forall a, r = Ok a -> keeps_param l key x (f a)) ->
  keeps_param l key x (bind (lift r : M' A) f).
Proof.
  intros Hf w Hw. unfold bind, lift.
  destruct r as [a|e]; [now apply Hf | exact Hw].
Qed.

Lemma keeps_param_ret {A} (l : loc) (key : string) (x : pyval) (a : A) :
  keeps_param l key x (ret a : M' A).
Proof. now intros w Hw. Qed.

Lemma keeps_param_raise {A} (l : loc) (key : string) (x : pyval) (e : exn) :
  keeps_param l key x (raise e : M' A).
Proof. now intros w Hw. Qed.

Lemma keeps_param_lift {A} (l : loc) (key : string) (x : pyval)
      (r : result A) :
  keeps_param l key x (lift r : M' A).
Proof. now intros w Hw. Qed.

Lemma keeps_param_print (l : loc) (key : string) (x : pyval) (ln : line) :
  keeps_param l key x (print ln : M' unit).
Proof. now intros w Hw. Qed.

Lemma keeps_param_sim_read (l l' : loc) (key : string) (x : pyval) :
  keeps_param l key x (sim_read l' : M' Sim').
Proof. intros w Hw. unfold sim_read. now destruct (heap w !! l'). Qed.

Lemma keeps_param_np_random_normal (l : loc) (key : string) (x : pyval) :
  keeps_param l key x (np_random_normal normal : M' Q).
Proof. intros w Hw. rewrite np_random_normal_eq. exact Hw. Qed.

Lemma keeps_param_Sim_getitem (l l' : loc) (key : string) (x k : pyval) :
  keeps_param l key x (Sim_getitem l' k : M' pyval).
Proof.
  unfold Sim_getitem. apply keeps_param_bind; [apply keeps_param_sim_read|].
  intros s0. apply keeps_param_lift.
Qed.

(** An assignment to another parameter leaves [key] alone. *)
Lemma keeps_param_Sim_setitem (l l' : loc) (key k' : string) (x v : pyval) :
  k' <> key ->
  keeps_param l key x (Sim_setitem suggest l' k' v : M' unit).
Proof.
  intros Hne w Hw. unfold Sim_setitem, bind, sim_read.
  destruct (heap w !! l') as [s0|] eqn:Hl'; simpl; [|exact Hw].
  unfold lift, ParsObj_setitem.
  destruct (dict_mem k' (pars s0)); simpl; [|exact Hw].
  unfold param in *. simpl.
  destruct (Nat.eq_dec l' l) as [-> | Hl].
  - rewrite Hl' in Hw. rewrite (lookup_written _ _ _ _ Hl'). simpl.
    now rewrite dict_get_set_ne.
  - now rewrite list_lookup_insert_ne.
Qed.

Lemma keeps_param_Sim_imul_float (l l' : loc) (key : string)
      (x np : pyval) (factor : Q) :
  np <> VStr key ->
  keeps_param l key x (Sim_imul_float suggest l' np factor : M' unit).
Proof.
  intros Hne. unfold Sim_imul_float.
  apply keeps_param_bind; [apply keeps_param_Sim_getitem|]. intros old.
  apply keeps_param_bind; [apply keeps_param_lift|]. intros new.
  destruct np; try apply keeps_param_raise.
  apply keeps_param_Sim_setitem. congruence.
Qed.

Lemma keeps_param_apply_noise (l l' : loc) (key : string)
      (x noise np : pyval) :
  np <> VStr key ->
  keeps_param l key x (apply_noise suggest normal l' noise np : M' Q).
Proof.
  intros Hne. unfold apply_noise.
  apply keeps_param_bind; [apply keeps_param_np_random_normal|]. intros draw.
  apply keeps_param_bind; [apply keeps_param_lift|]. intros noiseval.
  apply keeps_param_bind; [now apply keeps_param_Sim_imul_float|]. intros _.
  apply keeps_param_ret.
Qed.

(** The overrides leave [key] alone when none of them names it, or when
    the verbosity is below 1. *)
Lemma keeps_param_apply_kwargs (l l' : loc) (key : string)
      (x verbose : pyval) (kwargs : dict) :
  (In key (keys kwargs) -> py_ge_int verbose 1 = Ok false) ->
  keeps_param l key x (apply_kwargs suggest l' verbose kwargs : M' unit).
Proof.
  induction kwargs as [|[k val] rest IH]; simpl; intros Hq;
    [apply keeps_param_ret|].
  apply keeps_param_bind; [apply keeps_param_print|]. intros _.
  apply keeps_param_bind; [apply keeps_param_sim_read|]. intros s0.
  apply keeps_param_bind; [|intros _; apply IH; intros Hin; apply Hq; now right].
  destruct (dict_mem k (pars s0)); [|apply keeps_param_raise].
  apply keeps_param_lift_bind. intros loud Hloud.
  destruct loud; [|apply keeps_param_ret].
  apply keeps_param_bind; [apply keeps_param_Sim_getitem|]. intros old.
  apply keeps_param_bind; [apply keeps_param_print|]. intros _.
  apply keeps_param_Sim_setitem. intros ->.
  rewrite Hq in Hloud by now left. discriminate.
Qed.

Lemma keeps_param_perturb_and_override (l l' : loc) (key : string)
      (x noise np verbose : pyval) (kwargs : dict) :
  np <> VStr key ->
  (In key (keys kwargs) -> py_ge_int verbose 1 = Ok false) ->
  keeps_param l key x
              (perturb_and_override suggest normal l' noise np verbose kwargs
               : M' (loc * pyval)).
Proof.
  intros Hne Hq. unfold perturb_and_override.
  apply keeps_param_bind; [now apply keeps_param_apply_noise|]. intros factor.
  apply keeps_param_bind; [apply keeps_param_lift|]. intros loud.
  apply keeps_param_bind.
  - destruct loud; [|apply keeps_param_ret].
    apply keeps_param_bind; [apply keeps_param_Sim_getitem|]. intros sd.
    apply keeps_param_print.
  - intros _.
    apply keeps_param_bind; [now apply keeps_param_apply_kwargs|]. intros _.
    apply keeps_param_ret.
Qed.

Lemma perturb_and_override_rng (l : loc) (noise np verbose : pyval)
      (kwargs : dict) (w : World') :
  rng (snd (perturb_and_override suggest normal l noise np verbose kwargs w))
  = snd (normal (rng w)).
Proof.
  unfold perturb_and_override. unfold bind at 1.
  pose proof (apply_noise_rng l noise np w) as R.
  destruct (apply_noise suggest normal l noise np w) as [[factor|e] w1];
    simpl in R; [|exact R].
  rewrite <- R.
  match goal with
  | |- rng (snd (?m w1)) = _ => assert (Hs : same_rng m); [|apply Hs]
  end.
  apply same_rng_bind; [apply same_rng_lift|]. intros loud.
  apply same_rng_bind.
  - destruct loud; [|apply same_rng_ret].
    apply same_rng_bind; [apply same_rng_Sim_getitem|]. intros sd.
    apply same_rng_print.
  - intros _. apply same_rng_bind; [apply same_rng_apply_kwargs|].
    intros _. apply same_rng_ret.
Qed.

Lemma perturb_and_override_returns (l : loc) (noise np verbose : pyval)
      (kwargs : dict) :
  returns (perturb_and_override suggest normal l noise np verbose kwargs
           : M' (loc * pyval))
          (fun p => p = (l, verbose)).
Proof. unfold perturb_and_override. returns_tail. Qed.

(** The detection never settles on 'seed'. *)
Lemma guess_noisepar_result (sim : loc) (noisepar np : pyval) (w w' : World') :
  guess_noisepar sim noisepar w = (Ok np, w') ->
  w' = w /\ (noisepar <> VStr "seed" -> np <> VStr "seed").
Proof.
  unfold guess_noisepar. destruct noisepar;
    try (intros [= <- <-]; split; [reflexivity | auto]).
  unfold bind, sim_read. destruct (heap w !! sim) as [s|]; [|discriminate].
  destruct (negb _); [discriminate|].
  destruct (found_guesses (pars s)) as [|g tl] eqn:Hf; [discriminate|].
  intros [= <- <-]. split; [reflexivity|]. intros _ [= ->].
  assert (Hin : In "seed" (found_guesses (pars s))) by (rewrite Hf; now left).
  unfold found_guesses in Hin. apply filter_In in Hin as [Hin _].
  unfold guesses in Hin. simpl in Hin.
  destruct Hin as [H|[H|[H|[]]]]; discriminate H.
Qed.

Lemma clone_and_seed_without_verbosity (w : World') (sim : loc) (s : Sim')
      (ind verbose : pyval) :
  heap w !! sim = Some s ->
  verbosity_in_force verbose (pars s) = None ->
  fst (clone_and_seed suggest seed_rng sim ind verbose w)
  = Raise (KeyError_lookup (VStr "verbose")).
Proof.
  intros Hl Hv. unfold clone_and_seed.
  rewrite (bind_Ok _ _ _ _ _ (dcp_eq _ _ _ Hl)).
  destruct verbose; try discriminate Hv. simpl in Hv.
  unfold bind at 1.
  rewrite (Sim_getitem_absent _ s); [reflexivity | apply lookup_fresh | exact Hv].
Qed.

(** The state in which [single_run] calls [run]: the copy holds the seed
    [base + i] and the stream is the one reset from [base + i], advanced
    by the one noise draw. *)
Lemma single_run_setup_seed
      (w w' : World') (sim new : loc) (s : Sim') (base i : Z)
      (noise noisepar verbose v : pyval) (kwargs : dict) :
  heap w !! sim = Some s ->
  dict_get "seed" (pars s) = Some (VInt base) ->
  noisepar <> VStr "seed" ->
  (In "seed" (keys kwargs) -> py_ge_int v 1 = Ok false) ->
  single_run_setup suggest seed_rng normal (RSim sim) (VInt i) noise noisepar
                   verbose kwargs w = (Ok (new, v), w') ->
  new = length (heap w)
  /\ verbosity_in_force verbose (pars s) = Some v
  /\ param w' new "seed" = Some (VInt (base + i))
  /\ rng w' = snd (normal (seed_rng (VInt (base + i)))).
Proof.
  intros Hl Hseed Hnp Hq Hsetup.
  rewrite single_run_setup_steps in Hsetup.
  destruct (verbosity_in_force verbose (pars s)) as [v0|] eqn:Hv.
  2:{ pose proof (clone_and_seed_without_verbosity w sim s (VInt i) verbose
                                                   Hl Hv) as Hc.
      unfold bind at 1 in Hsetup.
      destruct (clone_and_seed suggest seed_rng sim (VInt i) verbose w)
        as [[c|e] w1]; simpl in Hc; discriminate. }
  pose proof (clone_and_seed_eq w sim s (VInt i) verbose v0 (VInt base)
                                (VInt (base + i)) Hl Hv Hseed eq_refl)
    as Hclone.
  rewrite (bind_Ok _ _ _ _ _ Hclone) in Hsetup. cbn [fst snd] in Hsetup.
  set (w1 := mkWorld
               (heap w ++ [set_pars s (dict_set "seed" (VInt (base + i))
                                                (pars s))])
               (seed_rng (VInt (base + i))) (out w)) in *.
  unfold bind at 1 in Hsetup.
  destruct (guess_noisepar sim noisepar w1) as [[np|e] w2] eqn:Hg;
    [|discriminate].
  apply guess_noisepar_result in Hg as [-> Hnp'].
  specialize (Hnp' Hnp).
  pose proof (perturb_and_override_returns (length (heap w)) noise np v0
                                           kwargs w1 (new, v)) as Hret.
  rewrite Hsetup in Hret. specialize (Hret eq_refl).
  injection Hret as -> ->.
  split; [reflexivity|]. split; [reflexivity|]. split.
  - pose proof (keeps_param_perturb_and_override
                  (length (heap w)) (length (heap w)) "seed"
                  (VInt (base + i)) noise np v0 kwargs Hnp' Hq w1) as Hk.
    rewrite Hsetup in Hk. apply Hk.
    unfold param, w1. simpl. rewrite lookup_fresh. simpl.
    apply dict_get_set_eq.
  - pose proof (perturb_and_override_rng (length (heap w)) noise np v0
                                         kwargs w1) as Hr.
    now rewrite Hsetup in Hr.
Qed.

(** C3.  When [single_run] with run index [i] on a template whose seed
    is the integer [base] reaches the call of [run], [run] is called on
    the private copy with parameter 'seed' equal to [base + i], in the
    random stream reset from [base + i] (advanced by the one noise
    draw), and what [single_run] returns is what that call leaves.  This
    holds for the guessed noise parameter and for every explicit one
    other than 'seed', and for all overrides unless one of them names
    'seed' at a verbosity of 1 or more.  Two such calls with distinct
    indices hand [run] distinct seeds. *)
Theorem c3_run_gets_base_plus_index
        (w w' : World') (sim new : loc) (s : Sim') (base i : Z)
        (noise noisepar verbose v : pyval) (kwargs : dict) :
  heap w !! sim = Some s ->
  dict_get "seed" (pars s) = Some (VInt base) ->
  noisepar <> VStr "seed" ->
  (In "seed" (keys kwargs) -> py_ge_int v 1 = Ok false) ->
  single_run_setup suggest seed_rng normal (RSim sim) (VInt i) noise noisepar
                   verbose kwargs w = (Ok (new, v), w') ->
  (exists engine,
      heap w' !! new = Some engine
      /\ dict_get "seed" (pars engine) = Some (VInt (base + i))
      /\ rng w' = snd (normal (seed_rng (VInt (base + i))))
      /\ single_run suggest seed_rng normal run (RSim sim) (VInt i) noise
                    noisepar verbose kwargs w
         = (let o := run engine v (snd (normal (seed_rng (VInt (base + i))))) in
            (match ro_exn o with
             | Some e => Raise e
             | None => Ok new
             end,
             mkWorld (<[new := ro_sim o]> (heap w')) (ro_rng o)
                     (out w' ++ ro_out o))))
  /\ (forall (j : Z) (new2 : loc) (v2 : pyval) (w2 : World'),
         i <> j ->
         single_run_setup suggest seed_rng normal (RSim sim) (VInt j) noise
                          noisepar verbose kwargs w = (Ok (new2, v2), w2) ->
         param w2 new2 "seed" = Some (VInt (base + j))
         /\ param w2 new2 "seed" <> param w' new "seed").
Proof.
  intros Hl Hseed Hnp Hq Hsetup.
  destruct (single_run_setup_seed w w' sim new s base i noise noisepar
                                  verbose v kwargs Hl Hseed Hnp Hq Hsetup)
    as (Hnew & Hv & Hpar & Hrng).
  split.
  - unfold param in Hpar.
    destruct (heap w' !! new) as [engine|] eqn:Hengine; [|discriminate].
    exists engine. split; [reflexivity|]. split; [exact Hpar|].
    split; [exact Hrng|].
    unfold single_run. rewrite (bind_Ok _ _ _ _ _ Hsetup). cbn [fst snd].
    unfold Sim_run.
    rewrite bind_assoc, (bind_Ok _ _ _ _ _ (sim_read_Some _ _ _ Hengine)).
    unfold bind, ret. rewrite Hrng.
    now destruct (ro_exn _).
  - intros j new2 v2 w2 Hij Hsetup2.
    assert (Hq2 : In "seed" (keys kwargs) -> py_ge_int v2 1 = Ok false).
    { (* the verbosity in force does not depend on the run index *)
      intros Hin. rewrite single_run_setup_steps in Hsetup2.
      pose proof (clone_and_seed_eq w sim s (VInt j) verbose v (VInt base)
                                    (VInt (base + j)) Hl Hv Hseed eq_refl)
        as Hclone.
      rewrite (bind_Ok _ _ _ _ _ Hclone) in Hsetup2. cbn [fst snd] in Hsetup2.
      unfold bind at 1 in Hsetup2.
      destruct (guess_noisepar sim noisepar _) as [[np|e] w3]; [|discriminate].
      pose proof (perturb_and_override_returns (length (heap w)) noise np v
                                               kwargs w3 (new2, v2)) as Hret.
      rewrite Hsetup2 in Hret. specialize (Hret eq_refl).
      injection Hret as _ ->. now apply Hq. }
    destruct (single_run_setup_seed w w2 sim new2 s base j noise noisepar
                                    verbose v2 kwargs Hl Hseed Hnp Hq2 Hsetup2)
      as (_ & _ & Hpar2 & _).
    split; [exact Hpar2|]. rewrite Hpar, Hpar2. intros [= Heq]. lia.
Qed.

(** C10.  [single_run] leaves every object that exists when it is called
    as it was, the template engine in particular (its parameters, its
    population, its results); the engine it returns is a new object,
    different from the template, and that copy alone is written to. *)
Theorem c10_template_left_unchanged
        (w : World') (sim : loc) (ind noise noisepar verbose : pyval)
        (kwargs : dict) :
  let outcome :=
    single_run suggest seed_rng normal run (RSim sim) ind noise noisepar
               verbose kwargs w in
  take (length (heap w)) (heap (snd outcome)) = heap w
  /\ (forall s, heap w !! sim = Some s -> heap (snd outcome) !! sim = Some s)
  /\ (forall new, fst outcome = Ok new ->
                  new = length (heap w) /\ new <> sim).
Proof.
  intros outcome. subst outcome.
  destruct (keeps_single_run (heap w) (RSim sim) ind noise noisepar verbose
                             kwargs w) as [Hkeep _].
  { apply firstn_all. }
  split; [exact Hkeep|]. split.
  - intros s Hl.
    rewrite <- (lookup_take_lt _ (length (heap w))) by (eapply lookup_lt_Some, Hl).
    now rewrite Hkeep.
  - intros new Hnew. apply single_run_returns in Hnew. lia.
Qed.

(** *** The iteration parameters of [multi_run] *)

Lemma iterpars_loop_Ok (n0 n : option Z) (items : list (string * list pyval)) :
  iterpars_loop n0 items = Ok n ->
  (forall kv, In kv items -> n = Some (Z.of_nat (length (snd kv))))
  /\ (forall x, n0 = Some x -> n = Some x).
Proof.
  revert n0. induction items as [|[key val] rest IH]; simpl; intros n0 Hloop.
  - injection Hloop as <-. split; [tauto | auto].
  - assert (Hrest : iterpars_loop (Some (Z.of_nat (length val))) rest = Ok n
                    /\ forall x, n0 = Some x -> x = Z.of_nat (length val)).
    { destruct n0 as [x|]; [|split; [exact Hloop | discriminate]].
      destruct (Z.eqb (Z.of_nat (length val)) x) eqn:E; simpl in Hloop;
        [|discriminate].
      apply Z.eqb_eq in E. split; [exact Hloop|]. now intros y [= <-]. }
    destruct Hrest as [Hrest Hn0].
    destruct (IH _ Hrest) as [Hall Hsame]. split.
    + intros kv [<- | Hin]; [simpl; now apply Hsame | now apply Hall].
    + intros x Hx. rewrite (Hn0 x Hx). now apply Hsame.
Qed.

Lemma iterpars_loop_Raise (n0 : option Z) (items : list (string * list pyval)) e :
  iterpars_loop n0 items = Raise e ->
  exists a b : Z, a <> b /\ e = ValueError_iterlen a b.
Proof.
  revert n0. induction items as [|[key val] rest IH]; simpl; intros n0 Hloop.
  - discriminate.
  - destruct n0 as [x|]; [|now apply IH in Hloop].
    destruct (Z.eqb (Z.of_nat (length val)) x) eqn:E; simpl in Hloop;
      [now apply IH in Hloop|].
    apply Z.eqb_neq in E. injection Hloop as <-.
    exists x, (Z.of_nat (length val)). split; [congruence | reflexivity].
Qed.

Lemma iterpars_loop_uniform (k : nat) (n0 : option Z)
      (items : list (string * list pyval)) :
  (forall kv, In kv items -> length (snd kv) = k) ->
  n0 = None \/ n0 = Some (Z.of_nat k) ->
  items <> [] ->
  iterpars_loop n0 items = Ok (Some (Z.of_nat k)).
Proof.
  revert n0. induction items as [|[key val] rest IH]; intros n0 Hall Hn0 Hne;
    [congruence|].
  simpl. assert (Hval : length val = k) by (apply (Hall (key, val)); now left).
  rewrite Hval.
  assert (Hrest : iterpars_loop (Some (Z.of_nat k)) rest = Ok (Some (Z.of_nat k))).
  { destruct rest as [|kv rest']; [reflexivity|].
    apply IH; [|now right|discriminate].
    intros kv' Hin. apply Hall. now right. }
  destruct Hn0 as [-> | ->]; [exact Hrest|].
  now rewrite Z.eqb_refl.
Qed.

Lemma collect_length {A} (rs : list (result A)) (l : list A) :
  collect rs = Ok l -> length l = length rs.
Proof.
  revert l. induction rs as [|[a|e] rs IH]; simpl; intros l Hc.
  - now injection Hc as <-.
  - destruct (collect rs) as [l'|e]; [|discriminate].
    injection Hc as <-. simpl. now rewrite (IH l').
  - discriminate.
Qed.

Lemma parallelize_length (jobs : list (M' loc)) (w w' : World') sims :
  parallelize jobs w = (Ok sims, w') -> length sims = length jobs.
Proof.
  unfold parallelize.
  destruct (collect (map fst (map (run_job w) jobs))) as [l|e] eqn:Hc;
    [|discriminate].
  intros [= <- _]. rewrite length_seq.
  apply collect_length in Hc. now rewrite Hc, !length_map.
Qed.

(** C6.  With a non-empty [iterpars]: when all sequences have one length
    [k], the number of runs is [k] whatever [n] was passed (the loop
    yields [k], the runs dispatched are those of the indices [0 .. k-1],
    and [k] engines come back); when two sequences differ in
    length, [multi_run] fails with InconsistentIterationLength and the
    state is untouched, so that no run has been started. *)
Theorem c6_iterpars_common_length
        (w : World') (sim : loc) (n : Z) (noise noisepar verbose : pyval)
        (items : list (string * list pyval)) (combine : bool) :
  items <> [] ->
  (forall k : nat,
      (forall kv, In kv items -> length (snd kv) = k) ->
      iterpars_loop None items = Ok (Some (Z.of_nat k))
      /\ multi_run suggest seed_rng normal run sim n noise noisepar
                   (Some items) verbose combine w
         = (let* sims :=
              parallelize
                (map (fun i =>
                        call_single_run
                          suggest seed_rng normal run sim noise noisepar
                          verbose
                          (iterdict
                             (dict_update
                                [("ind",
                                  map (fun j => VInt (Z.of_nat j)) (seq 0 k))]
                                items) i))
                     (seq 0 k)) in
            if negb combine then ret (OutSims sims)
            else let* output_sim :=
                   combine_sims sims (Z.of_nat k) in
                 ret (OutSim output_sim)) w
      /\ forall sims w',
          multi_run suggest seed_rng normal run sim n noise noisepar
                    (Some items) verbose false w = (Ok (OutSims sims), w') ->
          length sims = k)
  /\ ((exists kv1 kv2, In kv1 items /\ In kv2 items
                       /\ length (snd kv1) <> length (snd kv2)) ->
      exists e,
        multi_run suggest seed_rng normal run sim n noise noisepar
                  (Some items) verbose combine w = (Raise e, w)
        /\ InconsistentIterationLength e).
Proof.
  intros Hne. split.
  - intros k Hall.
    pose proof (iterpars_loop_uniform k None items Hall (or_introl eq_refl) Hne)
      as Hloop.
    split; [exact Hloop|]. split.
    { unfold multi_run.
      unfold lift at 1. unfold bind at 1. rewrite Hloop.
      unfold lift at 1. unfold bind at 1. simpl np_arange. cbv iota.
      now rewrite Nat2Z.id, length_map, length_seq. }
    intros sims w'. unfold multi_run.
    unfold lift at 1. unfold bind at 1. rewrite Hloop.
    unfold lift at 1. unfold bind at 1. simpl np_arange. cbv iota.
    unfold bind at 1.
    match goal with
    | |- context [parallelize ?ts w] =>
        pose proof (parallelize_length ts w) as Hlen;
        destruct (parallelize ts w) as [[l|e] w1]
    end; [|discriminate].
    simpl. intros [= <- _].
    rewrite (Hlen w1 l eq_refl).
    rewrite length_map, length_seq, length_map, length_seq.
    apply Nat2Z.id.
  - intros (kv1 & kv2 & H1 & H2 & Hdiff).
    destruct (iterpars_loop None items) as [n'|e] eqn:Hloop.
    + apply iterpars_loop_Ok in Hloop as [Hall _].
      pose proof (Hall kv1 H1) as E1. rewrite (Hall kv2 H2) in E1.
      injection E1 as E1. apply Nat2Z.inj in E1. congruence.
    + exists e. split.
      * unfold multi_run. apply bind_Raise. unfold lift. now rewrite Hloop.
      * apply iterpars_loop_Raise in Hloop as (a & b & _ & ->). exact I.
Qed.

(** *** The override loop and the merge of results *)


(** With a verbosity of 1 or more an override of a known key is written. *)
Lemma apply_kwargs_loud_one (w : World') (l : loc) (s : Sim')
      (verbose : pyval) (key : string) (val old : pyval) :
  heap w !! l = Some s ->
  py_ge_int verbose 1 = Ok true ->
  dict_get key (pars s) = Some old ->
  apply_kwargs suggest l verbose [(key, val)] w =
  (Ok tt,
   mkWorld (<[l := set_pars s (dict_set key val (pars s))]> (heap w)) (rng w)
           (out w ++ [LProcessing key val; LSetting key old val])).
Proof.
  intros Hl Hloud Hold. simpl.
  unfold print at 1. unfold bind at 1.
  set (w1 := set_out w (out w ++ [LProcessing key val])).
  assert (Hl1 : heap w1 !! l = Some s) by exact Hl.
  rewrite (bind_Ok _ _ _ _ _ (sim_read_Some _ _ _ Hl1)).
  assert (Hmem : dict_mem key (pars s) = true).
  { apply dict_mem_true. now exists old. }
  rewrite Hmem. unfold lift at 1. unfold bind at 1. unfold bind at 1.
  rewrite Hloud.
  rewrite (bind_Ok _ _ _ _ _ (Sim_getitem_present _ _ _ _ _ Hl1 Hold)).
  unfold print at 1. unfold bind at 1.
  set (w2 := set_out w1 (out w1 ++ [LSetting key old val])).
  assert (Hl2 : heap w2 !! l = Some s) by exact Hl.
  rewrite (Sim_setitem_present _ _ _ _ val Hl2 Hmem).
  unfold ret, w2, w1, set_out, set_heap. simpl. now rewrite <- app_assoc.
Qed.


(** A [Result] on the left of [+=] raises, whatever is on the right. *)
Lemma res_iadd_Result (r : Result) (x : resval) :
  res_iadd (RResult r) x = Raise (TypeError_result_operand "+=").
Proof. reflexivity. Qed.

(** The merge of a series that is stored as a [Result] stops at the
    first key, before anything is written. *)
Lemma merge_results_Result_fails (w : World') (output_sim sim : loc)
      (o s : Sim') (key : string) (rest : list string)
      (ores sres : list (string * resval)) (r : Result) (x : resval) :
  heap w !! output_sim = Some o ->
  heap w !! sim = Some s ->
  results o = Some ores -> dict_get key ores = Some (RResult r) ->
  results s = Some sres -> dict_get key sres = Some x ->
  merge_results output_sim sim (key :: rest) w =
  (Raise (TypeError_result_operand "+="), w).
Proof.
  intros Ho Hs Hores Hlhs Hsres Hrhs. simpl.
  rewrite (bind_Ok _ _ _ _ _ (sim_read_Some _ _ _ Ho)). rewrite Hores.
  unfold attr at 1, ret at 1. unfold bind at 1.
  unfold lookup_or_raise at 1. rewrite Hlhs. unfold ret at 1. unfold bind at 1.
  rewrite (bind_Ok _ _ _ _ _ (sim_read_Some _ _ _ Hs)). rewrite Hsres.
  unfold attr at 1, ret at 1. unfold bind at 1.
  unfold lookup_or_raise at 1. rewrite Hrhs. unfold ret at 1. unfold bind at 1.
  reflexivity.
Qed.

End StoreFacts.

(** ** The claims on the concrete instance *)

Import Demo.

(** C1 (the code departs from the claim).  Two runs of the toy model give
    series of eleven points that total 50 and 70; with [combine=True] the
    merge does not produce a series that totals 120: it raises a
    TypeError at the first [+=], because a [Result] has no addition. *)
Theorem c1_combine_raises_on_results :
  let separate :=
    multi_run demo_suggest demo_seed_rng demo_normal demo_run 0 2 (VFloat 0)
              VNone None VNone false demo_world in
  let merged :=
    multi_run demo_suggest demo_seed_rng demo_normal demo_run 0 2 (VFloat 0)
              VNone None VNone true demo_world in
  fst separate = Ok (OutSims [1; 2])
  /\ series_total (snd separate) 1 "new_infections" = Some (50 # 1)%Q
  /\ series_total (snd separate) 2 "new_infections" = Some (70 # 1)%Q
  /\ fst merged = Raise (TypeError_result_operand "+=").
Proof. vm_compute. repeat split. Qed.

(** C2 (the code departs from the claim).  With a verbosity of 0 an
    override of the existing parameter 'n_days' is not applied: the run
    keeps the template's value 10.  With a verbosity of 1 the same
    override is applied. *)
Theorem c2_override_dropped_when_quiet :
  let quiet :=
    single_run demo_suggest demo_seed_rng demo_normal demo_run (RSim 0)
               (VInt 0) (VFloat 0) VNone (VInt 0) [("n_days", VInt 30)]
               demo_world in
  let loud :=
    single_run demo_suggest demo_seed_rng demo_normal demo_run (RSim 0)
               (VInt 0) (VFloat 0) VNone (VInt 1) [("n_days", VInt 30)]
               demo_world in
  fst quiet = Ok 1
  /\ param (snd quiet) 1 "n_days" = Some (VInt 10)
  /\ fst loud = Ok 1
  /\ param (snd loud) 1 "n_days" = Some (VInt 30).
Proof. vm_compute. repeat split. Qed.

Lemma c3_witness :
  let kwargs := [("n_days", VInt 30); ("seed", VInt 99)] in
  let setup :=
    single_run_setup demo_suggest demo_seed_rng demo_normal (RSim 0) (VInt 1)
                     (VFloat (1 # 2)) VNone VNone kwargs demo_world in
  heap demo_world !! 0 = Some demo_sim
  /\ dict_get "seed" (pars demo_sim) = Some (VInt 5)
  /\ fst setup = Ok (1, VInt 0)
  /\ exists engine,
      heap (snd setup) !! 1 = Some engine
      /\ dict_get "seed" (pars engine) = Some (VInt (5 + 1))
      /\ rng (snd setup) = snd (demo_normal (demo_seed_rng (VInt (5 + 1))))
      /\ single_run demo_suggest demo_seed_rng demo_normal demo_run (RSim 0)
                    (VInt 1) (VFloat (1 # 2)) VNone VNone kwargs demo_world
         = (let o := demo_run engine (VInt 0)
                              (snd (demo_normal (demo_seed_rng (VInt (5 + 1)))))
            in
            (match ro_exn o with
             | Some e => Raise e
             | None => Ok 1
             end,
             mkWorld (<[1 := ro_sim o]> (heap (snd setup))) (ro_rng o)
                     (out (snd setup) ++ ro_out o))).
Proof.
  intros kwargs setup.
  split; [reflexivity|]. split; [reflexivity|]. split; [reflexivity|].
  refine (proj1 (c3_run_gets_base_plus_index
                   demo_suggest demo_seed_rng demo_normal demo_run
                   demo_world (snd setup) 0 1 demo_sim 5 1
                   (VFloat (1 # 2)) VNone VNone (VInt 0) kwargs
                   eq_refl eq_refl _ _ _)).
  - discriminate.
  - intros _. reflexivity.
  - vm_compute. reflexivity.
Defined.

(** Where the seed handed to [run] is not [base + i]: an override of
    'seed' at a verbosity of 1 replaces it, and noise on the parameter
    'seed' scales it. *)
Example seed_override_reaches_run :
  let outcome :=
    single_run demo_suggest demo_seed_rng demo_normal demo_run (RSim 0)
               (VInt 1) (VFloat 0) VNone (VInt 1) [("seed", VInt 99)]
               demo_world in
  fst outcome = Ok 1
  /\ param (snd outcome) 1 "seed" = Some (VInt 99).
Proof. vm_compute. split; reflexivity. Qed.

Example noise_on_seed_reaches_run :
  let outcome :=
    single_run demo_suggest demo_seed_rng demo_normal demo_run (RSim 0)
               (VInt 1) (VFloat (1 # 2)) (VStr "seed") (VInt 0) []
               demo_world in
  fst outcome = Ok 1
  /\ param (snd outcome) 1 "seed" <> Some (VInt (5 + 1)).
Proof. vm_compute. split; [reflexivity | discriminate]. Qed.

Lemma c4_witness :
  let seeded :=
    mkWorld [demo_sim;
             set_pars demo_sim (dict_set "seed" (VInt 6) (pars demo_sim))]
            (demo_seed_rng (VInt 6)) [] in
  heap demo_world !! 0 = Some demo_sim
  /\ verbosity_in_force VNone (pars demo_sim) = Some (VInt 0)
  /\ dict_get "seed" (pars demo_sim) = Some (VInt 5)
  /\ py_add (VInt 5) (VInt 1) = Ok (VInt 6)
  /\ guess_noisepar 0 VNone seeded = (Ok (VStr "beta"), seeded)
  /\ single_run_setup demo_suggest demo_seed_rng demo_normal (RSim 0)
                      (VInt 1) (VFloat (1 # 2)) VNone VNone [] demo_world
     = perturb_and_override demo_suggest demo_normal 1 (VFloat (1 # 2))
                            (VStr "beta") (VInt 0) [] seeded
  /\ single_run demo_suggest demo_seed_rng demo_normal demo_run (RSim 0)
                (VInt 1) (VFloat (1 # 2)) VNone VNone [] demo_world
     = single_run demo_suggest demo_seed_rng demo_normal demo_run (RSim 0)
                  (VInt 1) (VFloat (1 # 2)) (VStr "beta") VNone [] demo_world.
Proof.
  intros seeded.
  split; [reflexivity|]. split; [reflexivity|]. split; [reflexivity|].
  split; [reflexivity|].
  refine (proj1 (c4_noise_parameter_detection
                   demo_suggest demo_seed_rng demo_normal demo_run demo_world 0
                   demo_sim (VInt 1) (VFloat (1 # 2)) VNone (VInt 0) (VInt 5)
                   (VInt 6) [] eq_refl eq_refl eq_refl eq_refl)
                "beta" _ eq_refl _).
  - simpl. tauto.
  - intros g' [<- | [<- | [<- | []]]]; simpl; intros H;
      [discriminate H | discriminate H | reflexivity].
Defined.

(** C4 as the specification words it fails: a template without 'seed'
    and without any candidate makes [single_run] fail at the seed, with
    the KeyError of the lookup, before the detection is reached. *)
Lemma c4_counterexample :
  ~ ambiguity_reported demo_suggest demo_seed_rng demo_normal demo_run
                       demo_unseeded_world 0 (VInt 0) (VFloat 0) VNone [].
Proof.
  intros H.
  destruct (H demo_unseeded_sim eq_refl) as (e & w' & Hrun & Hamb).
  - vm_compute. discriminate.
  - vm_compute in Hrun. injection Hrun as <- _. exact Hamb.
Qed.

Lemma c5_witness :
  let v := noiseval_double 0.5 (-0.5) in
  (0 <? v)%float = false
  /\ is_finite v = true
  /\ noisefactor_double v = Some (1 / (1 - v))%float
  /\ strictly_positive_factor v.
Proof.
  intros v. split; [reflexivity|]. split; [reflexivity|].
  destruct (c5_noisefactor_double v) as (_ & Hneg & Hiff & _).
  split; [apply Hneg; reflexivity | apply Hiff; left; reflexivity].
Defined.

Lemma c6_witness :
  [("a", [VInt 1; VInt 2]); ("b", [VInt 1; VInt 2; VInt 3])] <> []
  /\ exists e,
      multi_run demo_suggest demo_seed_rng demo_normal demo_run 0 4 (VFloat 0)
                VNone
                (Some [("a", [VInt 1; VInt 2]); ("b", [VInt 1; VInt 2; VInt 3])])
                VNone false demo_world
      = (Raise e, demo_world)
      /\ InconsistentIterationLength e.
Proof.
  split; [discriminate|].
  refine (proj2 (c6_iterpars_common_length
                   demo_suggest demo_seed_rng demo_normal demo_run demo_world 0
                   4 (VFloat 0) VNone VNone
                   [("a", [VInt 1; VInt 2]); ("b", [VInt 1; VInt 2; VInt 3])]
                   false _) _).
  - discriminate.
  - exists ("a", [VInt 1; VInt 2]), ("b", [VInt 1; VInt 2; VInt 3]).
    simpl. repeat split; [tauto | tauto | lia].
Defined.

Lemma c7_witness :
  heap demo_world !! 0 = Some demo_sim
  /\ (exists w',
        Sim_setitem demo_suggest 0 "beta" (VFloat (1 # 10)) demo_world
        = (Ok tt, w')
        /\ Sim_getitem 0 (VStr "beta") w' = (Ok (VFloat (1 # 10)), w'))
  /\ (exists e,
        Sim_setitem demo_suggest 0 "bta" (VFloat (1 # 10)) demo_world
        = (Raise e, demo_world)
        /\ UnknownParameter e).
Proof.
  split; [reflexivity|]. split.
  - exact (proj1 (c7_set_get_roundtrip demo_suggest demo_world 0 demo_sim
                                       "beta" (VFloat (1 # 10)) eq_refl)
                 eq_refl).
  - exact (proj2 (c7_set_get_roundtrip demo_suggest demo_world 0 demo_sim
                                       "bta" (VFloat (1 # 10)) eq_refl)
                 eq_refl).
Defined.

(** C8 as the specification words it fails: on the store of the toy
    model, [get('bta')] raises the bare [KeyError('bta')] although
    'beta' is a near match. *)
Lemma c8_counterexample :
  ~ get_reports_suggestion demo_suggest demo_pars "bta".
Proof.
  intros H. specialize (H eq_refl). vm_compute in H. discriminate H.
Qed.

Lemma c8_witness :
  dict_get "bta" demo_pars = None
  /\ ParsObj_getitem demo_pars (VStr "bta") = Raise (KeyError_lookup (VStr "bta"))
  /\ setitem_error demo_suggest demo_pars "bta" = KeyError_suggest "bta" "beta".
Proof.
  pose proof (proj2 (c8_get_plain_lookup demo_suggest demo_pars "bta") eq_refl)
    as (Hget & _ & _ & Hnear & _).
  split; [reflexivity|]. split; [exact Hget|].
  refine (Hnear "beta" eq_refl _). discriminate.
Defined.

Lemma c9_witness :
  heap demo_world !! 0 = Some demo_sim
  /\ exists e,
      Sim_update_pars 0 (ADict [("beta", VFloat (1 # 10)); ("oops", VInt 1)])
                      false demo_world
      = (Raise e, demo_world)
      /\ UnknownParameter e.
Proof.
  split; [reflexivity|].
  refine (proj1 (c9_update_validates_first
                   demo_world 0 demo_sim
                   [("beta", VFloat (1 # 10)); ("oops", VInt 1)] eq_refl) _).
  exists "oops". split; [simpl; tauto | reflexivity].
Defined.

Lemma c10_witness :
  heap (snd (single_run demo_suggest demo_seed_rng demo_normal demo_run
                        (RSim 0) (VInt 1) (VFloat (1 # 2)) VNone VNone
                        [("n_days", VInt 30)] demo_world)) !! 0
  = Some demo_sim.
Proof.
  exact (proj1 (proj2 (c10_template_left_unchanged
                         demo_suggest demo_seed_rng demo_normal demo_run
                         demo_world 0 (VInt 1) (VFloat (1 # 2)) VNone VNone
                         [("n_days", VInt 30)]))
               demo_sim eq_refl).
Defined.

(** * Further properties of the module *)

(** ** The parameter store: the key set is closed *)

Section MoreDictFacts.

Context {V : Type}.
Implicit Types (d m : list (string * V)) (k : string) (v : V).

Lemma keys_set_absent k v d :
  dict_mem k d = false -> keys (dict_set k v d) = keys d ++ [k].
Proof.
  unfold dict_mem, keys. induction d as [|[k' v'] d IH]; simpl.
  - reflexivity.
  - destruct (String.eqb k k') eqn:E; simpl; [discriminate|].
    intros H. now rewrite IH.
Qed.

Lemma keys_set_extends k v d : exists tl, keys (dict_set k v d) = keys d ++ tl.
Proof.
  destruct (dict_mem k d) eqn:E.
  - exists []. rewrite app_nil_r. now apply keys_set_present.
  - exists [k]. now apply keys_set_absent.
Qed.

Lemma keys_update_extends d m : exists tl, keys (dict_update d m) = keys d ++ tl.
Proof.
  unfold dict_update. revert d.
  induction m as [|[k v] m IH]; simpl; intros d.
  - exists []. now rewrite app_nil_r.
  - destruct (IH (dict_set k v d)) as [tl2 H2].
    destruct (keys_set_extends k v d) as [tl1 H1].
    exists (tl1 ++ tl2). rewrite H2, H1. now rewrite app_assoc.
Qed.

Lemma keys_update_known d m :
  (forall k, In k (keys m) -> dict_mem k d = true) ->
  keys (dict_update d m) = keys d.
Proof.
  unfold dict_update. revert d.
  induction m as [|[k v] m IH]; simpl; intros d Hall; [reflexivity|].
  rewrite IH.
  - apply keys_set_present. apply Hall. now left.
  - intros k' Hk'. rewrite dict_mem_set. rewrite (Hall k') by now right.
    apply orb_true_r.
Qed.

Lemma dict_mem_update_l k d m :
  dict_mem k d = true -> dict_mem k (dict_update d m) = true.
Proof.
  unfold dict_update. revert d.
  induction m as [|[k' v'] m IH]; simpl; intros d Hk; [exact Hk|].
  apply IH. rewrite dict_mem_set, Hk. apply orb_true_r.
Qed.

Lemma dict_mem_update_r k d m :
  In k (keys m) -> dict_mem k (dict_update d m) = true.
Proof.
  unfold dict_update. revert d.
  induction m as [|[k' v'] m IH]; simpl; intros d Hin; [tauto|].
  destruct Hin as [-> | Hin].
  - apply (dict_mem_update_l k (dict_set k v' d) m).
    rewrite dict_mem_set, String.eqb_refl. reflexivity.
  - now apply IH.
Qed.

End MoreDictFacts.

Section MoreStoreFacts.

Context {Person rng_state : Type}.

Variable suggest : string -> list string -> option string.
Variable seed_rng : pyval -> rng_state.
Variable normal : rng_state -> Q * rng_state.
Variable run : Sim Person -> pyval -> rng_state -> @RunOutcome Person rng_state.

Abbreviation SimT := (Sim Person).
Abbreviation WorldT := (World Person rng_state).
Abbreviation MT := (M Person rng_state).

(** X1.  Whatever its outcome, [sim[key] = value] leaves the engine with
    the same parameter names in the same order, and with the same value
    under every name other than [key]. *)
Theorem x1_setitem_closed_key_set
        (w : WorldT) (l : loc) (s : SimT) (key : string) (value : pyval) :
  heap w !! l = Some s ->
  exists s',
    heap (snd (Sim_setitem suggest l key value w)) !! l = Some s'
    /\ keys (pars s') = keys (pars s)
    /\ forall k, k <> key -> dict_get k (pars s') = dict_get k (pars s).
Proof.
  intros Hl. destruct (dict_mem key (pars s)) eqn:Hk.
  - rewrite (Sim_setitem_present suggest l s w key value Hl Hk). simpl.
    eexists. split; [eapply lookup_written, Hl|]. simpl. split.
    + now apply keys_set_present.
    + intros k Hne. apply dict_get_set_ne. congruence.
  - rewrite (Sim_setitem_absent suggest l s w key value Hl Hk). simpl.
    exists s. auto.
Qed.

(** X2.  [update_pars(m)] on a constructed engine never removes or
    reorders a parameter: with [create=False] the names are exactly the
    same after the call, whether it succeeds or raises; with
    [create=True] the old names are a prefix of the new ones and every
    key of [m] is a name afterwards. *)
Theorem x2_update_pars_key_set
        (w : WorldT) (l : loc) (s : SimT) (m : dict) :
  heap w !! l = Some s ->
  (exists s',
      heap (snd (Sim_update_pars l (ADict m) false w)) !! l = Some s'
      /\ keys (pars s') = keys (pars s))
  /\ (exists s' added,
         heap (snd (Sim_update_pars l (ADict m) true w)) !! l = Some s'
         /\ keys (pars s') = keys (pars s) ++ added
         /\ forall k, In k (keys m) -> dict_mem k (pars s') = true).
Proof.
  intros Hl. split.
  - rewrite (Sim_update_pars_unfold l s w (ADict m) false Hl). simpl.
    destruct (List.filter _ (keys m)) as [|k0 ks] eqn:Hf; simpl.
    + eexists. split; [simpl; eapply lookup_written, Hl|]. simpl.
      apply keys_update_known. intros k Hin.
      destruct (dict_mem k (pars s)) eqn:Hk; [reflexivity|].
      assert (Hin' : In k (List.filter
                             (fun key => negb (key_in key (keys (pars s))))
                             (keys m))).
      { apply filter_In. split; [exact Hin|].
        now rewrite <- dict_mem_key_in, Hk. }
      rewrite Hf in Hin'. destruct Hin'.
    + exists s. auto.
  - rewrite (Sim_update_pars_unfold l s w (ADict m) true Hl). simpl.
    destruct (keys_update_extends (pars s) m) as [added Hadded].
    eexists. exists added.
    split; [simpl; eapply lookup_written, Hl|]. simpl.
    split; [exact Hadded|]. intros k Hin. now apply dict_mem_update_r.
Qed.

(** ** set_seed *)

(** X3.  [set_seed(seed)] on an engine that has a 'seed' parameter stores
    the seed and resets the stream from it; a following [set_seed()]
    reuses the stored seed and leaves the whole state exactly as it is,
    so the stream is reset to the same point again. *)
Theorem x3_set_seed_stored_and_reused
        (w : WorldT) (l : loc) (s : SimT) (seed : pyval) :
  heap w !! l = Some s ->
  dict_mem "seed" (pars s) = true ->
  seed <> VNone ->
  exists w1,
    set_seed suggest seed_rng l seed false w = (Ok tt, w1)
    /\ param w1 l "seed" = Some seed
    /\ rng w1 = seed_rng seed
    /\ set_seed suggest seed_rng l VNone false w1 = (Ok tt, w1).
Proof.
  intros Hl Hmem Hseed.
  set (s1 := set_pars s (dict_set "seed" seed (pars s))).
  set (w0 := set_heap w (<[l := s1]> (heap w))).
  exists (set_rng w0 (seed_rng seed)).
  assert (Hset : Sim_setitem suggest l "seed" seed w = (Ok tt, w0))
    by (now apply Sim_setitem_present).
  assert (Hl1 : heap w0 !! l = Some s1) by (simpl; eapply lookup_written, Hl).
  assert (Hget : dict_get "seed" (pars s1) = Some seed) by apply dict_get_set_eq.
  split.
  { unfold set_seed. destruct seed; try congruence;
      rewrite (bind_Ok _ _ _ _ _ (bind_Ok _ _ _ _ _ Hset)); reflexivity. }
  split; [unfold param; simpl; rewrite (lookup_written _ _ _ _ Hl); exact Hget|].
  split; [reflexivity|].
  unfold set_seed.
  assert (Hl2 : heap (set_rng w0 (seed_rng seed)) !! l = Some s1) by exact Hl1.
  now rewrite (bind_Ok _ _ _ _ _ (Sim_getitem_present _ _ _ _ _ Hl2 Hget)).
Qed.

(** X4.  [set_seed] fails without touching anything, the random stream
    included: with a seed together with [randomize=True] it raises the
    ValueError; on an engine without a 'seed' parameter it raises a
    KeyError, with or without a seed argument. *)
Theorem x4_set_seed_failures
        (w : WorldT) (l : loc) (s : SimT) (seed : pyval) :
  heap w !! l = Some s ->
  (seed <> VNone ->
   set_seed suggest seed_rng l seed true w = (Raise ValueError_seed_randomize, w))
  /\ (dict_get "seed" (pars s) = None ->
      exists e, set_seed suggest seed_rng l seed false w = (Raise e, w)
                /\ exn_class e = KeyError).
Proof.
  intros Hl. split.
  - intros Hseed. unfold set_seed. destruct seed; try congruence; reflexivity.
  - intros Hnone.
    assert (Hmem : dict_mem "seed" (pars s) = false) by now apply dict_mem_false.
    pose proof (Sim_setitem_absent suggest l s w "seed" seed Hl Hmem) as Hset.
    pose proof (Sim_getitem_absent l s w "seed" Hl Hnone) as Hget.
    destruct seed.
    + exists (KeyError_lookup (VStr "seed")). split; [|reflexivity].
      unfold set_seed. now rewrite (bind_Raise _ _ _ _ _ Hget).
    + exists (setitem_error suggest (pars s) "seed").
      split; [|apply setitem_error_class].
      unfold set_seed.
      now rewrite (bind_Raise _ _ _ _ _ (bind_Raise _ _ _ _ _ Hset)).
    + exists (setitem_error suggest (pars s) "seed").
      split; [|apply setitem_error_class].
      unfold set_seed.
      now rewrite (bind_Raise _ _ _ _ _ (bind_Raise _ _ _ _ _ Hset)).
    + exists (setitem_error suggest (pars s) "seed").
      split; [|apply setitem_error_class].
      unfold set_seed.
      now rewrite (bind_Raise _ _ _ _ _ (bind_Raise _ _ _ _ _ Hset)).
Qed.

End MoreStoreFacts.

(** ** The noise factor without noise *)

Section ZeroNoise.

Local Open Scope Z_scope.

(** X6.  With [noise = 0.0] the perturbation is a zero and the factor is
    exactly [1.0], whatever finite value is drawn. *)
Theorem x6_zero_noise_factor_one (draw : float) :
  is_finite draw = true ->
  noisefactor_double (noiseval_double 0 draw) = Some 1%float.
Proof.
  intros Hf. unfold noiseval_double.
  assert (Hz : exists s, Prim2SF (0 * draw)%float = S754_zero s).
  { rewrite FloatAxioms.mul_spec. change (Prim2SF 0) with (S754_zero false).
    destruct (is_finite_cases draw Hf) as [(s & ->)|(s & m & e & ->)];
      simpl; eauto. }
  destruct Hz as [s Hz].
  assert (Hlt : (0 <? 0 * draw)%float = false).
  { rewrite FloatAxioms.ltb_spec, Hz. reflexivity. }
  assert (Hsub : (1 - 0 * draw)%float = 1%float).
  { apply Prim2SF_inj. rewrite FloatAxioms.sub_spec, Hz. reflexivity. }
  unfold noisefactor_double. rewrite Hlt, Hsub. reflexivity.
Qed.

End ZeroNoise.

(** ** Result: a series of fixed length *)

Section ResultFacts.

Lemma norm_index_nonneg (n : nat) (i : Z) :
  (0 <= i < Z.of_nat n)%Z -> norm_index n i = Some (Z.to_nat i).
Proof.
  intros [H0 Hn]. unfold norm_index.
  apply Z.leb_le in H0. apply Z.ltb_lt in Hn. now rewrite H0, Hn.
Qed.

Lemma norm_index_neg (n : nat) (i : Z) :
  (- Z.of_nat n <= i < 0)%Z ->
  norm_index n i = Some (Z.to_nat (i + Z.of_nat n)).
Proof.
  intros [Hn H0]. unfold norm_index.
  assert (E : (0 <=? i)%Z = false) by (apply Z.leb_gt; lia).
  apply Z.leb_le in Hn. now rewrite E, Hn.
Qed.

Lemma norm_index_out (n : nat) (i : Z) :
  (Z.of_nat n <= i \/ i < - Z.of_nat n)%Z -> norm_index n i = None.
Proof.
  intros H. unfold norm_index.
  destruct (0 <=? i)%Z eqn:E0.
  - apply Z.leb_le in E0.
    assert (E : (i <? Z.of_nat n)%Z = false) by (apply Z.ltb_ge; lia).
    now rewrite E.
  - apply Z.leb_gt in E0.
    assert (E : (- Z.of_nat n <=? i)%Z = false) by (apply Z.leb_gt; lia).
    now rewrite E.
Qed.

Lemma norm_index_Some (n : nat) (i : Z) (j : nat) :
  norm_index n i = Some j -> j < n /\ (- Z.of_nat n <= i < Z.of_nat n)%Z.
Proof.
  unfold norm_index.
  destruct (0 <=? i)%Z eqn:E0.
  - destruct (i <? Z.of_nat n)%Z eqn:E1; [|discriminate].
    apply Z.leb_le in E0. apply Z.ltb_lt in E1. intros [= <-]. lia.
  - destruct (- Z.of_nat n <=? i)%Z eqn:E1; [|discriminate].
    apply Z.leb_gt in E0. apply Z.leb_le in E1. intros [= <-]. lia.
Qed.

Lemma norm_index_in_range (n : nat) (i : Z) :
  (- Z.of_nat n <= i < Z.of_nat n)%Z -> exists j, norm_index n i = Some j /\ j < n.
Proof.
  intros H. destruct (Z.le_gt_cases 0 i).
  - exists (Z.to_nat i). split; [apply norm_index_nonneg|]; lia.
  - exists (Z.to_nat (i + Z.of_nat n)). split; [apply norm_index_neg|]; lia.
Qed.

Lemma lookup_repeat {A} (x : A) (n j : nat) : j < n -> repeat x n !! j = Some x.
Proof.
  revert j. induction n as [|n IH]; intros j Hj; [lia|].
  destruct j as [|j]; simpl; [reflexivity|]. apply IH. lia.
Qed.

Lemma Result_getitem_at (r : Result) (i : Z) (j : nat) :
  norm_index (npts r) i = Some j -> Result_getitem r i = match values r !! j with
                                                         | Some x => Ok x
                                                         | None => Raise IndexError
                                                         end.
Proof. unfold Result_getitem. now intros ->. Qed.

(** X7.  A [Result] created from a point count [n] has [npts = n] and
    reads 0 at every position, counted from either end; any other
    position raises IndexError.  Without values and without a count it is
    empty. *)
Theorem x7_Result_zero_filled
        (nm : option string) (n : nat) (sc pct : bool) :
  let r := Result_init nm None (Some n) sc pct in
  npts r = n
  /\ (forall i : Z, (- Z.of_nat n <= i < Z.of_nat n)%Z ->
                    Result_getitem r i = Ok 0%Q)
  /\ (forall i : Z, (Z.of_nat n <= i \/ i < - Z.of_nat n)%Z ->
                    Result_getitem r i = Raise IndexError)
  /\ npts (Result_init nm None None sc pct) = 0.
Proof.
  intros r.
  assert (Hn : npts r = n) by (unfold npts; simpl; apply repeat_length).
  split; [exact Hn|]. repeat split.
  - intros i Hi. rewrite <- Hn in Hi.
    destruct (norm_index_in_range _ _ Hi) as [j [Hj Hlt]].
    rewrite (Result_getitem_at r i j Hj). simpl.
    rewrite lookup_repeat; [reflexivity | lia].
  - intros i Hi. unfold Result_getitem. rewrite Hn.
    now rewrite norm_index_out.
Qed.

(** X8.  Writing at a position inside the series keeps its length and its
    name and flags, is read back at that position, and changes no other
    position. *)
Theorem x8_Result_set_get (r : Result) (i : Z) (x : Q) :
  (- Z.of_nat (npts r) <= i < Z.of_nat (npts r))%Z ->
  exists r',
    Result_setitem r i x = Ok r'
    /\ npts r' = npts r
    /\ name r' = name r /\ scale r' = scale r
    /\ ispercentage r' = ispercentage r
    /\ Result_getitem r' i = Ok x
    /\ forall k : Z,
        norm_index (npts r) k <> norm_index (npts r) i ->
        Result_getitem r' k = Result_getitem r k.
Proof.
  intros Hi. destruct (norm_index_in_range _ _ Hi) as [j [Hj Hlt]].
  unfold Result_setitem. rewrite Hj. eexists. split; [reflexivity|].
  assert (Hn : npts (mkResult (name r) (<[j := x]> (values r)) (scale r)
                              (ispercentage r)) = npts r).
  { unfold npts. simpl. apply length_insert. }
  split; [exact Hn|]. repeat split.
  - unfold Result_getitem. rewrite Hn, Hj. simpl.
    rewrite list_lookup_insert_eq; [reflexivity | exact Hlt].
  - intros k Hk. unfold Result_getitem. rewrite Hn.
    destruct (norm_index (npts r) k) as [jk|] eqn:Ek; [|reflexivity].
    simpl. rewrite list_lookup_insert_ne; [reflexivity|]. congruence.
Qed.

(** X9.  A position outside the series raises IndexError on reading and
    on writing alike; inside it, the negative position [i] is the same
    element as [i + npts]. *)
Theorem x9_Result_index_bounds (r : Result) (i : Z) (x : Q) :
  ((Z.of_nat (npts r) <= i \/ i < - Z.of_nat (npts r))%Z ->
   Result_getitem r i = Raise IndexError
   /\ Result_setitem r i x = Raise IndexError)
  /\ ((- Z.of_nat (npts r) <= i < 0)%Z ->
      Result_getitem r i = Result_getitem r (i + Z.of_nat (npts r))
      /\ Result_setitem r i x = Result_setitem r (i + Z.of_nat (npts r)) x).
Proof.
  split.
  - intros Hi. unfold Result_getitem, Result_setitem.
    now rewrite norm_index_out.
  - intros Hi. unfold Result_getitem, Result_setitem.
    rewrite (norm_index_neg _ _ Hi).
    rewrite (norm_index_nonneg _ (i + Z.of_nat (npts r))) by lia.
    split; reflexivity.
Qed.

Lemma slice_bound_le (n default : nat) (b : option Z) :
  default <= n -> slice_bound n default b <= n.
Proof.
  intros Hd. unfold slice_bound. destruct b as [z|]; [|exact Hd].
  destruct (z <? 0)%Z eqn:E; [|lia].
  apply Z.ltb_lt in E. lia.
Qed.

(** X10.  [r[start:stop] = x] keeps the length of the series, writes [x]
    at the positions from the lower bound up to the upper bound and
    leaves the others as they were; the bounds are clipped to the
    series, an omitted bound is its end. *)
Theorem x10_Result_slice_assign
        (r : Result) (start stop : option Z) (x : Q) (j : nat) :
  j < npts r ->
  let lo := slice_bound (npts r) 0 start in
  let hi := slice_bound (npts r) (npts r) stop in
  let r' := Result_setslice r start stop x in
  npts r' = npts r
  /\ lo <= npts r /\ hi <= npts r
  /\ (lo <= j < hi -> values r' !! j = Some x)
  /\ (~ (lo <= j < hi) -> values r' !! j = values r !! j).
Proof.
  intros Hj lo hi r'.
  assert (Hlo : lo <= npts r) by (apply slice_bound_le; lia).
  assert (Hhi : hi <= npts r) by (apply slice_bound_le; lia).
  unfold npts in *.
  assert (Htake : length (take lo (values r)) = lo)
    by (rewrite length_take; lia).
  split.
  { unfold r', Result_setslice, npts. simpl. fold lo hi.
    rewrite !length_app, Htake, repeat_length, length_drop. lia. }
  split; [exact Hlo|]. split; [exact Hhi|].
  unfold r', Result_setslice, npts. simpl. fold lo hi. split.
  - intros [H1 H2].
    rewrite lookup_app_r by lia. rewrite Htake.
    rewrite lookup_app_l by (rewrite repeat_length; lia).
    apply lookup_repeat. lia.
  - intros Hout. destruct (Nat.lt_ge_cases j lo) as [Hlt | Hge].
    + rewrite lookup_app_l by lia. now apply lookup_take_lt.
    + assert (Hjhi : hi <= j) by lia.
      rewrite lookup_app_r by lia. rewrite Htake.
      rewrite lookup_app_r by (rewrite repeat_length; lia).
      rewrite repeat_length, lookup_drop. f_equal. lia.
Qed.

End ResultFacts.

(** ** The derived properties of an engine *)

Section SimFacts.

Context {Person : Type}.

(** X11.  With an integer 'n_days' of at least -1, [npts] is
    [n_days + 1] and [tvec] has exactly that many points, the integers
    [0 .. n_days] in order; without an 'n_days' parameter both raise the
    KeyError of the lookup. *)
Theorem x11_npts_matches_tvec (pars : dict) :
  (forall d : Z,
      dict_get "n_days" pars = Some (VInt d) -> (-1 <= d)%Z ->
      Sim_npts pars = Ok (d + 1)%Z
      /\ exists tv,
          Sim_tvec pars = Ok tv
          /\ Z.of_nat (length tv) = (d + 1)%Z
          /\ forall i, i < length tv -> tv !! i = Some (VInt (Z.of_nat i)))
  /\ (dict_get "n_days" pars = None ->
      Sim_npts pars = Raise (KeyError_lookup (VStr "n_days"))
      /\ Sim_tvec pars = Raise (KeyError_lookup (VStr "n_days"))).
Proof.
  split.
  - intros d Hd Hge. unfold Sim_npts, Sim_tvec, ParsObj_getitem.
    rewrite Hd. simpl. split; [reflexivity|].
    eexists. split; [reflexivity|].
    rewrite length_map, length_seq. split; [lia|].
    intros i Hi. rewrite list_lookup_fmap, lookup_seq_lt by exact Hi.
    reflexivity.
  - intros Hnone. unfold Sim_npts, Sim_tvec, ParsObj_getitem.
    now rewrite Hnone.
Qed.

Lemma people_get_at (p : list (Z * Person)) (j : nat) (uid : Z) (person : Person) :
  NoDup (map fst p) -> p !! j = Some (uid, person) ->
  people_get uid p = Some person.
Proof.
  revert j. induction p as [|[k v] p IH]; intros j Hnd Hj; [discriminate|].
  apply NoDup_cons in Hnd as [Hnotin Hnd]. simpl.
  destruct j as [|j]; simpl in Hj.
  - injection Hj as -> ->. now rewrite Z.eqb_refl.
  - destruct (Z.eqb uid k) eqn:E.
    + apply Z.eqb_eq in E. subst k. exfalso. apply Hnotin.
      apply list_elem_of_lookup. exists j.
      change ((fst <$> p) !! j = Some uid).
      rewrite list_lookup_fmap, Hj. reflexivity.
    + eapply IH; eassumption.
Qed.

(** X13.  When [uids] lists the identifiers of the population in its
    order, [get_person(j)] is the agent at position [j], and
    [get_person(j - n)] is the same agent; an index outside the list of
    identifiers raises IndexError. *)
Theorem x13_get_person_by_position
        (s : Sim Person) (p : list (Z * Person)) :
  people s = Some p ->
  NoDup (map fst p) ->
  (forall (j : nat) (uid : Z) (person : Person),
      p !! j = Some (uid, person) ->
      get_person s (Some (map fst p)) (Z.of_nat j) = Ok person
      /\ get_person s (Some (map fst p)) (Z.of_nat j - Z.of_nat (length p))
         = Ok person)
  /\ (forall (uids : list Z) (ind : Z),
         (Z.of_nat (length uids) <= ind \/ ind < - Z.of_nat (length uids))%Z ->
         get_person s (Some uids) ind = Raise IndexError).
Proof.
  intros Hp Hnd. split.
  - intros j uid person Hj.
    assert (Hlt : j < length p) by (eapply lookup_lt_Some, Hj).
    assert (Huid : map fst p !! j = Some uid).
    { change (map fst p) with (fst <$> p).
      rewrite list_lookup_fmap, Hj. reflexivity. }
    pose proof (people_get_at p j uid person Hnd Hj) as Hget.
    unfold get_person. rewrite Hp, length_map.
    rewrite (norm_index_nonneg (length p) (Z.of_nat j)) by lia.
    rewrite (norm_index_neg (length p) (Z.of_nat j - Z.of_nat (length p))) by lia.
    replace (Z.of_nat j - Z.of_nat (length p) + Z.of_nat (length p))%Z
      with (Z.of_nat j) by lia.
    rewrite Nat2Z.id, Huid, Hget. split; reflexivity.
  - intros uids ind Hout. unfold get_person. rewrite Hp.
    now rewrite norm_index_out.
Qed.

Lemma resdict_loop_spec (pars : dict) (for_json : bool) (n : Z)
      (items : list (string * resval)) (acc : list (string * resdict_val)) :
  for_json = true \/ Sim_npts pars = Ok n ->
  exists out,
    resdict_loop pars for_json items acc = Ok out
    /\ (forall key v,
           dict_get key out = Some v ->
           dict_get key acc = Some v
           \/ exists res,
               In (key, res) items /\ v = DArray (series_values res)
               /\ (for_json = true
                   \/ Z.of_nat (length (series_values res)) = n))
    /\ (NoDup (keys items) ->
        forall key res,
          In (key, res) items ->
          for_json = true \/ Z.of_nat (length (series_values res)) = n ->
          dict_get key out = Some (DArray (series_values res)))
    /\ (forall key, ~ In key (keys items) -> dict_get key out = dict_get key acc).
Proof.
  intros Hmode. revert acc.
  induction items as [|[key res] rest IH]; intros acc; simpl.
  - exists acc. split; [reflexivity|]. split; [auto|]. split; [tauto | auto].
  - set (a := match res with RResult r => values r | RArray a => a end).
    assert (Ha : a = series_values res) by now destruct res.
    assert (Hkeep : exists keep : bool,
               (if for_json then Ok true
                else result_bind (Sim_npts pars)
                                 (fun n0 => Ok (Z.eqb (Z.of_nat (length a)) n0)))
               = Ok keep
               /\ (keep = true <->
                   for_json = true \/ Z.of_nat (length a) = n)).
    { destruct for_json.
      - exists true. split; [reflexivity | tauto].
      - destruct Hmode as [Hm | Hm]; [discriminate|]. rewrite Hm. simpl.
        eexists. split; [reflexivity|]. rewrite Z.eqb_eq.
        split; [tauto | intros [? | ?]; [discriminate | assumption]]. }
    destruct Hkeep as (keep & -> & Hkeep). simpl.
    destruct (IH (if keep then dict_set key (DArray a) acc else acc))
      as (out & Hout & H1 & H2 & H3).
    exists out. split; [exact Hout|]. split; [|split].
    + intros k v Hk. destruct (H1 k v Hk) as [Hacc | (r & Hin & Hv & Hlen)].
      * destruct keep eqn:Ek; [|now left].
        destruct (String.eqb_spec key k) as [-> | Hne].
        -- rewrite dict_get_set_eq in Hacc. injection Hacc as <-.
           right. exists res. rewrite <- Ha.
           split; [now left|]. split; [reflexivity|]. now apply Hkeep.
        -- rewrite dict_get_set_ne in Hacc by exact Hne. now left.
      * right. exists r. split; [now right | auto].
    + intros Hnd k r Hin Hlen.
      apply NoDup_cons in Hnd as [Hnotin Hnd].
      destruct Hin as [Heq | Hin]; [|now apply H2].
      injection Heq as <- <-. rewrite H3.
      * rewrite <- Ha in Hlen. apply Hkeep in Hlen. rewrite Hlen, <- Ha.
        apply dict_get_set_eq.
      * intros Hin. apply Hnotin. now apply list_elem_of_In.
    + intros k Hk. simpl in Hk. rewrite H3 by tauto.
      destruct keep; [|reflexivity].
      apply dict_get_set_ne. tauto.
Qed.


(** X15.  [_make_resdict(for_json=True)] never consults 'n_days': it
    succeeds whatever the parameters are, holds every series as a bare
    array under its key, and holds the list [reskeys] under
    'timeseries_keys' unless a series has that name. *)
Theorem x15_make_resdict_for_json
        (s : Sim Person) (ks : list string) (items : list (string * resval)) :
  results s = Some items ->
  exists out,
    make_resdict s (Some ks) true = Ok out
    /\ (NoDup (keys items) ->
        forall key res,
          In (key, res) items ->
          dict_get key out = Some (DArray (series_values res)))
    /\ (~ In "timeseries_keys" (keys items) ->
        dict_get "timeseries_keys" out = Some (DKeys ks)).
Proof.
  intros Hres. unfold make_resdict. simpl. rewrite Hres.
  destruct (resdict_loop_spec (pars s) true 0 items
                              [("timeseries_keys", DKeys ks)]
                              (or_introl eq_refl))
    as (out & Hout & H1 & H2 & H3).
  exists out. split; [exact Hout|]. split.
  - intros Hnd key res Hin. apply (H2 Hnd key res Hin). now left.
  - intros Hnotin. now rewrite H3.
Qed.

End SimFacts.

(** ** single_run: overrides, shape of the copy, early failures *)

Section MoreRunnerFacts.

Context {Person rng_state : Type}.

Variable suggest : string -> list string -> option string.
Variable seed_rng : pyval -> rng_state.
Variable normal : rng_state -> Q * rng_state.
Variable run : Sim Person -> pyval -> rng_state -> @RunOutcome Person rng_state.

Abbreviation SimR := (Sim Person).
Abbreviation WorldR := (World Person rng_state).
Abbreviation MR := (M Person rng_state).


(** *** The shape of the private copy *)

Lemma same_shape_refl (s : SimR) : same_shape s s.
Proof. repeat split. Qed.

Lemma keeps_shape_bind {A B} (l : loc) (s : SimR) (m : MR A) (f : A -> MR B) :
  keeps_shape l s m -> (forall a, keeps_shape l s (f a)) ->
  keeps_shape l s (bind m f).
Proof.
  intros Hm Hf w Hw. specialize (Hm w Hw). unfold bind.
  destruct (m w) as [[a|e] w1]; simpl in *; [now apply Hf | exact Hm].
Qed.

Lemma keeps_shape_ret {A} (l : loc) (s : SimR) (a : A) :
  keeps_shape l s (ret a : MR A).
Proof. now intros w Hw. Qed.

Lemma keeps_shape_raise {A} (l : loc) (s : SimR) (e : exn) :
  keeps_shape l s (raise e : MR A).
Proof. now intros w Hw. Qed.

Lemma keeps_shape_lift {A} (l : loc) (s : SimR) (r : result A) :
  keeps_shape l s (lift r : MR A).
Proof. now intros w Hw. Qed.

Lemma keeps_shape_sim_read (l l' : loc) (s : SimR) :
  keeps_shape l s (sim_read l' : MR SimR).
Proof. intros w Hw. unfold sim_read. now destruct (heap w !! l'). Qed.

Lemma keeps_shape_print (l : loc) (s : SimR) (ln : line) :
  keeps_shape l s (print ln : MR unit).
Proof. now intros w Hw. Qed.

Lemma keeps_shape_np_random_normal (l : loc) (s : SimR) :
  keeps_shape l s (np_random_normal normal).
Proof. intros w Hw. rewrite np_random_normal_eq. exact Hw. Qed.

Lemma keeps_shape_Sim_getitem (l l' : loc) (s : SimR) (key : pyval) :
  keeps_shape l s (Sim_getitem l' key : MR pyval).
Proof.
  unfold Sim_getitem. apply keeps_shape_bind; [apply keeps_shape_sim_read|].
  intros s0. apply keeps_shape_lift.
Qed.

Lemma keeps_shape_Sim_setitem (l l' : loc) (s : SimR) (key : string) (v : pyval) :
  keeps_shape l s (Sim_setitem suggest l' key v : MR unit).
Proof.
  intros w (s' & Hl & Hshape). unfold Sim_setitem, bind, sim_read.
  destruct (heap w !! l') as [s0|] eqn:Hl'; simpl; [|now exists s'].
  unfold lift, ParsObj_setitem.
  destruct (dict_mem key (pars s0)) eqn:Hk; simpl; [|now exists s'].
  destruct (Nat.eq_dec l' l) as [-> | Hne].
  - rewrite Hl in Hl'. injection Hl' as <-.
    eexists. split; [eapply lookup_written, Hl|].
    destruct Hshape as (H1 & H2 & H3 & H4). repeat split; simpl; auto.
    rewrite <- H1. now apply keys_set_present.
  - exists s'. split; [|exact Hshape].
    unfold sim_write. simpl. now rewrite list_lookup_insert_ne.
Qed.

Lemma keeps_shape_set_seed (l l' : loc) (s : SimR) (seed : pyval) (randomize : bool) :
  keeps_shape l s (set_seed suggest seed_rng l' seed randomize).
Proof.
  unfold set_seed. apply keeps_shape_bind.
  - destruct randomize, seed;
      try apply keeps_shape_raise; try apply keeps_shape_ret;
      try apply keeps_shape_Sim_getitem;
      (apply keeps_shape_bind;
       [apply keeps_shape_Sim_setitem | intros _; apply keeps_shape_ret]).
  - intros sd w Hw. exact Hw.
Qed.

Lemma keeps_shape_Sim_imul_float (l l' : loc) (s : SimR) (key : pyval) (x : Q) :
  keeps_shape l s (Sim_imul_float suggest l' key x : MR unit).
Proof.
  unfold Sim_imul_float.
  apply keeps_shape_bind; [apply keeps_shape_Sim_getitem|]. intros old.
  apply keeps_shape_bind; [apply keeps_shape_lift|]. intros new.
  destruct key; try apply keeps_shape_raise. apply keeps_shape_Sim_setitem.
Qed.

Lemma keeps_shape_apply_kwargs (l l' : loc) (s : SimR) (verbose : pyval)
      (kwargs : dict) :
  keeps_shape l s (apply_kwargs suggest l' verbose kwargs : MR unit).
Proof.
  induction kwargs as [|[key val] rest IH]; simpl; [apply keeps_shape_ret|].
  apply keeps_shape_bind; [apply keeps_shape_print|]. intros _.
  apply keeps_shape_bind; [apply keeps_shape_sim_read|]. intros s0.
  apply keeps_shape_bind; [|intros _; exact IH].
  destruct (dict_mem key (pars s0)); [|apply keeps_shape_raise].
  apply keeps_shape_bind; [apply keeps_shape_lift|]. intros loud.
  destruct loud; [|apply keeps_shape_ret].
  apply keeps_shape_bind; [apply keeps_shape_Sim_getitem|]. intros old.
  apply keeps_shape_bind; [apply keeps_shape_print|]. intros _.
  apply keeps_shape_Sim_setitem.
Qed.

Lemma keeps_shape_guess_noisepar (l sim : loc) (s : SimR) (noisepar : pyval) :
  keeps_shape l s (guess_noisepar sim noisepar : MR pyval).
Proof.
  unfold guess_noisepar. destruct noisepar; try apply keeps_shape_ret.
  apply keeps_shape_bind; [apply keeps_shape_sim_read|]. intros s0.
  destruct (negb _); [apply keeps_shape_raise|].
  destruct (found_guesses (pars s0));
    [apply keeps_shape_raise | apply keeps_shape_ret].
Qed.

Lemma keeps_shape_apply_noise (l l' : loc) (s : SimR) (noise noisepar : pyval) :
  keeps_shape l s (apply_noise suggest normal l' noise noisepar).
Proof.
  unfold apply_noise.
  apply keeps_shape_bind; [apply keeps_shape_np_random_normal|]. intros draw.
  apply keeps_shape_bind; [apply keeps_shape_lift|]. intros noiseval.
  apply keeps_shape_bind; [apply keeps_shape_Sim_imul_float|]. intros _.
  apply keeps_shape_ret.
Qed.

(** X17.  Whatever the outcome of the statements of [single_run] before
    [run], the private copy (the object created first) exists and has
    exactly the parameter names of the template, in the same order, and
    the template's population and results: those statements only change
    values of existing parameters. *)
Theorem x17_copy_keeps_parameter_names
        (w : WorldR) (sim : loc) (s : SimR)
        (ind noise noisepar verbose : pyval) (kwargs : dict) :
  heap w !! sim = Some s ->
  exists s',
    heap (snd (single_run_setup suggest seed_rng normal (RSim sim) ind noise
                                noisepar verbose kwargs w))
    !! length (heap w) = Some s'
    /\ keys (pars s') = keys (pars s)
    /\ people s' = people s
    /\ results s' = results s
    /\ results_keys s' = results_keys s.
Proof.
  intros Hl.
  match goal with
  | |- exists s', heap (snd (?m w)) !! ?n = Some s' /\ _ =>
      assert (Hshape : shaped n s (snd (m w)))
  end.
  { unfold single_run_setup, clone_and_seed.
    rewrite !bind_assoc, (bind_Ok _ _ _ _ _ (dcp_eq _ _ _ Hl)).
    set (n := length (heap w)).
    match goal with
    | |- shaped n s (snd (?m ?w1)) =>
        assert (Hk : keeps_shape n s m); [|apply Hk]
    end.
    - repeat (cbv zeta;
              first [ apply keeps_shape_ret
                    | apply keeps_shape_raise
                    | apply keeps_shape_lift
                    | apply keeps_shape_print
                    | apply keeps_shape_Sim_getitem
                    | apply keeps_shape_Sim_setitem
                    | apply keeps_shape_set_seed
                    | apply keeps_shape_guess_noisepar
                    | apply keeps_shape_apply_noise
                    | apply keeps_shape_apply_kwargs
                    | apply keeps_shape_bind; [|intro]
                    | match goal with
                      | |- keeps_shape _ _ (match ?x with _ => _ end) =>
                          destruct x
                      end ]).
    - exists s. split; [apply lookup_fresh | apply same_shape_refl]. }
  destruct Hshape as (s' & Hl' & H1 & H2 & H3 & H4).
  exists s'. auto.
Qed.

End MoreRunnerFacts.

(** ** Early failures of single_run, the count of an ensemble *)

Section EnsembleFacts.

Context {Person rng_state : Type}.

Variable suggest : string -> list string -> option string.
Variable seed_rng : pyval -> rng_state.
Variable normal : rng_state -> Q * rng_state.
Variable run : Sim Person -> pyval -> rng_state -> @RunOutcome Person rng_state.

Abbreviation SimE := (Sim Person).
Abbreviation WorldE := (World Person rng_state).
Abbreviation ME := (M Person rng_state).

(** X18.  [single_run] fails before it resets the random stream, prints
    or runs anything when the verbosity is omitted and not a parameter,
    when 'seed' is not a parameter, or when the seed cannot be added to
    the run index: the exception is that of the failing statement and the
    only effect is the unused copy of the engine. *)
Theorem x18_single_run_early_failures
        (w : WorldE) (sim : loc) (s : SimE)
        (ind noise noisepar verbose : pyval) (kwargs : dict) :
  heap w !! sim = Some s ->
  (verbose = VNone -> dict_get "verbose" (pars s) = None ->
   single_run suggest seed_rng normal run (RSim sim) ind noise noisepar
              verbose kwargs w
   = (Raise (KeyError_lookup (VStr "verbose")), set_heap w (heap w ++ [s])))
  /\ (forall v, verbosity_in_force verbose (pars s) = Some v ->
                dict_get "seed" (pars s) = None ->
                single_run suggest seed_rng normal run (RSim sim) ind noise
                           noisepar verbose kwargs w
                = (Raise (KeyError_lookup (VStr "seed")),
                   set_heap w (heap w ++ [s])))
  /\ (forall v sd e, verbosity_in_force verbose (pars s) = Some v ->
                     dict_get "seed" (pars s) = Some sd ->
                     py_add sd ind = Raise e ->
                     single_run suggest seed_rng normal run (RSim sim) ind
                                noise noisepar verbose kwargs w
                     = (Raise e, set_heap w (heap w ++ [s]))).
Proof.
  intros Hl.
  set (w1 := set_heap w (heap w ++ [s])).
  assert (H1 : heap w1 !! length (heap w) = Some s) by apply lookup_fresh.
  assert (Hverb : forall v, verbosity_in_force verbose (pars s) = Some v ->
            (match verbose with
             | VNone => Sim_getitem (length (heap w)) (VStr "verbose")
             | _ => ret verbose
             end) w1 = (Ok v, w1)).
  { intros v Hv.
    destruct verbose; simpl in Hv; try (injection Hv as <-; reflexivity).
    now apply (Sim_getitem_present _ s). }
  split; [|split].
  - intros -> Hnone. unfold single_run, single_run_setup, clone_and_seed.
    apply bind_Raise. apply bind_Raise.
    rewrite (bind_Ok _ _ _ _ _ (dcp_eq _ _ _ Hl)).
    apply bind_Raise. now apply (Sim_getitem_absent _ s).
  - intros v Hv Hnone. unfold single_run, single_run_setup, clone_and_seed.
    apply bind_Raise. apply bind_Raise.
    rewrite (bind_Ok _ _ _ _ _ (dcp_eq _ _ _ Hl)).
    rewrite (bind_Ok _ _ _ _ _ (Hverb v Hv)).
    apply bind_Raise. now apply (Sim_getitem_absent _ s).
  - intros v sd e Hv Hsd Hadd.
    unfold single_run, single_run_setup, clone_and_seed.
    apply bind_Raise. apply bind_Raise.
    rewrite (bind_Ok _ _ _ _ _ (dcp_eq _ _ _ Hl)).
    rewrite (bind_Ok _ _ _ _ _ (Hverb v Hv)).
    rewrite (bind_Ok _ _ _ _ _ (Sim_getitem_present _ _ _ _ _ H1 Hsd)).
    apply bind_Raise. unfold lift. now rewrite Hadd.
Qed.

(** X19.  When [iterpars] is given, the count [n] passed by the caller
    plays no part: the call behaves the same for every [n].  With an
    empty [iterpars] dict the count is left undefined and [np.arange]
    raises a TypeError before anything happens, whatever [n] was. *)
Theorem x19_count_ignored_with_iterpars
        (w : WorldE) (sim : loc) (n n' : Z) (noise noisepar verbose : pyval)
        (items : list (string * list pyval)) (combine : bool) :
  multi_run suggest seed_rng normal run sim n noise noisepar (Some items)
            verbose combine w
  = multi_run suggest seed_rng normal run sim n' noise noisepar (Some items)
              verbose combine w
  /\ multi_run suggest seed_rng normal run sim n noise noisepar (Some [])
               verbose combine w = (Raise TypeError_arange, w).
Proof. split; reflexivity. Qed.

(** *** The order of the engines that multi_run returns *)

Lemma collect_lookup {A} (rs : list (result A)) (l : list A) (i : nat)
      (r : result A) :
  collect rs = Ok l -> rs !! i = Some r -> exists a, r = Ok a /\ l !! i = Some a.
Proof.
  revert l i. induction rs as [|[a|e] rs IH]; simpl; intros l i Hc Hi.
  - discriminate.
  - destruct (collect rs) as [l'|e] eqn:Hc'; [|discriminate].
    injection Hc as <-. destruct i as [|i]; simpl in Hi.
    + injection Hi as <-. now exists a.
    + destruct (IH l' i eq_refl Hi) as (a' & -> & Hl). now exists a'.
  - discriminate.
Qed.

Lemma run_job_Ok (w : WorldE) (job : ME loc) (s : SimE) :
  fst (run_job w job) = Ok s ->
  exists l w2, job (set_out w []) = (Ok l, w2) /\ heap w2 !! l = Some s.
Proof.
  unfold run_job. destruct (job (set_out w [])) as [[l|e] w2]; simpl.
  - destruct (heap w2 !! l) as [s'|] eqn:Hl; [|discriminate].
    intros [= <-]. now exists l, w2.
  - discriminate.
Qed.

Lemma call_single_run_ind (sim : loc) (noise noisepar verbose : pyval) (i : nat)
      (k : nat) :
  i < k ->
  call_single_run suggest seed_rng normal run sim noise noisepar verbose
                  (iterdict [("ind", map (fun j => VInt (Z.of_nat j)) (seq 0 k))] i)
  = single_run suggest seed_rng normal run (RSim sim) (VInt (Z.of_nat i))
               noise noisepar verbose [].
Proof.
  intros Hi. unfold iterdict. simpl.
  assert (Hnth : nth i (map (fun j => VInt (Z.of_nat j)) (seq 0 k)) VNone
                 = VInt (Z.of_nat i)).
  { rewrite nth_lookup.
    change (map (fun j => VInt (Z.of_nat j)) (seq 0 k))
      with ((fun j => VInt (Z.of_nat j)) <$> seq 0 k).
    now rewrite list_lookup_fmap, lookup_seq_lt. }
  rewrite Hnth. reflexivity.
Qed.

(** X20.  Without [iterpars] and without [combine], for a positive count
    the engines that [multi_run] returns are new objects in the order of
    the run indices:
    engine number [i] is the one that [single_run] with [ind = i]
    produces from the state at the call. *)
Theorem x20_engines_in_index_order
        (w w' : WorldE) (sim : loc) (n : Z) (noise noisepar verbose : pyval)
        (sims : list loc) :
  (0 < n)%Z ->
  multi_run suggest seed_rng normal run sim n noise noisepar None verbose
            false w = (Ok (OutSims sims), w') ->
  sims = seq (length (heap w)) (Z.to_nat n)
  /\ forall i, i < Z.to_nat n ->
        exists l_i w_i s_i,
          single_run suggest seed_rng normal run (RSim sim)
                     (VInt (Z.of_nat i)) noise noisepar verbose []
                     (set_out w []) = (Ok l_i, w_i)
          /\ heap w_i !! l_i = Some s_i
          /\ sims !! i = Some (length (heap w) + i)
          /\ heap w' !! (length (heap w) + i) = Some s_i.
Proof.
  intros _.
  unfold multi_run. cbv beta iota delta [bind lift np_arange].
  set (k := Z.to_nat n).
  set (inds := map (fun j => VInt (Z.of_nat j)) (seq 0 k)).
  change (dict_update [("ind", inds)] []) with [("ind", inds)].
  assert (Hlen : length inds = k) by (unfold inds; now rewrite length_map, length_seq).
  rewrite Hlen.
  set (jobs := map (fun i => call_single_run suggest seed_rng normal run sim
                                             noise noisepar verbose
                                             (iterdict [("ind", inds)] i))
                   (seq 0 k)).
  unfold parallelize.
  destruct (collect (map fst (map (run_job w) jobs))) as [objs|e] eqn:Hc;
    [|discriminate].
  simpl. intros [= <- <-].
  assert (Hobjs : length objs = k).
  { apply collect_length in Hc. rewrite Hc, !length_map. unfold jobs.
    now rewrite length_map, length_seq. }
  rewrite Hobjs. split; [reflexivity|].
  intros i Hi.
  assert (Hjob : jobs !! i
                 = Some (single_run suggest seed_rng normal run (RSim sim)
                                    (VInt (Z.of_nat i)) noise noisepar verbose [])).
  { unfold jobs.
    change (map ?f (seq 0 k)) with (f <$> seq 0 k).
    rewrite list_lookup_fmap, lookup_seq_lt by exact Hi. simpl.
    f_equal. now apply call_single_run_ind. }
  assert (Hres : map fst (map (run_job w) jobs) !! i
                 = Some (fst (run_job w (single_run suggest seed_rng normal run
                                                    (RSim sim) (VInt (Z.of_nat i))
                                                    noise noisepar verbose [])))).
  { change (map fst (map (run_job w) jobs))
      with (fst <$> (run_job w <$> jobs)).
    now rewrite !list_lookup_fmap, Hjob. }
  destruct (collect_lookup _ _ _ _ Hc Hres) as (s_i & Hok & Hobj).
  destruct (run_job_Ok _ _ _ Hok) as (l_i & w_i & Hrun & Hheap).
  exists l_i, w_i, s_i. split; [exact Hrun|]. split; [exact Hheap|]. split.
  - now rewrite lookup_seq_lt.
  - simpl. rewrite lookup_app_r by lia.
    now replace (length (heap w) + i - length (heap w)) with i by lia.
Qed.

(** *** What multi_run and the merge leave alone *)

Lemma keeps_parallelize (h0 : list SimE) (jobs : list (ME loc)) :
  keeps h0 (parallelize jobs) (fun _ => True).
Proof.
  intros w Hw. pose proof (keeps_length h0 w Hw) as Hlen.
  unfold parallelize.
  destruct (collect (map fst (map (run_job w) jobs))) as [objs|e]; simpl.
  - split; [now rewrite take_app_le | easy].
  - split; [exact Hw | discriminate].
Qed.

Lemma keeps_attr {A} (h0 : list SimE) (nm : string) (a : option A) :
  keeps h0 (attr nm a : ME A) (fun _ => True).
Proof.
  destruct a; [now apply keeps_ret | apply keeps_raise].
Qed.

Lemma keeps_lookup_or_raise {V} (h0 : list SimE) (key : string)
      (d : list (string * V)) :
  keeps h0 (lookup_or_raise key d : ME V) (fun _ => True).
Proof.
  unfold lookup_or_raise.
  destruct (dict_get key d); [now apply keeps_ret | apply keeps_raise].
Qed.

Lemma keeps_merge_results (h0 : list SimE) (output_sim sim : loc)
      (ks : list string) :
  length h0 <= output_sim ->
  keeps h0 (merge_results output_sim sim ks : ME unit) (fun _ => True).
Proof.
  intros Hl. induction ks as [|key rest IH]; simpl; [now apply keeps_ret|].
  eapply keeps_bind; [apply keeps_sim_read|]. intros o _.
  eapply keeps_bind; [apply keeps_attr|]. intros ores _.
  eapply keeps_bind; [apply keeps_lookup_or_raise|]. intros lhs _.
  eapply keeps_bind; [apply keeps_sim_read|]. intros s _.
  eapply keeps_bind; [apply keeps_attr|]. intros sres _.
  eapply keeps_bind; [apply keeps_lookup_or_raise|]. intros rhs _.
  eapply keeps_bind; [apply keeps_lift|]. intros total _.
  apply keeps_seq; [now apply keeps_sim_write | exact IH].
Qed.

Lemma keeps_merge_sims (h0 : list SimE) (output_sim : loc) (sims : list loc) :
  length h0 <= output_sim ->
  keeps h0 (merge_sims output_sim sims : ME unit) (fun _ => True).
Proof.
  intros Hl. induction sims as [|sim rest IH]; simpl; [now apply keeps_ret|].
  eapply keeps_bind; [apply keeps_sim_read|]. intros o _.
  eapply keeps_bind; [apply keeps_attr|]. intros opeople _.
  eapply keeps_bind; [apply keeps_sim_read|]. intros s _.
  eapply keeps_bind; [apply keeps_attr|]. intros speople _.
  apply keeps_seq; [now apply keeps_sim_write|].
  eapply keeps_bind; [apply keeps_attr|]. intros ks _.
  apply keeps_seq; [now apply keeps_merge_results | exact IH].
Qed.

Lemma keeps_combine_sims (h0 : list SimE) (sims : list loc) (n : Z) :
  keeps h0 (combine_sims sims n : ME loc) (fun out => length h0 <= out).
Proof.
  unfold combine_sims. apply keeps_seq; [apply keeps_print|].
  destruct sims as [|first others]; [apply keeps_raise|].
  eapply keeps_bind; [apply keeps_dcp|]. intros output_sim Hout.
  eapply keeps_bind; [apply keeps_sim_read|]. intros o _.
  apply keeps_seq; [now apply keeps_sim_write|].
  eapply keeps_bind; [apply keeps_sim_read|]. intros o' _.
  eapply keeps_bind; [apply keeps_lookup_or_raise|]. intros old _.
  eapply keeps_bind; [apply keeps_lift|]. intros new _.
  apply keeps_seq; [now apply keeps_sim_write|].
  apply keeps_seq; [now apply keeps_merge_sims | now apply keeps_ret].
Qed.

(** X21.  [multi_run] leaves every object that exists at the call as it
    was, whatever its arguments and its outcome; and the merge of
    [combine=True] leaves every object that exists when it starts as it
    was, the engines of the runs included: it writes only to its own
    copy of the first engine, which is the object it returns. *)
Theorem x21_ensemble_frame
        (w : WorldE) (sim : loc) (n : Z) (noise noisepar verbose : pyval)
        (iterpars : option (list (string * list pyval))) (combine : bool)
        (sims : list loc) :
  take (length (heap w))
       (heap (snd (multi_run suggest seed_rng normal run sim n noise noisepar
                             iterpars verbose combine w))) = heap w
  /\ take (length (heap w)) (heap (snd (combine_sims sims n w))) = heap w
  /\ forall out, fst (combine_sims sims n w) = Ok out -> length (heap w) <= out.
Proof.
  assert (Hw : take (length (heap w)) (heap w) = heap w) by apply firstn_all.
  split; [|split].
  - assert (Hk : keeps (heap w)
                   (multi_run suggest seed_rng normal run sim n noise noisepar
                              iterpars verbose combine) (fun _ => True)).
    { unfold multi_run.
      eapply keeps_bind; [apply keeps_lift|]. intros n' _.
      eapply keeps_bind; [apply keeps_lift|]. intros inds _.
      eapply keeps_bind; [apply keeps_parallelize|]. intros sims' _.
      destruct (negb combine); [now apply keeps_ret|].
      eapply keeps_bind; [apply keeps_combine_sims|]. intros out _.
      now apply keeps_ret. }
    apply (Hk w Hw).
  - apply (keeps_combine_sims (heap w) sims n w Hw).
  - apply (keeps_combine_sims (heap w) sims n w Hw).
Qed.

(** *** The merge of the results and of the populations *)




Lemma people_set_absent (k : Z) (v : Person) (d : list (Z * Person)) :
  ~ In k (map fst d) -> people_set k v d = d ++ [(k, v)].
Proof.
  induction d as [|[k' v'] d IH]; simpl; intros Hnotin; [reflexivity|].
  destruct (Z.eqb_spec k k') as [-> | Hne]; [tauto|].
  rewrite IH by tauto. reflexivity.
Qed.

Lemma people_set_present (k : Z) (v : Person) (d : list (Z * Person)) :
  In k (map fst d) -> map fst (people_set k v d) = map fst d.
Proof.
  induction d as [|[k' v'] d IH]; simpl; intros Hin; [tauto|].
  destruct (Z.eqb_spec k k') as [-> | Hne]; [reflexivity|].
  simpl. rewrite IH; [reflexivity|]. destruct Hin; congruence.
Qed.

Lemma people_get_set_eq (k : Z) (v : Person) (d : list (Z * Person)) :
  people_get k (people_set k v d) = Some v.
Proof.
  induction d as [|[k' v'] d IH]; simpl.
  - now rewrite Z.eqb_refl.
  - destruct (Z.eqb k k') eqn:E; simpl; [now rewrite Z.eqb_refl | now rewrite E].
Qed.

Lemma people_get_set_ne (k k' : Z) (v : Person) (d : list (Z * Person)) :
  k <> k' -> people_get k' (people_set k v d) = people_get k' d.
Proof.
  intros Hne. induction d as [|[k0 v0] d IH]; simpl.
  - destruct (Z.eqb_spec k' k); [congruence | reflexivity].
  - destruct (Z.eqb_spec k k0) as [-> | Hk]; simpl.
    + destruct (Z.eqb_spec k' k0); [congruence | reflexivity].
    + now rewrite IH.
Qed.

Lemma people_update_get_other (k : Z) (d m : list (Z * Person)) :
  ~ In k (map fst m) -> people_get k (people_update d m) = people_get k d.
Proof.
  unfold people_update. revert d.
  induction m as [|[k' v'] m IH]; simpl; intros d Hnotin; [reflexivity|].
  rewrite IH by tauto. apply people_get_set_ne. tauto.
Qed.

(** X23.  [people.update(other)] is a merge by identifier.  Every agent
    of [other] is in the result under its identifier; when [other] uses
    only identifiers that the population already has, the result has the
    same identifiers in the same order, so the population does not grow;
    when [other] shares no identifier with it, the agents of [other] are
    appended in their order. *)
Theorem x23_people_update_by_identifier (m d : list (Z * Person)) :
  NoDup (map fst m) ->
  (forall k v, In (k, v) m -> people_get k (people_update d m) = Some v)
  /\ ((forall k, In k (map fst m) -> In k (map fst d)) ->
      map fst (people_update d m) = map fst d
      /\ length (people_update d m) = length d)
  /\ ((forall k, In k (map fst m) -> ~ In k (map fst d)) ->
      people_update d m = d ++ m).
Proof.
  intros Hnd. split; [|split].
  - revert d. induction m as [|[k' v'] m IH]; intros d k v Hin; [destruct Hin|].
    apply NoDup_cons in Hnd as [Hnotin Hnd].
    destruct Hin as [Heq | Hin].
    + injection Heq as -> ->.
      change (people_get k (people_update (people_set k v d) m) = Some v).
      rewrite people_update_get_other; [apply people_get_set_eq|].
      intros Hin. apply Hnotin. now apply list_elem_of_In.
    + now apply (IH Hnd (people_set k' v' d)).
  - intros Hsub.
    assert (Hkeys : map fst (people_update d m) = map fst d).
    { clear Hnd. revert d Hsub.
      induction m as [|[k' v'] m IH]; intros d Hsub; [reflexivity|].
      change (map fst (people_update (people_set k' v' d) m) = map fst d).
      rewrite IH.
      - apply people_set_present. apply Hsub. now left.
      - intros k Hk. rewrite people_set_present by (apply Hsub; now left).
        apply Hsub. now right. }
    split; [exact Hkeys|].
    apply (f_equal length) in Hkeys. now rewrite !length_map in Hkeys.
  - revert d. induction m as [|[k' v'] m IH]; intros d Hdisj.
    + unfold people_update. simpl. now rewrite app_nil_r.
    + apply NoDup_cons in Hnd as [Hnotin Hnd].
      change (people_update (people_set k' v' d) m = d ++ (k', v') :: m).
      rewrite people_set_absent by (apply Hdisj; now left).
      rewrite (IH Hnd).
      * now rewrite <- app_assoc.
      * intros k Hk. rewrite map_app, in_app_iff. simpl.
        intros [Hd | [<- | []]].
        -- apply (Hdisj k); [now right | exact Hd].
        -- apply Hnotin. now apply list_elem_of_In.
Qed.

End EnsembleFacts.

(** ** The whole effect of a quiet single_run before run *)

Section QuietRun.

Context {Person rng_state : Type}.

Variable suggest : string -> list string -> option string.
Variable seed_rng : pyval -> rng_state.
Variable normal : rng_state -> Q * rng_state.


End QuietRun.

(** ** Instances of the further properties *)

Ltac zrange :=
  first [ split; [apply Z.leb_le | apply Z.ltb_lt]; reflexivity
        | left; apply Z.leb_le; reflexivity
        | right; apply Z.ltb_lt; reflexivity ].

Lemma x1_witness :
  heap demo_world !! 0 = Some demo_sim
  /\ exists s',
      heap (snd (Sim_setitem demo_suggest 0 "beta" (VFloat (1 # 10)) demo_world))
      !! 0 = Some s'
      /\ keys (pars s') = keys (pars demo_sim)
      /\ forall k, k <> "beta" -> dict_get k (pars s') = dict_get k (pars demo_sim).
Proof.
  split; [reflexivity|].
  exact (x1_setitem_closed_key_set demo_suggest demo_world 0 demo_sim "beta"
                                   (VFloat (1 # 10)) eq_refl).
Defined.

Lemma x2_witness :
  heap demo_world !! 0 = Some demo_sim
  /\ exists s',
      heap (snd (Sim_update_pars 0 (ADict [("beta", VFloat (1 # 10)); ("oops", VInt 1)])
                                 false demo_world)) !! 0 = Some s'
      /\ keys (pars s') = keys (pars demo_sim).
Proof.
  split; [reflexivity|].
  exact (proj1 (x2_update_pars_key_set
                  demo_world 0 demo_sim
                  [("beta", VFloat (1 # 10)); ("oops", VInt 1)] eq_refl)).
Defined.

Lemma x3_witness :
  heap demo_world !! 0 = Some demo_sim
  /\ dict_mem "seed" (pars demo_sim) = true
  /\ VInt 324 <> VNone
  /\ exists w1,
      set_seed demo_suggest demo_seed_rng 0 (VInt 324) false demo_world
      = (Ok tt, w1)
      /\ param w1 0 "seed" = Some (VInt 324)
      /\ rng w1 = demo_seed_rng (VInt 324)
      /\ set_seed demo_suggest demo_seed_rng 0 VNone false w1 = (Ok tt, w1).
Proof.
  split; [reflexivity|]. split; [reflexivity|]. split; [discriminate|].
  apply (x3_set_seed_stored_and_reused demo_suggest demo_seed_rng demo_world 0
                                       demo_sim (VInt 324));
    [reflexivity | reflexivity | discriminate].
Defined.

Lemma x4_witness :
  heap demo_bare_world !! 0 = Some demo_bare_sim
  /\ set_seed demo_suggest demo_seed_rng 0 (VInt 5) true demo_bare_world
     = (Raise ValueError_seed_randomize, demo_bare_world)
  /\ exists e,
      set_seed demo_suggest demo_seed_rng 0 (VInt 5) false demo_bare_world
      = (Raise e, demo_bare_world)
      /\ exn_class e = KeyError.
Proof.
  pose proof (x4_set_seed_failures demo_suggest demo_seed_rng demo_bare_world 0
                                   demo_bare_sim (VInt 5) eq_refl) as [H1 H2].
  split; [reflexivity|]. split.
  - apply H1. discriminate.
  - apply H2. reflexivity.
Defined.

Lemma x6_witness :
  is_finite (-2)%float = true
  /\ noisefactor_double (noiseval_double 0 (-2)) = Some 1%float.
Proof.
  split; [reflexivity|]. apply (x6_zero_noise_factor_one (-2)). reflexivity.
Defined.

Lemma x7_witness :
  Result_getitem (Result_init (Some "test1") None (Some 10) true false) (-1)
  = Ok 0%Q.
Proof.
  apply (proj1 (proj2 (x7_Result_zero_filled (Some "test1") 10 true false))).
  zrange.
Defined.

Lemma x8_witness :
  let r := Result_init (Some "test1") None (Some 10) true false in
  (- Z.of_nat (npts r) <= -2 < Z.of_nat (npts r))%Z
  /\ exists r',
      Result_setitem r (-2) (20 # 1) = Ok r'
      /\ npts r' = npts r
      /\ Result_getitem r' (-2) = Ok (20 # 1)%Q.
Proof.
  intros r.
  assert (Hrange : (- Z.of_nat (npts r) <= -2 < Z.of_nat (npts r))%Z)
    by zrange.
  split; [exact Hrange|].
  destruct (x8_Result_set_get r (-2) (20 # 1) Hrange)
    as (r' & H1 & H2 & _ & _ & _ & H6 & _).
  exists r'. auto.
Defined.

Lemma x9_witness :
  let r := Result_init (Some "test1") None (Some 10) true false in
  Result_getitem r 10 = Raise IndexError
  /\ Result_setitem r 10 (1 # 1) = Raise IndexError.
Proof.
  intros r.
  apply (proj1 (x9_Result_index_bounds r 10 (1 # 1))). zrange.
Defined.

(** The example of the docstring: [r1 = Result(npts=10); r1[:5] = 20]. *)
Lemma x10_witness :
  let r1 := Result_init (Some "test1") None (Some 10) true false in
  3 < npts r1
  /\ npts (Result_setslice r1 None (Some 5%Z) (20 # 1)) = npts r1
  /\ values (Result_setslice r1 None (Some 5%Z) (20 # 1)) !! 3 = Some (20 # 1)%Q.
Proof.
  intros r1.
  assert (Hj : 3 < npts r1) by (vm_compute; lia).
  destruct (x10_Result_slice_assign r1 None (Some 5%Z) (20 # 1) 3 Hj)
    as (H1 & _ & _ & H4 & _).
  split; [exact Hj|]. split; [exact H1|].
  apply H4. vm_compute. lia.
Defined.

Lemma x11_witness :
  dict_get "n_days" demo_pars = Some (VInt 10)
  /\ Sim_npts demo_pars = Ok 11%Z.
Proof.
  split; [reflexivity|].
  apply (proj1 (x11_npts_matches_tvec demo_pars) 10%Z); [reflexivity | lia].
Defined.

Lemma demo_crowd_NoDup : NoDup (map fst [(7%Z, "ann"); (3%Z, "bob"); (5%Z, "cyd")]).
Proof.
  eapply bool_decide_unpack. vm_compute. exact I.
Defined.

Lemma x13_witness :
  people demo_crowd = Some [(7%Z, "ann"); (3%Z, "bob"); (5%Z, "cyd")]
  /\ get_person demo_crowd (Some [7; 3; 5]%Z) 1 = Ok "bob"
  /\ get_person demo_crowd (Some [7; 3; 5]%Z) (-2) = Ok "bob".
Proof.
  split; [reflexivity|].
  exact (proj1 (x13_get_person_by_position
                  demo_crowd [(7%Z, "ann"); (3%Z, "bob"); (5%Z, "cyd")]
                  eq_refl demo_crowd_NoDup)
               1 3%Z "bob" eq_refl).
Defined.


Lemma x15_witness :
  results demo_report = Some demo_report_results
  /\ exists out,
      make_resdict demo_report (Some ["new_infections"]) true = Ok out
      /\ (~ In "timeseries_keys" (keys demo_report_results) ->
          dict_get "timeseries_keys" out = Some (DKeys ["new_infections"])).
Proof.
  split; [reflexivity|].
  destruct (x15_make_resdict_for_json demo_report ["new_infections"]
                                      demo_report_results eq_refl)
    as (out & H1 & _ & H3).
  exists out. auto.
Defined.


Lemma x17_witness :
  heap demo_world !! 0 = Some demo_sim
  /\ exists s',
      heap (snd (single_run_setup demo_suggest demo_seed_rng demo_normal
                                  (RSim 0) (VInt 1) (VFloat (1 # 2)) VNone
                                  (VInt 1) [("n_days", VInt 30)] demo_world))
      !! length (heap demo_world) = Some s'
      /\ keys (pars s') = keys (pars demo_sim)
      /\ people s' = people demo_sim
      /\ results s' = results demo_sim
      /\ results_keys s' = results_keys demo_sim.
Proof.
  split; [reflexivity|].
  exact (x17_copy_keeps_parameter_names
           demo_suggest demo_seed_rng demo_normal demo_world 0 demo_sim
           (VInt 1) (VFloat (1 # 2)) VNone (VInt 1) [("n_days", VInt 30)]
           eq_refl).
Defined.

Lemma x18_witness :
  heap demo_bare_world !! 0 = Some demo_bare_sim
  /\ dict_get "verbose" (pars demo_bare_sim) = None
  /\ single_run demo_suggest demo_seed_rng demo_normal demo_run (RSim 0)
                (VInt 0) (VFloat 0) VNone VNone [] demo_bare_world
     = (Raise (KeyError_lookup (VStr "verbose")),
        set_heap demo_bare_world (heap demo_bare_world ++ [demo_bare_sim])).
Proof.
  split; [reflexivity|]. split; [reflexivity|].
  exact (proj1 (x18_single_run_early_failures
                  demo_suggest demo_seed_rng demo_normal demo_run
                  demo_bare_world 0 demo_bare_sim (VInt 0) (VFloat 0) VNone
                  VNone [] eq_refl)
               eq_refl eq_refl).
Defined.

Lemma x20_witness :
  let outcome :=
    multi_run demo_suggest demo_seed_rng demo_normal demo_run 0 2 (VFloat 0)
              VNone None VNone false demo_world in
  fst outcome = Ok (OutSims [1; 2])
  /\ exists l_i w_i s_i,
      single_run demo_suggest demo_seed_rng demo_normal demo_run (RSim 0)
                 (VInt 1) (VFloat 0) VNone VNone [] (set_out demo_world [])
      = (Ok l_i, w_i)
      /\ heap w_i !! l_i = Some s_i
      /\ heap (snd outcome) !! 2 = Some s_i.
Proof.
  intros outcome.
  assert (Hrun : outcome = (Ok (OutSims [1; 2]), snd outcome))
    by (vm_compute; reflexivity).
  split; [exact (f_equal fst Hrun)|].
  destruct (proj2 (x20_engines_in_index_order
                     demo_suggest demo_seed_rng demo_normal demo_run demo_world
                     (snd outcome) 0 2%Z (VFloat 0) VNone VNone [1; 2]
                     eq_refl Hrun)
                  1 ltac:(simpl; lia))
    as (l_i & w_i & s_i & H1 & H2 & _ & H4).
  exists l_i, w_i, s_i. auto.
Defined.


Lemma x23_witness :
  NoDup (map fst [(7%Z, "ann"); (3%Z, "bob"); (5%Z, "cyd")])
  /\ people_update [(3%Z, "old"); (9%Z, "zed")]
                   [(7%Z, "ann"); (3%Z, "bob"); (5%Z, "cyd")]
     <> []
  /\ people_get 3 (people_update [(3%Z, "old"); (9%Z, "zed")]
                                 [(7%Z, "ann"); (3%Z, "bob"); (5%Z, "cyd")])
     = Some "bob".
Proof.
  split; [exact demo_crowd_NoDup|]. split; [discriminate|].
  apply (proj1 (x23_people_update_by_identifier
                  [(7%Z, "ann"); (3%Z, "bob"); (5%Z, "cyd")]
                  [(3%Z, "old"); (9%Z, "zed")] demo_crowd_NoDup)).
  simpl. tauto.
Defined.

